(** * lib-jitsi-meet: the SDP rewrite pipeline and the track/SSRC tables

    A shallow embedding of the parts of [TraceableUnifiedPlanPeerConnection],
    of the SDP helpers that keep SSRCs stable ([updateTrackIdsToSSRCs] and its
    wrappers) and of the remote track table, with the properties their
    documentation states.

    Conventions.
    - JavaScript strings that the code searches and splices are [text], lists
      of characters; short strings that are only compared (attribute names,
      media kinds) are [string].
    - Indices are [Z], with [-1] for "not found", as [indexOf] returns them.
    - The parsed form of a description is what [sdp-transform] produces; that
      library is not part of the repository, so the code between
      [transform.parse] and [transform.write] is modelled on the parsed form. *)

From Stdlib Require Import String Ascii DecimalString.
From Stdlib Require Import ZArith Bool Lia Arith List.
Import ListNotations.

Local Open Scope Z_scope.

(* ===================================================================== *)
(** * JavaScript strings                                                  *)
(* ===================================================================== *)

Module JsString.

Abbreviation text := (list ascii).

(** A literal. *)
Definition T (s : string) : text := list_ascii_of_string s.

Definition CR : ascii := ascii_of_nat 13.
Definition LF : ascii := ascii_of_nat 10.
Definition CRLF : text := [CR; LF].

(** [startsWith p s]: [p] occurs in [s] at position 0. *)
Fixpoint startsWith (p s : text) : bool :=
  match p, s with
  | [], _ => true
  | _ :: _, [] => false
  | a :: p', b :: s' => Ascii.eqb a b && startsWith p' s'
  end.

(** First occurrence of [p] in [s], where [s] is the part of the string that
    starts at absolute position [pos]. *)
Fixpoint indexOf_from (p s : text) (pos : nat) : option nat :=
  if startsWith p s then Some pos
  else match s with
       | [] => None
       | _ :: s' => indexOf_from p s' (S pos)
       end.

(** Last occurrence of [p] in [s], same convention. *)
Fixpoint lastIndexOf_from (p s : text) (pos : nat) : option nat :=
  match s with
  | [] => if startsWith p [] then Some pos else None
  | _ :: s' =>
      match lastIndexOf_from p s' (S pos) with
      | Some k => Some k
      | None => if startsWith p s then Some pos else None
      end
  end.

Definition toIndex (o : option nat) : Z :=
  match o with Some k => Z.of_nat k | None => -1 end.

(** Clamp a position to [0 .. length s], as the string methods do. *)
Definition clamp (s : text) (i : Z) : nat :=
  Z.to_nat (Z.max 0 (Z.min i (Z.of_nat (length s)))).

(** [s.indexOf(p, from)] *)
Definition indexOf (s p : text) (from : Z) : Z :=
  let k := clamp s from in
  toIndex (indexOf_from p (skipn k s) k).

(** [s.lastIndexOf(p)] *)
Definition lastIndexOf (s p : text) : Z :=
  toIndex (lastIndexOf_from p s 0).

(** [s.substring(a, b)]: both ends clamped, swapped when [a > b]. *)
Definition substring (s : text) (a b : Z) : text :=
  let a' := clamp s a in
  let b' := clamp s b in
  let lo := Nat.min a' b' in
  let hi := Nat.max a' b' in
  firstn (hi - lo) (skipn lo s).

(** An end of [slice]: a negative index counts from the end. *)
Definition sliceIndex (s : text) (i : Z) : nat :=
  if i <? 0 then Z.to_nat (Z.max 0 (Z.of_nat (length s) + i))
  else Z.to_nat (Z.min i (Z.of_nat (length s))).

(** [s.slice(a, b)]; [None] is an omitted end. *)
Definition slice (s : text) (a : Z) (b : option Z) : text :=
  let lo := sliceIndex s a in
  let hi := match b with Some b' => sliceIndex s b' | None => length s end in
  firstn (hi - lo) (skipn lo s).

(** [s.replace(p, r)] with a string pattern and a replacement without [$],
    which is taken as it is: the first occurrence only. *)
Definition replace (s p r : text) : text :=
  match indexOf_from p s 0 with
  | None => s
  | Some k => firstn k s ++ r ++ skipn (k + length p) s
  end.

(** White space and line terminators, for code units below 256. *)
Definition isWhiteSpace (c : ascii) : bool :=
  let n := nat_of_ascii c in
  ((9 <=? n) && (n <=? 13) || (n =? 32) || (n =? 160))%nat.

Fixpoint trimStart (s : text) : text :=
  match s with
  | c :: s' => if isWhiteSpace c then trimStart s' else s
  | [] => []
  end.

Definition trimEnd (s : text) : text := rev (trimStart (rev s)).

(** [s.trim()] *)
Definition trim (s : text) : text := trimEnd (trimStart s).

End JsString.
Import JsString.

(* ===================================================================== *)
(** * Session descriptions as text                                        *)
(* ===================================================================== *)

(** An [RTCSessionDescription]: its [type] and its [sdp] text. *)
Record RTCSessionDescription := mkDesc {
  desc_type : string;
  desc_sdp : text
}.

(** The text of a description whose lines are [ls], each ended by CRLF. *)
Definition joinLines (ls : list text) : text :=
  concat (map (fun l => l ++ CRLF) ls).

Definition M_VIDEO : text := T "m=video".
Definition A_SSRC_GROUP : text := T "a=ssrc-group".
Definition A_SSRC_GROUP_SIM : text := T "a=ssrc-group:SIM".

(** [TraceableUnifiedPlanPeerConnection.prototype._ensureSimulcastGroupIsLast] *)
Definition _ensureSimulcastGroupIsLast (localSdp : RTCSessionDescription)
  : RTCSessionDescription :=
  let sdpStr := desc_sdp localSdp in
  let videoStartIndex := indexOf sdpStr M_VIDEO 0 in
  let simStartIndex := indexOf sdpStr A_SSRC_GROUP_SIM videoStartIndex in
  let otherStartIndex := lastIndexOf sdpStr A_SSRC_GROUP in
  if (simStartIndex =? -1) || (otherStartIndex =? -1)
     || (otherStartIndex =? simStartIndex)
  then localSdp
  else
    let simEndIndex := indexOf sdpStr CRLF simStartIndex in
    let simStr := substring sdpStr simStartIndex (simEndIndex + 2) in
    let sdpStr := replace sdpStr simStr [] in
    let otherStartIndex := lastIndexOf sdpStr A_SSRC_GROUP in
    let otherEndIndex := indexOf sdpStr CRLF otherStartIndex in
    let sdpHead := slice sdpStr 0 (Some otherEndIndex) in
    let simStrTrimmed := trim simStr in
    let sdpTail := slice sdpStr otherEndIndex None in
    mkDesc (desc_type localSdp) (sdpHead ++ CRLF ++ simStrTrimmed ++ sdpTail).

(** ** The same rewrite, line by line

    [moveSimLast] describes [_ensureSimulcastGroupIsLast] on the list of the
    lines of the description; [ensureSimulcastGroupIsLast_lines] below proves
    that the string splicing of the code computes it. *)

Definition isVideoLine : text -> bool := startsWith M_VIDEO.
Definition isGroupLine : text -> bool := startsWith A_SSRC_GROUP.
Definition isSimLine : text -> bool := startsWith A_SSRC_GROUP_SIM.

(** [includes p s]: [p] occurs somewhere in [s]. *)
Fixpoint includes (p s : text) : bool :=
  startsWith p s
  || match s with
     | [] => false
     | _ :: s' => includes p s'
     end.

Definition isLineBreak (c : ascii) : bool := Ascii.eqb c CR || Ascii.eqb c LF.

(** A text without line breaks. *)
Definition plain (p : text) : bool := forallb (fun c => negb (isLineBreak c)) p.

(** A line of a description: no line break inside it, and [m=video] and
    [a=ssrc-group] nowhere but at its start. *)
Definition wfLine (l : text) : bool :=
  plain l
  && negb (includes M_VIDEO (tl l))
  && negb (includes A_SSRC_GROUP (tl l)).

Definition wfSdp (ls : list text) : bool := forallb wfLine ls.

(** What [wfSdp] gives, line by line. *)
Record WfLines (ls : list text) : Prop := {
  wf_plain : Forall (fun l => plain l = true) ls;
  wf_video : Forall (fun l => includes M_VIDEO (tl l) = false) ls;
  wf_group : Forall (fun l => includes A_SSRC_GROUP (tl l) = false) ls;
  wf_sim : Forall (fun l => includes A_SSRC_GROUP_SIM (tl l) = false) ls
}.

(** Position in [joinLines ls] at which line [i] starts. *)
Definition lineOffset (ls : list text) (i : nat) : nat :=
  length (joinLines (firstn i ls)).

(** Index of the first element that satisfies [f]. *)
Fixpoint findIndex {A} (f : A -> bool) (l : list A) : option nat :=
  match l with
  | [] => None
  | x :: l' => if f x then Some O else option_map S (findIndex f l')
  end.

(** Index of the last element that satisfies [f]. *)
Fixpoint findLastIndex {A} (f : A -> bool) (l : list A) : option nat :=
  match l with
  | [] => None
  | x :: l' =>
      match findLastIndex f l' with
      | Some k => Some (S k)
      | None => if f x then Some O else None
      end
  end.

Definition text_eqb (a b : text) : bool :=
  if list_eq_dec ascii_dec a b then true else false.

(** Remove the first line equal to [x]. *)
Fixpoint removeFirst (x : text) (ls : list text) : list text :=
  match ls with
  | [] => []
  | l :: ls' => if text_eqb l x then ls' else l :: removeFirst x ls'
  end.

(** The first [m=video] line, or the first line when there is none. *)
Definition videoStart (ls : list text) : nat :=
  match findIndex isVideoLine ls with Some v => v | None => O end.

(** The line [_ensureSimulcastGroupIsLast] picks: the first [a=ssrc-group:SIM]
    line from [videoStart] on. *)
Definition simIndex (ls : list text) : option nat :=
  option_map (Nat.add (videoStart ls))
             (findIndex isSimLine (skipn (videoStart ls) ls)).

(** When the line it picks is not the last [a=ssrc-group] line, it takes out
    the first line with that text and puts it, without the white space at
    its ends, behind the last [a=ssrc-group] line of what is left. *)
Definition moveSimLast (ls : list text) : list text :=
  match simIndex ls, findLastIndex isGroupLine ls with
  | Some i, Some j =>
      if (j =? i)%nat then ls
      else
        let x := nth i ls [] in
        let ls1 := removeFirst x ls in
        match findLastIndex isGroupLine ls1 with
        | Some j1 => firstn (S j1) ls1 ++ trim x :: skipn (S j1) ls1
        | None => ls
        end
  | _, _ => ls
  end.

(* ===================================================================== *)
(** * JavaScript values and maps                                          *)
(* ===================================================================== *)

(** The values the modelled code passes around.  A number is an integer or
    [NaN] (the SSRCs and payload types of the code are integers). *)
Inductive JsVal :=
| JUndefined
| JNull
| JBool (b : bool)
| JNum (n : Z)
| JNaN
| JStr (s : string).

(** [typeof v === 'number'] *)
Definition isNumber (v : JsVal) : bool :=
  match v with
  | JNum _ | JNaN => true
  | _ => false
  end.

(** [a === b] *)
Definition strictEq (a b : JsVal) : bool :=
  match a, b with
  | JUndefined, JUndefined => true
  | JNull, JNull => true
  | JBool x, JBool y => Bool.eqb x y
  | JNum x, JNum y => (x =? y)%Z
  | JStr x, JStr y => String.eqb x y
  | _, _ => false
  end.

(** Decimal form of an integer, as [String(n)] gives it. *)
Definition showZ (n : Z) : string := NilZero.string_of_int (Z.to_int n).

(** [String(v)], as template literals and [join] use it. *)
Definition toString (v : JsVal) : string :=
  match v with
  | JUndefined => "undefined"
  | JNull => "null"
  | JBool true => "true"
  | JBool false => "false"
  | JNum n => showZ n
  | JNaN => "NaN"
  | JStr s => s
  end%string.

(** [s.split(' ')] *)
Fixpoint splitSpace (s : string) : list string :=
  match s with
  | EmptyString => [EmptyString]
  | String c s' =>
      if Ascii.eqb c " "%char then EmptyString :: splitSpace s'
      else match splitSpace s' with
           | w :: ws => String c w :: ws
           | [] => [String c EmptyString]
           end
  end.

(** [a.join(' ')] *)
Definition joinSpace (l : list string) : string := String.concat " " l.

Definition lowerChar (c : ascii) : ascii :=
  let n := nat_of_ascii c in
  if ((65 <=? n) && (n <=? 90))%nat then ascii_of_nat (n + 32) else c.

(** [s.toLowerCase()], for code units below 128. *)
Fixpoint toLowerCase (s : string) : string :=
  match s with
  | EmptyString => EmptyString
  | String c s' => String (lowerChar c) (toLowerCase s')
  end.

(** What a function call of the code gives: a value, or an exception. *)
Inductive Outcome (A : Type) :=
| Throw (message : string)
| Return (a : A).
Arguments Throw {A} message.
Arguments Return {A} a.

(** A JavaScript [Map]: its entries in insertion order. *)
Module JsMap.
Section Map.
Context {K V : Type} (eqb : K -> K -> bool).

Definition t := list (K * V).

Fixpoint get (m : t) (k : K) : option V :=
  match m with
  | [] => None
  | (k', v) :: m' => if eqb k' k then Some v else get m' k
  end.

Definition has (m : t) (k : K) : bool :=
  match get m k with Some _ => true | None => false end.

(** [m.set(k, v)]: an existing key keeps its place. *)
Fixpoint set (m : t) (k : K) (v : V) : t :=
  match m with
  | [] => [(k, v)]
  | (k', v') :: m' =>
      if eqb k' k then (k', v) :: m' else (k', v') :: set m' k v
  end.

Definition keys (m : t) : list K := map fst m.
Definition values (m : t) : list V := map snd m.
End Map.
Arguments t K V : clear implicits.
End JsMap.

(** What the code asks the [browser] module. *)
Record Browser := mkBrowser {
  isChrome : bool;
  isVersionGreaterThan70 : bool;
  isFirefox : bool;
  supportsSimulcast : bool;
  supportsRtx : bool;
  usesUnifiedPlan : bool
}.

(** The [options] of the peer connection that the modelled code reads. *)
Record Options := mkOptions {
  disableSimulcast : bool;
  disableRtx : bool;
  enableFirefoxSimulcast : bool;
  capScreenshareBitrate : bool;
  disableH264 : bool;
  preferH264 : bool;
  startSilent : bool
}.

(* ===================================================================== *)
(** * Parsed descriptions                                                 *)
(* ===================================================================== *)

(** The objects [sdp-transform] parses a description into, with the fields
    the code reads or writes. *)
Record RtpEntry := mkRtp {
  rtp_payload : Z;
  rtp_codec : string;
  rtp_rate : Z
}.

Record FmtpEntry := mkFmtp {
  fmtp_payload : Z;
  fmtp_config : string
}.

(** An [a=ssrc:<id> <attribute>:<value>] line. *)
Record SsrcLine := mkSsrcLine {
  ssrc_id : Z;
  ssrc_attribute : string;
  ssrc_value : string
}.

(** An [a=ssrc-group:<semantics> <ssrcs>] line. *)
Record SsrcGroup := mkSsrcGroup {
  group_semantics : string;
  group_ssrcs : string
}.

(** A media section.  [payloads] is a number when the section has one payload
    type and a string otherwise; absent attributes are [None]. *)
Record MediaLine := mkMedia {
  m_type : string;
  m_payloads : JsVal;
  m_rtp : list RtpEntry;
  m_fmtp : list FmtpEntry;
  m_direction : option string;
  m_ssrcs : option (list SsrcLine);
  m_ssrcGroups : option (list SsrcGroup);
  m_simulcast_03 : bool
}.

(** A parsed description: the session-level part, which no step touches, and
    the media sections in order. *)
Record Session := mkSession {
  s_session : text;
  s_media : list MediaLine
}.

(** A step of the rewrite pipeline is a no-op, which returns the description
    it was given, or builds a new description from the parsed form. *)
Inductive Rewrite :=
| Unchanged
| Rewritten (s : Session).

(** The parsed form after a step. *)
Definition afterStep (s : Session) (r : Rewrite) : Session :=
  match r with
  | Unchanged => s
  | Rewritten s' => s'
  end.

(** [media.find(m => m.type === kind)] *)
Definition findMedia (kind : string) (s : Session) : option MediaLine :=
  find (fun m => String.eqb (m_type m) kind) (s_media s).

(** Assignment to the media section that [findMedia] returned: the first one
    of that kind is replaced, the others stay. *)
Fixpoint updateFirst (kind : string) (f : MediaLine -> MediaLine)
         (ms : list MediaLine) : list MediaLine :=
  match ms with
  | [] => []
  | m :: ms' =>
      if String.eqb (m_type m) kind then f m :: ms'
      else m :: updateFirst kind f ms'
  end.

Definition updateMedia (kind : string) (f : MediaLine -> MediaLine)
           (s : Session) : Session :=
  mkSession (s_session s) (updateFirst kind f (s_media s)).

(* ===================================================================== *)
(** * The rewrite steps on the parsed form                                *)
(* ===================================================================== *)

(** Modelled from the spec: [SdpTransformWrap] (modules/xmpp/SdpTransformUtil)
    is not among the sources.  The spec's data model has one media section
    per media kind; [selectMedia] gives the first section of the kind, and an
    assignment to its [direction] changes that section of the parsed
    description. *)
Definition selectMedia (kind : string) (s : Session) : option MediaLine :=
  findMedia kind s.

Definition setDirection (d : string) (m : MediaLine) : MediaLine :=
  mkMedia (m_type m) (m_payloads m) (m_rtp m) (m_fmtp m) (Some d)
          (m_ssrcs m) (m_ssrcGroups m) (m_simulcast_03 m).

(** [media.direction !== d] *)
Definition directionIsNot (d : string) (m : MediaLine) : bool :=
  match m_direction m with
  | Some d' => negb (String.eqb d' d)
  | None => true
  end.

(** The body of [enforceSendRecv] between the construction of the
    [SdpTransformWrap] and the final test of [changed]. *)
Definition enforceSendRecv_parsed (options : Options) (s : Session) : Rewrite :=
  let audioMedia := selectMedia "audio" s in
  let '(s, changed) :=
    match audioMedia with
    | Some m =>
        if directionIsNot "sendrecv" m then
          (if startSilent options
           then updateMedia "audio" (setDirection "inactive") s
           else updateMedia "audio" (setDirection "sendrecv") s,
           true)
        else (s, false)
    | None => (s, false)
    end in
  let videoMedia := selectMedia "video" s in
  let '(s, changed) :=
    match videoMedia with
    | Some m =>
        if directionIsNot "sendrecv" m
        then (updateMedia "video" (setDirection "sendrecv") s, true)
        else (s, changed)
    | None => (s, changed)
    end in
  if changed then Rewritten s else Unchanged.

Definition setSsrcGroups (g : list SsrcGroup) (m : MediaLine) : MediaLine :=
  mkMedia (m_type m) (m_payloads m) (m_rtp m) (m_fmtp m) (m_direction m)
          (m_ssrcs m) (Some g) (m_simulcast_03 m).

Definition isSimGroup (g : SsrcGroup) : bool :=
  String.eqb (group_semantics g) "SIM".

(** The body of [_injectSsrcGroupForUnifiedSimulcast].  Without a video
    section, or with a simulcast attribute and no ssrc lines, the property
    access on [undefined] throws. *)
Definition _injectSsrcGroupForUnifiedSimulcast_parsed (sdp : Session)
  : Outcome Rewrite :=
  match findMedia "video" sdp with
  | None => Throw "TypeError: video is undefined"
  | Some video =>
      if m_simulcast_03 video then
        match m_ssrcs video with
        | None => Throw "TypeError: video.ssrcs is undefined"
        | Some lines =>
            let ssrcs :=
              map ssrc_id
                  (filter (fun l => String.eqb (ssrc_attribute l) "msid") lines) in
            let ssrcGroups :=
              match m_ssrcGroups video with Some g => g | None => [] end in
            if existsb isSimGroup ssrcGroups then Return Unchanged
            else
              Return (Rewritten
                (updateMedia "video"
                   (setSsrcGroups
                      (ssrcGroups
                       ++ [mkSsrcGroup "SIM" (joinSpace (map showZ ssrcs))]))
                   sdp))
        end
      else Return (Rewritten sdp)
  end.

(** [a.includes(x)] compares with SameValueZero. *)
Definition sameValueZero (a b : JsVal) : bool :=
  match a, b with
  | JNaN, JNaN => true
  | _, _ => strictEq a b
  end.

Definition arrayIncludes (a : list JsVal) (x : JsVal) : bool :=
  existsb (fun y => sameValueZero y x) a.

(** The loop [for (let i = 127; i >= 96; i--)] of [_injectH264IfNotPresent],
    entered with [i = 96 + n]: the first [i] that [payloadsArray] does not
    include. *)
Fixpoint findDummyPayloadType (n : nat) (payloadsArray : list JsVal) : option Z :=
  let i := 96 + Z.of_nat n in
  if negb (arrayIncludes payloadsArray (JNum i)) then Some i
  else match n with
       | O => None
       | S n' => findDummyPayloadType n' payloadsArray
       end.

Definition isH264 (rtp : RtpEntry) : bool :=
  String.eqb (toLowerCase (rtp_codec rtp)) "h264".

Definition H264_FMTP_CONFIG : string :=
  "level-asymmetry-allowed=1;packetization-mode=1;profile-level-id=42e01f".

Definition addH264 (payloads : string) (dummyPayloadType : Z) (m : MediaLine)
  : MediaLine :=
  mkMedia (m_type m) (JStr payloads)
          (m_rtp m ++ [mkRtp dummyPayloadType "H264" 90000])
          (m_fmtp m ++ [mkFmtp dummyPayloadType H264_FMTP_CONFIG])
          (m_direction m) (m_ssrcs m) (m_ssrcGroups m) (m_simulcast_03 m).

(** The body of [_injectH264IfNotPresent].  For a video section without
    H264 and without payloads, the call of [toString] on [undefined] or
    [null] throws. *)
Definition _injectH264IfNotPresent_parsed (parsedSdp : Session)
  : Outcome Rewrite :=
  match findMedia "video" parsedSdp with
  | None => Return Unchanged
  | Some videoMLine =>
      if existsb isH264 (m_rtp videoMLine) then Return Unchanged
      else
        match m_payloads videoMLine with
        | JUndefined => Throw "TypeError: payloads is undefined"
        | JNull => Throw "TypeError: payloads is null"
        | payloads =>
            let payloadsArray := map JStr (splitSpace (toString payloads)) in
            match findDummyPayloadType 31 payloadsArray with
            | None => Return Unchanged
            | Some dummyPayloadType =>
                let payloadsArray := payloadsArray ++ [JNum dummyPayloadType] in
                Return
                  (Rewritten
                     (updateMedia "video"
                        (addH264 (joinSpace (map toString payloadsArray))
                                 dummyPayloadType)
                        parsedSdp))
            end
        end
  end.

Definition setValue (v : string) (l : SsrcLine) : SsrcLine :=
  mkSsrcLine (ssrc_id l) (ssrc_attribute l) v.

(** One round of the [forEach] of [replaceDefaultUnifiedPlanMsid]. *)
Definition dropDefaultMsid (filteredLines : list SsrcLine) (ssrcId : Z)
  : Outcome (list SsrcLine) :=
  match find (fun line => (ssrc_id line =? ssrcId)
                          && String.eqb (ssrc_attribute line) "cname")
             filteredLines with
  | None => Throw "TypeError: cnameLine is undefined"
  | Some cnameLine =>
      let cnameLine := setValue ("recvonly-" ++ showZ ssrcId) cnameLine in
      Return (filter (fun line => negb (ssrc_id line =? ssrcId)) filteredLines
              ++ [cnameLine])
  end.

Fixpoint forEachSsrcId (ids : list Z) (filteredLines : list SsrcLine)
  : Outcome (list SsrcLine) :=
  match ids with
  | [] => Return filteredLines
  | ssrcId :: ids' =>
      match dropDefaultMsid filteredLines ssrcId with
      | Throw e => Throw e
      | Return filteredLines => forEachSsrcId ids' filteredLines
      end
  end.

Definition isDefaultMslabel (l : SsrcLine) : bool :=
  String.eqb (ssrc_attribute l) "mslabel" && String.eqb (ssrc_value l) "-".

(** [replaceDefaultUnifiedPlanMsid] *)
Definition replaceDefaultUnifiedPlanMsid (browser : Browser)
           (ssrcLines : list SsrcLine) : Outcome (list SsrcLine) :=
  if negb (isChrome browser) || negb (isVersionGreaterThan70 browser)
  then Return ssrcLines
  else
    let problematicSsrcIds := map ssrc_id (filter isDefaultMslabel ssrcLines) in
    forEachSsrcId problematicSsrcIds ssrcLines.

(* ===================================================================== *)
(** * The rewrite steps on descriptions                                   *)
(* ===================================================================== *)

Section Codec.

(** [transform.parse] and [transform.write] of [sdp-transform]. *)
Variable parse : text -> Session.
Variable write : Session -> text.

(** The description a step returns. *)
Definition stepResult (desc : RTCSessionDescription) (r : Rewrite)
  : RTCSessionDescription :=
  match r with
  | Unchanged => desc
  | Rewritten s => mkDesc (desc_type desc) (write s)
  end.

(** [enforceSendRecv]; [None] is a missing description. *)
Definition enforceSendRecv (localDescription : option RTCSessionDescription)
           (options : Options) : Outcome RTCSessionDescription :=
  match localDescription with
  | None => Throw "No local description passed in."
  | Some d =>
      Return (stepResult d (enforceSendRecv_parsed options (parse (desc_sdp d))))
  end.

(** [_injectSsrcGroupForUnifiedSimulcast] *)
Definition _injectSsrcGroupForUnifiedSimulcast (desc : RTCSessionDescription)
  : Outcome RTCSessionDescription :=
  match _injectSsrcGroupForUnifiedSimulcast_parsed (parse (desc_sdp desc)) with
  | Throw e => Throw e
  | Return r => Return (stepResult desc r)
  end.

(** [_injectH264IfNotPresent] *)
Definition _injectH264IfNotPresent (description : RTCSessionDescription)
  : Outcome RTCSessionDescription :=
  match _injectH264IfNotPresent_parsed (parse (desc_sdp description)) with
  | Throw e => Throw e
  | Return r => Return (stepResult description r)
  end.

End Codec.

(* ===================================================================== *)
(** * The peer connection                                                 *)
(* ===================================================================== *)

(** Modelled from the spec: [MediaType] (service/RTC/MediaType) is not among
    the sources; the media kinds of the spec are audio and video, and
    [MediaType.AUDIO] and [MediaType.VIDEO] are their names. *)
Definition AUDIO : string := "audio".
Definition VIDEO : string := "video".

(** A [JitsiLocalTrack], as far as the peer connection looks at it: its
    [rtcId], what [getType()] gives, its [videoType] and its [storedMSID]. *)
Record JitsiLocalTrack := mkLocalTrack {
  rtcId : Z;
  lt_type : string;
  lt_videoType : option string;
  storedMSID : string
}.

(** Modelled from the spec: [JitsiRemoteTrack] (modules/RTC/JitsiRemoteTrack)
    is not among the sources.  A remote track entry holds what it is resolved
    from: the owning endpoint, the stream and track handles, the media kind,
    the video subtype, the SSRC and the mute state; [getTrack()] and
    [getSSRC()] give the track handle and the SSRC back.  [rt_stream] and
    [rt_track] name the WebRTC objects; two tracks are the same object when
    their names are equal. *)
Record JitsiRemoteTrack := mkRemoteTrack {
  rt_ownerEndpointId : string;
  rt_stream : nat;
  rt_track : nat;
  rt_mediaType : string;
  rt_videoType : option string;
  rt_ssrc : Z;
  rt_muted : bool;
  rt_isP2P : bool
}.

(** [TPCGroupInfo] *)
Record TPCGroupInfo := mkGroupInfo {
  gi_ssrcs : list Z;
  gi_semantics : string
}.

(** [TPCSSRCInfo] *)
Record TPCSSRCInfo := mkSSRCInfo {
  si_ssrcs : list Z;
  si_groups : list TPCGroupInfo;
  si_msid : option string
}.

(** What the peer connection emits on [eventEmitter]. *)
Inductive RTCEvent :=
| REMOTE_TRACK_ADDED (remoteTrack : JitsiRemoteTrack)
| LOCAL_UFRAG_CHANGED (ufrag : JsVal)
| SET_LOCAL_DESCRIPTION_FAILED (err : string).

(** What it hands to the logger: the level and what the message is about. *)
Inductive LogLevel := LogDebug | LogInfo | LogWarn | LogError.

Record LogEntry := mkLog {
  log_level : LogLevel;
  log_message : string
}.

(** The fields of a [TraceableUnifiedPlanPeerConnection] that the modelled
    methods use, followed by what the instance has sent out so far: the
    events emitted, the log, and the number of SSRCs that
    [SDPUtil.generateSsrc] has handed out. *)
Record TPC := mkTPC {
  options : Options;
  isP2P : bool;
  audioTransferActive : bool;
  videoTransferActive : bool;
  remoteTracks : JsMap.t string (JsMap.t string JitsiRemoteTrack);
  localTracks : JsMap.t Z JitsiLocalTrack;
  localSSRCs : JsMap.t Z TPCSSRCInfo;
  localUfrag : JsVal;
  updateLog : list (string * text);
  emitted : list RTCEvent;
  logged : list LogEntry;
  ssrcsGenerated : nat
}.

Definition setRemoteTracks (m : JsMap.t string (JsMap.t string JitsiRemoteTrack))
           (t : TPC) : TPC :=
  mkTPC (options t) (isP2P t) (audioTransferActive t) (videoTransferActive t)
        m (localTracks t) (localSSRCs t) (localUfrag t) (updateLog t)
        (emitted t) (logged t) (ssrcsGenerated t).

Definition setLocalSSRCs (m : JsMap.t Z TPCSSRCInfo) (n : nat) (t : TPC) : TPC :=
  mkTPC (options t) (isP2P t) (audioTransferActive t) (videoTransferActive t)
        (remoteTracks t) (localTracks t) m (localUfrag t) (updateLog t)
        (emitted t) (logged t) n.

Definition setLocalUfrag (u : JsVal) (t : TPC) : TPC :=
  mkTPC (options t) (isP2P t) (audioTransferActive t) (videoTransferActive t)
        (remoteTracks t) (localTracks t) (localSSRCs t) u (updateLog t)
        (emitted t) (logged t) (ssrcsGenerated t).

(** [this.eventEmitter.emit(e)] *)
Definition emit (e : RTCEvent) (t : TPC) : TPC :=
  mkTPC (options t) (isP2P t) (audioTransferActive t) (videoTransferActive t)
        (remoteTracks t) (localTracks t) (localSSRCs t) (localUfrag t)
        (updateLog t) (emitted t ++ [e]) (logged t) (ssrcsGenerated t).

(** [logger.<level>(message)] *)
Definition log (l : LogLevel) (message : string) (t : TPC) : TPC :=
  mkTPC (options t) (isP2P t) (audioTransferActive t) (videoTransferActive t)
        (remoteTracks t) (localTracks t) (localSSRCs t) (localUfrag t)
        (updateLog t) (emitted t) (logged t ++ [mkLog l message])
        (ssrcsGenerated t).

(** [this.trace(what, info)]: a debug line and an entry of [updateLog]; the
    time stamp of the entry is left out. *)
Definition trace (what : string) (info : text) (t : TPC) : TPC :=
  mkTPC (options t) (isP2P t) (audioTransferActive t) (videoTransferActive t)
        (remoteTracks t) (localTracks t) (localSSRCs t) (localUfrag t)
        (updateLog t ++ [(what, info)]) (emitted t)
        (logged t ++ [mkLog LogDebug what]) (ssrcsGenerated t).

(** A string argument is truthy when it is given and not empty. *)
Definition truthy (s : option string) : bool :=
  match s with
  | Some s' => negb (String.eqb s' EmptyString)
  | None => false
  end.

(** [getRemoteTracks(endpointId, mediaType)] *)
Definition getRemoteTracks (t : TPC) (endpointId mediaType : option string)
  : list JitsiRemoteTrack :=
  let endpoints :=
    match endpointId with
    | Some e => if truthy endpointId then [e] else JsMap.keys (remoteTracks t)
    | None => JsMap.keys (remoteTracks t)
    end in
  flat_map
    (fun endpoint =>
       match JsMap.get String.eqb (remoteTracks t) endpoint with
       | None => []
       | Some endpointTrackMap =>
           flat_map
             (fun trackMediaType =>
                if negb (truthy mediaType)
                   || match mediaType with
                      | Some k => String.eqb k trackMediaType
                      | None => false
                      end
                then match JsMap.get String.eqb endpointTrackMap trackMediaType with
                     | Some mediaTrack => [mediaTrack]
                     | None => []
                     end
                else [])
             (JsMap.keys endpointTrackMap)
       end)
    endpoints.

(** [getLocalTracks(mediaType)] *)
Definition getLocalTracks (t : TPC) (mediaType : option string)
  : list JitsiLocalTrack :=
  let tracks := JsMap.values (localTracks t) in
  match mediaType with
  | Some k => filter (fun track => String.eqb (lt_type track) k) tracks
  | None => tracks
  end.

(** [_getSSRC(rtcId)] *)
Definition _getSSRC (t : TPC) (id : Z) : option TPCSSRCInfo :=
  JsMap.get Z.eqb (localSSRCs t) id.

(** [getLocalSSRC(localTrack)]: [ssrcInfo && ssrcInfo.ssrcs[0]] *)
Definition getLocalSSRC (t : TPC) (localTrack : JitsiLocalTrack) : JsVal :=
  match _getSSRC t (rtcId localTrack) with
  | None => JUndefined
  | Some ssrcInfo =>
      match si_ssrcs ssrcInfo with
      | s :: _ => JNum s
      | [] => JUndefined
      end
  end.

(** What [getTrackBySSRC] returns. *)
Inductive TrackResult :=
| LocalTrack (t : JitsiLocalTrack)
| RemoteTrack (t : JitsiRemoteTrack)
| NoTrack
| UndefinedTrack.

(** [getTrackBySSRC(ssrc)]; [NoTrack] is [null].  The code has no path that
    gives [UndefinedTrack]. *)
Definition getTrackBySSRC (t : TPC) (ssrc : JsVal) : Outcome TrackResult :=
  if negb (isNumber ssrc)
  then Throw ("SSRC " ++ toString ssrc ++ " is not a number")
  else
    match find (fun localTrack => strictEq (getLocalSSRC t localTrack) ssrc)
               (JsMap.values (localTracks t)) with
    | Some localTrack => Return (LocalTrack localTrack)
    | None =>
        match find (fun remoteTrack => strictEq (JNum (rt_ssrc remoteTrack)) ssrc)
                   (getRemoteTracks t None None) with
        | Some remoteTrack => Return (RemoteTrack remoteTrack)
        | None => Return NoTrack
        end
    end.

(** [_createRemoteTrack(ownerEndpointId, stream, track, mediaType, videoType,
    ssrc, muted)] *)
Definition _createRemoteTrack (t : TPC) (ownerEndpointId : string)
           (stream track : nat) (mediaType : string)
           (videoType : option string) (ssrc : Z) (muted : bool) : TPC :=
  let '(t, remoteTracksMap) :=
    match JsMap.get String.eqb (remoteTracks t) ownerEndpointId with
    | Some m => (t, m)
    | None =>
        (setRemoteTracks
           (JsMap.set String.eqb (remoteTracks t) ownerEndpointId []) t, [])
    end in
  let existingTrack := JsMap.get String.eqb remoteTracksMap mediaType in
  let create (t : TPC) : TPC :=
    let remoteTrack :=
      mkRemoteTrack ownerEndpointId stream track mediaType videoType ssrc
                    muted (isP2P t) in
    let remoteTracksMap :=
      JsMap.set String.eqb remoteTracksMap mediaType remoteTrack in
    emit (REMOTE_TRACK_ADDED remoteTrack)
         (setRemoteTracks
            (JsMap.set String.eqb (remoteTracks t) ownerEndpointId remoteTracksMap)
            t) in
  match existingTrack with
  | Some existing =>
      if (rt_track existing =? track)%nat
      then log LogInfo "ignored duplicated remote track added event" t
      else create (log LogError "overwriting remote track" t)
  | None => create t
  end.

(** [isSimulcastOn()] *)
Definition isSimulcastOn (browser : Browser) (t : TPC) : bool :=
  negb (disableSimulcast (options t))
  && supportsSimulcast browser
  && (negb (isFirefox browser) || enableFirefoxSimulcast (options t)).

(** [hasCameraTrack(peerConnection)] *)
Definition hasCameraTrack (t : TPC) : bool :=
  existsb (fun track =>
             match lt_videoType track with
             | Some v => String.eqb v "camera"
             | None => false
             end)
          (getLocalTracks t None).

Definition SIMULCAST_LAYERS : nat := 3.

Section GenerateSsrc.

(** [SDPUtil.generateSsrc()]: [generateSsrc k] is the value of call number
    [k], counted from 0 over the life of the peer connection. *)
Variable generateSsrc : nat -> Z.

(** [n] calls, starting with call number [k]. *)
Fixpoint generateSsrcs (k n : nat) : list Z :=
  match n with
  | O => []
  | S n' => generateSsrc k :: generateSsrcs (S k) n'
  end.

(** The RTX loop of [generateNewStreamSSRCInfo] over the SSRCs that were on
    the list when it started. *)
Fixpoint addRtx (primaries : list Z) (k : nat) (ssrcInfo : TPCSSRCInfo)
  : TPCSSRCInfo * nat :=
  match primaries with
  | [] => (ssrcInfo, k)
  | primarySsrc :: rest =>
      let rtxSsrc := generateSsrc k in
      addRtx rest (S k)
             (mkSSRCInfo (si_ssrcs ssrcInfo ++ [rtxSsrc])
                         (si_groups ssrcInfo
                          ++ [mkGroupInfo [primarySsrc; rtxSsrc] "FID"])
                         (si_msid ssrcInfo))
  end.

(** [generateNewStreamSSRCInfo(track)] *)
Definition generateNewStreamSSRCInfo (browser : Browser) (t : TPC)
           (track : JitsiLocalTrack) : TPCSSRCInfo * TPC :=
  let id := rtcId track in
  let t :=
    match _getSSRC t id with
    | Some _ => log LogError "Will overwrite local SSRCs for track" t
    | None => t
    end in
  let k := ssrcsGenerated t in
  let '(ssrcInfo, k) :=
    if isSimulcastOn browser t
       && (negb (capScreenshareBitrate (options t))
           || (capScreenshareBitrate (options t) && hasCameraTrack t))
    then
      let ssrcs := generateSsrcs k SIMULCAST_LAYERS in
      (mkSSRCInfo ssrcs [mkGroupInfo ssrcs "SIM"] None,
       (k + SIMULCAST_LAYERS)%nat)
    else (mkSSRCInfo [generateSsrc k] [] None, S k) in
  let '(ssrcInfo, k) :=
    if negb (disableRtx (options t)) && supportsRtx browser
    then addRtx (si_ssrcs ssrcInfo) k ssrcInfo
    else (ssrcInfo, k) in
  let ssrcInfo :=
    mkSSRCInfo (si_ssrcs ssrcInfo) (si_groups ssrcInfo)
               (Some (storedMSID track)) in
  (ssrcInfo, setLocalSSRCs (JsMap.set Z.eqb (localSSRCs t) id ssrcInfo) k t).

End GenerateSsrc.

(** Sequencing of calls that may throw. *)
Definition bindO {A B} (o : Outcome A) (f : A -> Outcome B) : Outcome B :=
  match o with
  | Throw e => Throw e
  | Return a => f a
  end.

(** [s] between double quotes. *)
Definition quoted (s : string) : string :=
  String "034" (s ++ String "034" EmptyString).

(** [hasAnyTracksOfType(mediaType)] *)
Definition hasAnyTracksOfType (t : TPC) (mediaType : string) : Outcome bool :=
  if String.eqb mediaType EmptyString
  then Throw (quoted "mediaType" ++ " is required")
  else Return (negb (length (getLocalTracks t (Some mediaType)) =? 0)%nat).

(** [_getDesiredMediaDirection(mediaType)] *)
Definition _getDesiredMediaDirection (t : TPC) (mediaType : string)
  : Outcome string :=
  let mediaTransferActive :=
    if String.eqb mediaType AUDIO then audioTransferActive t
    else if String.eqb mediaType VIDEO then videoTransferActive t
    else true in
  if mediaTransferActive then
    bindO (hasAnyTracksOfType t mediaType)
          (fun any => Return (if any then "sendrecv" else "recvonly")%string)
  else Return "inactive"%string.

(** The body of [_adjustLocalMediaDirection] on the parsed description: the
    peer connection with its log, the parsed form, and [modifiedDirection]. *)
Definition _adjustLocalMediaDirection_parsed (t : TPC) (s : Session)
  : Outcome (TPC * Session * bool) :=
  bindO
    (match selectMedia "audio" s with
     | Some audioMedia =>
         bindO (_getDesiredMediaDirection t AUDIO)
               (fun desiredAudioDirection =>
                  if directionIsNot desiredAudioDirection audioMedia
                  then Return
                         (log LogInfo "Adjusted local audio direction" t,
                          updateMedia "audio"
                                      (setDirection desiredAudioDirection) s,
                          true)
                  else Return (t, s, false))
     | None =>
         Return (log LogWarn "No audio media found in the local description" t,
                 s, false)
     end)
    (fun '(t, s, modifiedDirection) =>
       match selectMedia "video" s with
       | Some videoMedia =>
           bindO (_getDesiredMediaDirection t VIDEO)
                 (fun desiredVideoDirection =>
                    if directionIsNot desiredVideoDirection videoMedia
                    then Return
                           (log LogInfo "Adjusted local video direction" t,
                            updateMedia "video"
                                        (setDirection desiredVideoDirection) s,
                            true)
                    else Return (t, s, modifiedDirection))
       | None =>
           Return (log LogWarn "No video media found in the local description" t,
                   s, modifiedDirection)
       end).

(** [dumpSDP(description)] *)
Definition dumpSDP (description : RTCSessionDescription) : text :=
  T "type: " ++ T (desc_type description) ++ CRLF ++ desc_sdp description.

(** Two states of the peer connection with the same stored fragment and the
    same events emitted. *)
Definition sameSignals (t t' : TPC) : Prop :=
  localUfrag t' = localUfrag t /\ emitted t' = emitted t.

(** How the promise of a commit to the transport settles. *)
Inductive Settled :=
| Resolved
| Rejected (err : string).

Section SetLocalDescription.

Variable browser : Browser.
Variable parse : text -> Session.
Variable write : Session -> text.

(** [SDPUtil.stripVideoCodec] and [SDPUtil.preferVideoCodec], which change
    the video section they are given. *)
Variable stripVideoCodec : MediaLine -> string -> MediaLine.
Variable preferVideoCodec : MediaLine -> string -> MediaLine.

(** [this.interop.toUnifiedPlan] *)
Variable toUnifiedPlan : RTCSessionDescription -> RTCSessionDescription.

(** [SDPUtil.getUfrag] *)
Variable getUfrag : text -> JsVal.

(** [this.peerconnection.setLocalDescription]: [None] when the transport
    takes the description, the error when it refuses it. *)
Variable peerconnection_setLocalDescription :
  RTCSessionDescription -> option string.

(** [_adjustLocalMediaDirection(localDescription)] *)
Definition _adjustLocalMediaDirection (t : TPC)
           (localDescription : RTCSessionDescription)
  : Outcome (TPC * RTCSessionDescription) :=
  bindO (_adjustLocalMediaDirection_parsed t (parse (desc_sdp localDescription)))
        (fun '(t, s, modifiedDirection) =>
           Return (t, if modifiedDirection
                      then mkDesc (desc_type localDescription) (write s)
                      else localDescription)).

(** [setLocalDescription], up to the call of the transport: the
    description that is committed. *)
Definition localDescriptionToCommit (t : TPC)
           (description : RTCSessionDescription)
  : Outcome (TPC * RTCSessionDescription) :=
  let localSdp := description in
  let t := trace "setLocalDescription::preTransform" (dumpSDP localSdp) t in
  let '(t, localSdp) :=
    if disableH264 (options t) || preferH264 (options t) then
      let parsedSdp := parse (desc_sdp localSdp) in
      let parsedSdp :=
        if disableH264 (options t)
        then updateMedia "video" (fun m => stripVideoCodec m "h264") parsedSdp
        else updateMedia "video" (fun m => preferVideoCodec m "h264") parsedSdp in
      let localSdp := mkDesc (desc_type localSdp) (write parsedSdp) in
      (trace "setLocalDescription::postTransform (H264)" (dumpSDP localSdp) t,
       localSdp)
    else (t, localSdp) in
  bindO (_adjustLocalMediaDirection t localSdp)
        (fun '(t, localSdp) =>
           let localSdp := _ensureSimulcastGroupIsLast localSdp in
           if usesUnifiedPlan browser && negb (isFirefox browser) then
             let localSdp := toUnifiedPlan localSdp in
             Return (trace "setLocalDescription::postTransform (Unified Plan)"
                           (dumpSDP localSdp) t,
                     localSdp)
           else Return (t, localSdp)).

(** The two handlers given to [then]. *)
Definition setLocalDescriptionOnSuccess (t : TPC)
           (localSdp : RTCSessionDescription) : TPC :=
  let t := trace "setLocalDescriptionOnSuccess" [] t in
  let ufrag := getUfrag (desc_sdp localSdp) in
  if negb (strictEq ufrag (localUfrag t))
  then emit (LOCAL_UFRAG_CHANGED ufrag) (setLocalUfrag ufrag t)
  else t.

Definition setLocalDescriptionOnFailure (t : TPC) (err : string) : TPC :=
  let t := trace "setLocalDescriptionOnFailure" (T err) t in
  emit (SET_LOCAL_DESCRIPTION_FAILED err) t.

(** [setLocalDescription(description)]: the peer connection once the promise
    has settled, and how it settled. *)
Definition setLocalDescription (t : TPC) (description : RTCSessionDescription)
  : Outcome (TPC * Settled) :=
  bindO (localDescriptionToCommit t description)
        (fun '(t, localSdp) =>
           match peerconnection_setLocalDescription localSdp with
           | None => Return (setLocalDescriptionOnSuccess t localSdp, Resolved)
           | Some err => Return (setLocalDescriptionOnFailure t err, Rejected err)
           end).

End SetLocalDescription.

(* ===================================================================== *)
(** * Regular expressions                                                 *)
(* ===================================================================== *)

(** The regular expressions of the SDP helpers, with the backtracking
    semantics of [RegExp]: greedy repetition, numbered capture groups, and
    [^] and [$] that stop at line breaks under the [m] flag. *)
Module Regex.

Inductive re :=
| Eps
| Lit (c : ascii)
| Dot
| Class (f : ascii -> bool)
| Seq (a b : re)
| Star (a : re)
| Group (n : nat) (a : re)
| Bol
| Eol.

(** [a+] *)
Definition Plus (a : re) : re := Seq a (Star a).

(** A text taken literally. *)
Fixpoint lit (s : text) : re :=
  match s with
  | [] => Eps
  | c :: s' => Seq (Lit c) (lit s')
  end.

Fixpoint seq (l : list re) : re :=
  match l with
  | [] => Eps
  | a :: l' => Seq a (seq l')
  end.

(** [[0-9]], a space, and [[^ ]]. *)
Definition digit : re :=
  Class (fun c => let n := nat_of_ascii c in ((48 <=? n) && (n <=? 57))%nat).
Definition space : re := Lit " ".
Definition notSpace : re := Class (fun c => negb (Ascii.eqb c " ")).

(** Where a match stands: the character before, the rest of the subject, and
    the groups captured so far. *)
Record cursor := mkCursor {
  prev : option ascii;
  rest : text;
  caps : list (nat * text)
}.

Definition atLineStart (m : bool) (c : cursor) : bool :=
  match prev c with
  | None => true
  | Some p => m && isLineBreak p
  end.

Definition atLineEnd (m : bool) (c : cursor) : bool :=
  match rest c with
  | [] => true
  | x :: _ => m && isLineBreak x
  end.

(** One character, when [ok] accepts it. *)
Definition eat (ok : ascii -> bool) (c : cursor)
           (k : cursor -> option cursor) : option cursor :=
  match rest c with
  | x :: xs => if ok x then k (mkCursor (Some x) xs (caps c)) else None
  | [] => None
  end.

(** [matcher m r c k]: match [r] at [c], then [k]; the first way that makes
    both succeed, in the order a backtracking matcher tries them.  [m] is the
    multiline flag.  A repetition gives up an iteration that consumes
    nothing, so it needs no more iterations than characters are left. *)
Fixpoint matcher (m : bool) (r : re) (c : cursor)
         (k : cursor -> option cursor) : option cursor :=
  match r with
  | Eps => k c
  | Lit a => eat (Ascii.eqb a) c k
  | Dot => eat (fun x => negb (isLineBreak x)) c k
  | Class f => eat f c k
  | Seq a b => matcher m a c (fun c' => matcher m b c' k)
  | Star a =>
      (fix star (fuel : nat) (c : cursor) {struct fuel} : option cursor :=
         match fuel with
         | O => k c
         | S fuel' =>
             match matcher m a c
                     (fun c' =>
                        if (length (rest c') <? length (rest c))%nat
                        then star fuel' c' else None) with
             | Some e => Some e
             | None => k c
             end
         end) (length (rest c)) c
  | Group n a =>
      matcher m a c
              (fun c' =>
                 k (mkCursor (prev c') (rest c')
                             ((n, firstn (length (rest c) - length (rest c'))
                                         (rest c)) :: caps c')))
  | Bol => if atLineStart m c then k c else None
  | Eol => if atLineEnd m c then k c else None
  end.

(** The value of group [n] after a match. *)
Fixpoint capture (n : nat) (l : list (nat * text)) : option text :=
  match l with
  | [] => None
  | (n', t) :: l' => if (n' =? n)%nat then Some t else capture n l'
  end.

(** [r.exec(s)]: the first position at which [r] matches; the text skipped,
    the text matched, and the cursor after the match.  [p] is the character
    before [s]. *)
Fixpoint exec (m : bool) (r : re) (p : option ascii) (s : text)
  : option (text * text * cursor) :=
  match matcher m r (mkCursor p s []) Some with
  | Some e => Some ([], firstn (length s - length (rest e)) s, e)
  | None =>
      match s with
      | [] => None
      | x :: s' =>
          match exec m r (Some x) s' with
          | Some (before, matched, e) => Some (x :: before, matched, e)
          | None => None
          end
      end
  end.

(** [r.test(s)] for a regular expression that was just built. *)
Definition test (m : bool) (r : re) (s : text) : bool :=
  match exec m r None s with Some _ => true | None => false end.

(** [s.match(r)] with the [g] flag: the texts matched, or none. *)
Fixpoint matchAllFrom (fuel : nat) (m : bool) (r : re) (p : option ascii)
         (s : text) : list text :=
  match fuel with
  | O => []
  | S fuel' =>
      match exec m r p s with
      | None => []
      | Some (_, matched, e) =>
          matched ::
          match matched, rest e with
          | [], x :: xs => matchAllFrom fuel' m r (Some x) xs
          | [], [] => []
          | _ :: _, _ => matchAllFrom fuel' m r (prev e) (rest e)
          end
      end
  end.

Definition matchAll (m : bool) (r : re) (s : text) : list text :=
  matchAllFrom (S (length s)) m r None s.

(** [s.replace(r, ...)] with the [g] flag; [subst] builds the replacement
    from the captured groups. *)
Fixpoint replaceAllFrom (fuel : nat) (m : bool) (r : re)
         (subst : list (nat * text) -> text) (p : option ascii) (s : text)
  : text :=
  match fuel with
  | O => s
  | S fuel' =>
      match exec m r p s with
      | None => s
      | Some (before, matched, e) =>
          before ++ subst (caps e) ++
          match matched, rest e with
          | [], x :: xs => x :: replaceAllFrom fuel' m r subst (Some x) xs
          | [], [] => []
          | _ :: _, _ => replaceAllFrom fuel' m r subst (prev e) (rest e)
          end
      end
  end.

Definition replaceAll (m : bool) (r : re) (subst : list (nat * text) -> text)
           (s : text) : text :=
  replaceAllFrom (S (length s)) m r subst None s.

End Regex.

(* ===================================================================== *)
(** * Track ids and SSRCs of a description                                *)
(* ===================================================================== *)

(** A [Set] of strings: its elements in insertion order. *)
Definition setAdd (s : list text) (x : text) : list text :=
  if existsb (text_eqb x) s then s else s ++ [x].

Definition setOf (l : list text) : list text := fold_left setAdd l [].

(** The [Map] from track ids to SSRCs. *)
Definition TrackIdsToSSRCs := JsMap.t text (list text).

(** [s.split(sep)] for a separator that is not empty; [skip] counts the
    characters of a separator that are still to be passed. *)
Fixpoint splitOn (sep s : text) (skip : nat) (cur : text) : list text :=
  match s with
  | [] => [rev cur]
  | c :: s' =>
      match skip with
      | S k => splitOn sep s' k cur
      | O =>
          if startsWith sep s
          then rev cur :: splitOn sep s' (length sep - 1) []
          else splitOn sep s' O (c :: cur)
      end
  end.

Definition split (s sep : text) : list text := splitOn sep s O [].

(** [a.join(sep)] *)
Fixpoint join (sep : text) (l : list text) : text :=
  match l with
  | [] => []
  | [x] => x
  | x :: l' => x ++ sep ++ join sep l'
  end.

(** [getMatches(pattern, lines)]: the first group of every match.  The
    patterns of the code always capture their first group. *)
Definition getMatches (pattern : Regex.re) (lines : text) : list text :=
  let matches := Regex.matchAll true pattern lines in
  fold_left
    (fun results line =>
       match Regex.exec false pattern None line with
       | Some (_, _, e) =>
           match Regex.capture 1 (Regex.caps e) with
           | Some g => setAdd results g
           | None => results
           end
       | None => results
       end)
    matches [].

Import Regex.

(** ['^a=ssrc:[0-9]+ +msid:.+ +(.+) *$'] *)
Definition planBTrackIdPattern : re :=
  seq [Bol; lit (T "a=ssrc:"); Plus digit; Plus space; lit (T "msid:");
       Plus Dot; Plus space; Group 1 (Plus Dot); Star space; Eol].

(** ['^a=msid:.+ +(.+) *$'] *)
Definition unifiedPlanTrackIdPattern : re :=
  seq [Bol; lit (T "a=msid:"); Plus Dot; Plus space; Group 1 (Plus Dot);
       Star space; Eol].

Definition getTrackIds (pattern : re) (sdp : text) : list text :=
  getMatches pattern sdp.

Definition getPlanBTrackIds (sdp : text) : list text :=
  getTrackIds planBTrackIdPattern sdp.

Definition getUnifiedPlanTrackIds (sdp : text) : list text :=
  getTrackIds unifiedPlanTrackIdPattern sdp.

(** The characters that are special in the source of a [RegExp].  A string
    without them stands for itself when it is spliced into a source. *)
Definition isSyntaxCharacter (c : ascii) : bool :=
  existsb (Ascii.eqb c) (T "^$\.*+?()[]{}|").

Definition literally (s : text) : bool :=
  forallb (fun c => negb (isSyntaxCharacter c)) s.

(** A replacement without [$] is taken as it is by [replace]. *)
Definition plainReplacement (r : text) : bool :=
  forallb (fun c => negb (Ascii.eqb c "$")) r.

(** [getMediaSections(sdp)], with both patterns left at ['.*']. *)
Definition getMediaSections (sdp : text) : list text :=
  filter
    (fun mediaSection =>
       test true (seq [lit (T "m="); Star Dot]) mediaSection
       && test true (seq [lit (T "a="); Star Dot]) mediaSection)
    (map (fun mediaSection => T "m=" ++ mediaSection)
         (tl (split sdp (CRLF ++ T "m=")))).

(** [getMediaSectionSSRCs(mediaSection)], pattern ['^a=ssrc:([0-9]+) +.*$'] *)
Definition getMediaSectionSSRCs (mediaSection : text) : list text :=
  getMatches
    (seq [Bol; lit (T "a=ssrc:"); Group 1 (Plus digit); Plus space; Star Dot; Eol])
    mediaSection.

(** What [updateTrackIdsToSSRCs] has when it returns: the value of its local
    variable [newSdp], and the value it returns. *)
Record Updated := mkUpdated {
  upd_newSdp : text;
  upd_returned : text
}.

Definition optText_eqb (a b : option text) : bool :=
  match a, b with
  | Some x, Some y => text_eqb x y
  | None, None => true
  | _, _ => false
  end.

(** The text of a string that may be [undefined], as a template literal
    gives it. *)
Definition showOpt (v : option text) : text :=
  match v with
  | Some s => s
  | None => T "undefined"
  end.

(** The pattern of an ssrc-group line: group 1 is [a=ssrc-group:], the
    semantics and the spaces after it; group 2 is the rest of the line. *)
Definition ssrcGroupPattern : re :=
  seq [Bol; Group 1 (seq [lit (T "a=ssrc-group:"); Plus notSpace; Plus space]);
       Group 2 (Star Dot); Eol].

Section SplicedPatterns.

(** The code splices track ids and SSRCs into the sources of its patterns
    and into its replacements.  Where such a string has a character that is
    special there, the pattern or the replacement is another one than the one
    that takes the string as it is, and [new RegExp] may throw a SyntaxError.
    What the calls give then is left to these four:
    [getMatches(pattern, lines)];
    [new RegExp(pattern, 'gm')], as the strings [s] for which
    [s.match(regexp)] finds a match;
    [subject.replace(new RegExp(pattern, 'gm'), replacement)], in the order
    pattern, replacement, subject;
    and [s.replace(p, r)] for strings [s], [p] and [r]. *)
Variable getMatchesOf : text -> text -> Outcome (list text).
Variable matchesOf : text -> Outcome (text -> bool).
Variable replaceByRegExp : text -> text -> text -> Outcome text.
Variable replaceByString : text -> text -> text -> text.

(** [getPlanBSSRCs(sdp, trackId)], pattern
    ['^a=ssrc:([0-9]+) +msid:[^ ]+ +' + trackId + ' *$'] *)
Definition getPlanBSSRCs (sdp trackId : text) : Outcome (list text) :=
  if literally trackId
  then Return
         (getMatches
            (seq [Bol; lit (T "a=ssrc:"); Group 1 (Plus digit); Plus space;
                  lit (T "msid:"); Plus notSpace; Plus space; lit trackId;
                  Star space; Eol])
            sdp)
  else getMatchesOf (T "^a=ssrc:([0-9]+) +msid:[^ ]+ +" ++ trackId ++ T " *$")
                    sdp.

(** [getUnifiedPlanSSRCs(sdp, trackId)], pattern
    ['^a=msid:[^ ]+ +' + trackId + ' *$'] *)
Definition getUnifiedPlanSSRCs (sdp trackId : text) : Outcome (list text) :=
  let mediaSections := getMediaSections sdp in
  bindO
    (if literally trackId
     then Return
            (test true
                  (seq [Bol; lit (T "a=msid:"); Plus notSpace; Plus space;
                        lit trackId; Star space; Eol]))
     else matchesOf (T "^a=msid:[^ ]+ +" ++ trackId ++ T " *$"))
    (fun msidAttrRegExp =>
       let matchingMediaSections := filter msidAttrRegExp mediaSections in
       Return (setOf (flat_map getMediaSectionSSRCs matchingMediaSections))).

(** [getTrackIdsToSSRCs(getTrackIds, getSSRCs, sdp)] *)
Definition getTrackIdsToSSRCs (getTrackIdsFk : text -> list text)
           (getSSRCs : text -> text -> Outcome (list text)) (sdp : text)
  : Outcome TrackIdsToSSRCs :=
  fold_left
    (fun entries trackId =>
       bindO entries
             (fun m =>
                bindO (getSSRCs sdp trackId)
                      (fun ssrcs => Return (JsMap.set text_eqb m trackId ssrcs))))
    (getTrackIdsFk sdp) (Return []).

Definition getPlanBTrackIdsToSSRCs (sdp : text) : Outcome TrackIdsToSSRCs :=
  getTrackIdsToSSRCs getPlanBTrackIds getPlanBSSRCs sdp.

Definition getUnifiedPlanTrackIdsToSSRCs (sdp : text)
  : Outcome TrackIdsToSSRCs :=
  getTrackIdsToSSRCs getUnifiedPlanTrackIds getUnifiedPlanSSRCs sdp.

(** The inner [oldSSRCs.forEach((oldSSRC, i) => ...)], from index [i] on.
    Every round assigns to [newSdp] a copy of [sdp], the argument of the
    function, in which the lines of [newSSRC] carry [oldSSRC]. *)
Fixpoint forEachOldSSRC (sdp : text) (oldSSRCs newSSRCs : list text) (i : nat)
         (newSSRCsToOldSSRCs : JsMap.t (option text) text) (newSdp : text)
  : Outcome (JsMap.t (option text) text * text) :=
  match oldSSRCs with
  | [] => Return (newSSRCsToOldSSRCs, newSdp)
  | oldSSRC :: oldSSRCs' =>
      let newSSRC := nth_error newSSRCs i in
      let newSSRCsToOldSSRCs :=
        JsMap.set optText_eqb newSSRCsToOldSSRCs newSSRC oldSSRC in
      bindO
        (if literally (showOpt newSSRC) && plainReplacement oldSSRC
         then
           (* the lines [a=ssrc:<newSSRC> <rest>], with <rest> as group 1 *)
           let pattern :=
             seq [Bol; lit (T "a=ssrc:"); lit (showOpt newSSRC); Lit " ";
                  Group 1 (Star Dot); Eol] in
           let replacement caps :=
             T "a=ssrc:" ++ oldSSRC ++ T " "
               ++ match capture 1 caps with Some g => g | None => [] end in
           Return (replaceAll true pattern replacement sdp)
         else
           replaceByRegExp (T "^a=ssrc:" ++ showOpt newSSRC ++ T " (.*)$")
                           (T "a=ssrc:" ++ oldSSRC ++ T " $1") sdp)
        (fun newSdp =>
           forEachOldSSRC sdp oldSSRCs' newSSRCs (S i) newSSRCsToOldSSRCs newSdp)
  end.

(** One round of [newTrackIdsToSSRCs.forEach((ssrcs, trackId) => ...)]: the
    cache, which is updated in place, and, unless the loop was left by an
    error, [newSSRCsToOldSSRCs] and [newSdp]. *)
Definition forEachNewTrackId (sdp : text)
           (state : TrackIdsToSSRCs
                    * Outcome (JsMap.t (option text) text * text))
           (entry : text * list text)
  : TrackIdsToSSRCs * Outcome (JsMap.t (option text) text * text) :=
  let '(trackIdsToSSRCs, progress) := state in
  let '(trackId, ssrcs) := entry in
  match progress with
  | Throw _ => state
  | Return (newSSRCsToOldSSRCs, newSdp) =>
      match JsMap.get text_eqb trackIdsToSSRCs trackId with
      | None => (JsMap.set text_eqb trackIdsToSSRCs trackId ssrcs, progress)
      | Some oldSSRCs =>
          (trackIdsToSSRCs,
           forEachOldSSRC sdp oldSSRCs ssrcs O newSSRCsToOldSSRCs newSdp)
      end
  end.

(** The loop over the ssrc-group lines of [newSdp]. *)
Definition forEachGroupLine
           (newSSRCsToOldSSRCs : JsMap.t (option text) text) (newSdp : text)
  : text :=
  let matches := matchAll true ssrcGroupPattern newSdp in
  fold_left
    (fun newSdp line =>
       match exec false ssrcGroupPattern None line with
       | None => newSdp
       | Some (_, match0, e) =>
           let prefix :=
             match capture 1 (caps e) with Some g => g | None => [] end in
           let newSSRCs :=
             match capture 2 (caps e) with Some g => g | None => [] end in
           let oldSSRCs :=
             join (T " ")
                  (map (fun newSSRC =>
                          match JsMap.get optText_eqb newSSRCsToOldSSRCs
                                          (Some newSSRC) with
                          | Some ((_ :: _) as oldSSRC) => oldSSRC
                          | _ => newSSRC
                          end)
                       (split newSSRCs (T " "))) in
           if plainReplacement (prefix ++ oldSSRCs)
           then replace newSdp match0 (prefix ++ oldSSRCs)
           else replaceByString newSdp match0 (prefix ++ oldSSRCs)
       end)
    matches newSdp.

(** [updateTrackIdsToSSRCs(getTrackIdsToSSRCs, trackIdsToSSRCs, sdp)]: the
    cache as the call leaves it, and what the call returns. *)
Definition updateTrackIdsToSSRCs
           (getTrackIdsToSSRCsFk : text -> Outcome TrackIdsToSSRCs)
           (trackIdsToSSRCs : TrackIdsToSSRCs) (sdp : text)
  : TrackIdsToSSRCs * Outcome Updated :=
  match getTrackIdsToSSRCsFk sdp with
  | Throw e => (trackIdsToSSRCs, Throw e)
  | Return newTrackIdsToSSRCs =>
      (* First, update a=ssrc attributes. *)
      let '(trackIdsToSSRCs, progress) :=
        fold_left (forEachNewTrackId sdp) newTrackIdsToSSRCs
                  (trackIdsToSSRCs, Return ([], sdp)) in
      (trackIdsToSSRCs,
       bindO progress
             (fun '(newSSRCsToOldSSRCs, newSdp) =>
                (* Then, update a=ssrc-group attributes. *)
                let newSdp := forEachGroupLine newSSRCsToOldSSRCs newSdp in
                Return (mkUpdated newSdp sdp)))
  end.

(** [updatePlanBTrackIdsToSSRCs(trackIdsToSSRCs, sdp)] *)
Definition updatePlanBTrackIdsToSSRCs (trackIdsToSSRCs : TrackIdsToSSRCs)
           (sdp : text) : TrackIdsToSSRCs * Outcome Updated :=
  updateTrackIdsToSSRCs getPlanBTrackIdsToSSRCs trackIdsToSSRCs sdp.

(** [updateUnifiedPlanTrackIdsToSSRCs(trackIdsToSSRCs, sdp)] *)
Definition updateUnifiedPlanTrackIdsToSSRCs (trackIdsToSSRCs : TrackIdsToSSRCs)
           (sdp : text) : TrackIdsToSSRCs * Outcome Updated :=
  updateTrackIdsToSSRCs getUnifiedPlanTrackIdsToSSRCs trackIdsToSSRCs sdp.

End SplicedPatterns.

(* ===================================================================== *)
(** * Notions used in the statements                                      *)
(* ===================================================================== *)

(** An update of a media section that leaves its kind alone. *)
Definition keepsType (f : MediaLine -> MediaLine) : Prop :=
  forall m, m_type (f m) = m_type m.

(** What [enforceSendRecv] makes of an audio and of a video section. *)
Definition enforcedAudio (options : Options) (m : MediaLine) : MediaLine :=
  if directionIsNot "sendrecv" m
  then setDirection (if startSilent options then "inactive" else "sendrecv") m
  else m.

Definition enforcedVideo (m : MediaLine) : MediaLine :=
  if directionIsNot "sendrecv" m then setDirection "sendrecv" m else m.

(** A line that opens a media section. *)
Definition isMediaLine : text -> bool := startsWith (T "m=").

(** A description cut at its first video section: no [m=video] line in
    [head], the section is [v] and the lines of [body], none of which opens
    a media section, and [rest] is empty or opens the next section. *)
Definition isVideoSection (head : list text) (v : text) (body rest : list text)
  : Prop :=
  Forall (fun l => isVideoLine l = false) head
  /\ isVideoLine v = true
  /\ Forall (fun l => isMediaLine l = false) body
  /\ match rest with
     | [] => True
     | l :: _ => isMediaLine l = true
     end.

(** The remote track stored for an endpoint and a media kind. *)
Definition remoteTrackAt (m : JsMap.t string (JsMap.t string JitsiRemoteTrack))
           (endpoint kind : string) : option JitsiRemoteTrack :=
  match JsMap.get String.eqb m endpoint with
  | Some inner => JsMap.get String.eqb inner kind
  | None => None
  end.


(** A [Map] has one entry per key, and so has every [Map] stored in it. *)
Definition wfRemoteTracks (m : JsMap.t string (JsMap.t string JitsiRemoteTrack))
  : Prop :=
  NoDup (JsMap.keys m)
  /\ Forall (fun '(_, inner) => NoDup (JsMap.keys (V := JitsiRemoteTrack) inner)) m.

(** The SSRCs whose [mslabel] is the default one of Unified Plan. *)
Definition problematicSsrcIds (ssrcLines : list SsrcLine) : list Z :=
  map ssrc_id (filter isDefaultMslabel ssrcLines).

Definition memZ (x : Z) (l : list Z) : bool := existsb (Z.eqb x) l.

Definition isProblematic (ssrcLines : list SsrcLine) (l : SsrcLine) : bool :=
  memZ (ssrc_id l) (problematicSsrcIds ssrcLines).

Definition hasId (id : Z) (l : SsrcLine) : bool := ssrc_id l =? id.

Definition isCname (l : SsrcLine) : bool :=
  String.eqb (ssrc_attribute l) "cname".

(** The first [cname] line of an SSRC. *)
Definition cnameLineOf (ssrcLines : list SsrcLine) (id : Z) : option SsrcLine :=
  find (fun line => hasId id line && isCname line) ssrcLines.

(** The line that is kept for a receive-only SSRC. *)
Definition recvonlyLine (id : Z) (cnameLine : SsrcLine) : SsrcLine :=
  setValue ("recvonly-" ++ showZ id) cnameLine.

(** What the lines of an SSRC are once its round of
    [replaceDefaultUnifiedPlanMsid] is done. *)
Definition keptFor (ssrcLines : list SsrcLine) (id : Z) : list SsrcLine :=
  match cnameLineOf ssrcLines id with
  | Some c => [recvonlyLine id c]
  | None => []
  end.

(** The lines on the list after the rounds of the SSRCs in [done]. *)
Definition roundsDone (ssrcLines : list SsrcLine) (done : list Z)
           (filteredLines : list SsrcLine) : Prop :=
  (forall id, filter (hasId id) filteredLines
              = if memZ id done then keptFor ssrcLines id
                else filter (hasId id) ssrcLines)
  /\ filter (fun l => negb (isProblematic ssrcLines l)) filteredLines
     = filter (fun l => negb (isProblematic ssrcLines l)) ssrcLines.

(* ===================================================================== *)
(** * Sample inputs                                                       *)
(* ===================================================================== *)

(** A local description with a simulcast group ahead of two FID groups. *)
Definition sampleLines : list text :=
  [T "v=0"; T "m=audio 9 RTP/SAVPF 111"; T "a=sendrecv";
   T "m=video 9 RTP/SAVPF 100 96"; T "a=sendrecv";
   T "a=ssrc-group:SIM 1 2 3"; T "a=ssrc-group:FID 1 4";
   T "a=ssrc-group:FID 2 5"; T "a=ssrc:1 cname:x"].

(** A video section with a simulcast group, followed by an audio section. *)
Definition videoFirstLines : list text :=
  [T "v=0"; T "m=video 9 RTP/SAVPF 100 96"; T "a=sendrecv";
   T "a=ssrc-group:SIM 1 2 3"; T "a=ssrc-group:FID 1 4";
   T "a=ssrc-group:FID 2 5"; T "a=ssrc:1 cname:x";
   T "m=audio 9 RTP/SAVPF 111"; T "a=sendrecv"].

(** An ssrc group in the section after the video section. *)
Definition laterGroupLines : list text :=
  [T "v=0"; T "m=video 9 RTP/SAVPF 100"; T "a=ssrc-group:SIM 1 2";
   T "a=ssrc-group:FID 1 3"; T "m=audio 9 RTP/SAVPF 111";
   T "a=ssrc-group:FID 7 8"].

(** A line with the text of the simulcast line in the section before the
    video section. *)
Definition sameSimLines : list text :=
  [T "v=0"; T "m=audio 9 RTP/SAVPF 111"; T "a=ssrc-group:SIM 1 2";
   T "m=video 9 RTP/SAVPF 100"; T "a=ssrc-group:SIM 1 2";
   T "a=ssrc-group:FID 1 3"].

(** A description whose lines end with a line feed only. *)
Definition lineFeedSdp : text :=
  concat (map (fun l => l ++ [LF])
              [T "v=0"; T "m=video 9 RTP/SAVPF 100"; T "a=ssrc-group:SIM 1 2";
               T "a=ssrc-group:FID 1 3"]).

(** The text [m=video] inside a line of the section before the video
    section, with a simulcast group after it. *)
Definition midLineVideoLines : list text :=
  [T "v=0"; T "m=audio 9 RTP/SAVPF 111"; T "a=label:m=video";
   T "a=ssrc-group:SIM 7 8";
   T "m=video 9 RTP/SAVPF 100"; T "a=ssrc-group:SIM 1 2";
   T "a=ssrc-group:FID 1 3"].

(** The text [a=ssrc-group] inside a line of the section after the video
    section. *)
Definition midLineGroupLines : list text :=
  [T "v=0"; T "m=video 9 RTP/SAVPF 100"; T "a=ssrc-group:SIM 1 2";
   T "a=ssrc-group:FID 1 3"; T "m=audio 9 RTP/SAVPF 111";
   T "a=label:a=ssrc-group"].

(** Two video sections, each with a simulcast group. *)
Definition secondVideoLines : list text :=
  [T "v=0"; T "m=video 9 RTP/SAVPF 100"; T "a=ssrc-group:SIM 1 2";
   T "m=video 9 RTP/SAVPF 100"; T "a=ssrc-group:SIM 4 5";
   T "a=ssrc-group:FID 4 6"].

(** The simulcast line of the video section is its last group line, and
    [m=video] stands inside a line of the section before. *)
Definition simLastMidLineVideo : list text :=
  [T "v=0"; T "m=audio 9 RTP/SAVPF 111"; T "a=label:m=video";
   T "a=ssrc-group:SIM 7 8";
   T "m=video 9 RTP/SAVPF 100"; T "a=ssrc-group:FID 1 3";
   T "a=ssrc-group:SIM 1 2"].

(** The simulcast line is the last group line, and [a=ssrc-group] stands
    inside the line after it. *)
Definition simLastMidLineGroup : list text :=
  [T "v=0"; T "m=video 9 RTP/SAVPF 100"; T "a=ssrc-group:FID 1 3";
   T "a=ssrc-group:SIM 1 2"; T "a=label:a=ssrc-group:SIM 7 8"].

(** Two simulcast groups in the video section. *)
Definition twoSimLines : list text :=
  [T "v=0"; T "m=video 9 RTP/SAVPF 100";
   T "a=ssrc-group:SIM 1 2 3"; T "a=ssrc-group:SIM 4 5 6"].

(** A Plan B description that announces SSRC 222 for track [track1], and a
    cache in which [track1] was announced with SSRC 111. *)
Definition planBSdp : text :=
  joinLines [T "v=0"; T "m=video 9 RTP/SAVPF 100";
             T "a=ssrc:222 cname:x"; T "a=ssrc:222 msid:stream1 track1"].

(** The same in Unified Plan. *)
Definition unifiedPlanSdp : text :=
  joinLines [T "v=0"; T "m=video 9 RTP/SAVPF 100"; T "a=msid:stream1 track1";
             T "a=ssrc:222 cname:x"].

Definition cachedSSRCs : TrackIdsToSSRCs := [(T "track1", [T "111"])].

(** A remote description whose video section has payload types 96 and 127
    and no H264. *)
Definition videoSection (payloads : JsVal) (rtp : list RtpEntry)
           (direction : string) : MediaLine :=
  mkMedia "video" payloads rtp [] (Some direction) None None false.

Definition audioSection (direction : string) : MediaLine :=
  mkMedia "audio" (JNum 111) [mkRtp 111 "opus" 48000] [] (Some direction)
          None None false.

Definition sessionWith127 : Session :=
  mkSession (T "v=0")
            [audioSection "sendrecv";
             videoSection (JStr "96 127")
                          [mkRtp 96 "VP8" 90000; mkRtp 127 "red" 90000]
                          "sendrecv"].

(** A local description that only receives. *)
Definition recvonlySession : Session :=
  mkSession (T "v=0")
            [audioSection "recvonly";
             videoSection (JNum 96) [mkRtp 96 "VP8" 90000] "recvonly"].

(** The same description once it sends and receives. *)
Definition sendrecvSession : Session :=
  mkSession (T "v=0")
            [audioSection "sendrecv";
             videoSection (JNum 96) [mkRtp 96 "VP8" 90000] "sendrecv"].

(** A stand-in for the SDP model on these two descriptions: the text of a
    description is the direction of its audio section. *)
Definition directionText (s : Session) : text :=
  match selectMedia "audio" s with
  | Some m => match m_direction m with Some d => T d | None => [] end
  | None => []
  end.

Definition ofDirectionText (sdp : text) : Session :=
  if text_eqb sdp (T "sendrecv") then sendrecvSession else recvonlySession.

(** A video section with a simulcast attribute and a SIM group, and no ssrc
    lines. *)
Definition simulcastWithoutSsrcs : Session :=
  mkSession (T "v=0")
            [mkMedia "video" (JNum 96) [mkRtp 96 "VP8" 90000] []
                     (Some "sendrecv"%string) None
                     (Some [mkSsrcGroup "SIM" "1 2 3"]) true].

(** A video section with one simulcast group, with line ends that are not
    CR LF. *)
Definition lineFeedVideo : text :=
  concat (map (fun l => l ++ [LF])
              [T "m=video 9 RTP/SAVPF 100"; T "a=ssrc-group:SIM 1 2";
               T "a=ssrc-group:FID 1 3"]).

Definition noOptions : Options :=
  mkOptions false false false false false false false.

Definition silentOptions : Options :=
  mkOptions false false false false false false true.

Definition capOptions : Options :=
  mkOptions false false false true false false false.

Definition chrome : Browser := mkBrowser true true false true true true.
Definition firefox : Browser := mkBrowser false false true true true true.

(** The ssrc lines of a receive-only source 1 and of a source 2 with a
    stream. *)
Definition sampleSsrcLines : list SsrcLine :=
  [mkSsrcLine 1 "cname" "c1"; mkSsrcLine 1 "msid" "- t1";
   mkSsrcLine 1 "mslabel" "-"; mkSsrcLine 1 "label" "t1";
   mkSsrcLine 2 "cname" "c2"; mkSsrcLine 2 "msid" "s2 t2";
   mkSsrcLine 2 "mslabel" "s2"; mkSsrcLine 2 "label" "t2"].

(** A peer connection with nothing in it. *)
Definition emptyTPC (o : Options) : TPC :=
  mkTPC o false true true [] [] [] JNull [] [] [] O.

Definition cameraTrack : JitsiLocalTrack :=
  mkLocalTrack 1 "video" (Some "camera"%string) "stream1 track1".

Definition desktopTrack : JitsiLocalTrack :=
  mkLocalTrack 2 "video" (Some "desktop"%string) "stream2 track2".

(** A peer connection with the cap on the screen sharing bitrate whose only
    local track is the screen sharing track, as [addTrack] leaves it before it
    asks for the SSRCs of a muted track. *)
Definition tpcSharingScreen : TPC :=
  mkTPC capOptions false true true [] [(2, desktopTrack)] [] JNull [] [] [] O.

(** A supply of SSRCs. *)
Definition sampleSsrc (k : nat) : Z := 1000 + Z.of_nat k.

(** A peer connection that holds an audio track of endpoint [alice]. *)
Definition aliceAudio : JitsiRemoteTrack :=
  mkRemoteTrack "alice" 1 10 "audio" None 5001 false false.

Definition tpcWithAlice : TPC :=
  mkTPC noOptions false true true [("alice"%string, [("audio"%string, aliceAudio)])]
        [(1, cameraTrack)]
        [(1, mkSSRCInfo [1000; 1001] [mkGroupInfo [1000; 1001] "FID"]
                        (Some "stream1 track1"%string))]
        JNull [] [] [] 2.

(* ===================================================================== *)
(** * Removing remote tracks                                              *)
(* ===================================================================== *)

(** [m.delete(k)]: the map without the entry of [k].  The call itself gives
    [JsMap.has m k]. *)
Definition mapDelete {K V : Type} (eqb : K -> K -> bool) (m : JsMap.t K V)
           (k : K) : JsMap.t K V :=
  filter (fun '(k', _) => negb (eqb k' k)) m.

(** What the methods of this part do to their collaborators, in the order
    they do it: the call of [dispose()] on a remote track, an error handed to
    [GlobalOnErrorHandler.callErrorHandler], and the events of [RTCEvents]
    that they emit on [eventEmitter]. *)
Inductive TrackSignal :=
| Disposed (track : JitsiRemoteTrack)
| GlobalError (message : string)
| REMOTE_TRACK_REMOVED (track : JitsiRemoteTrack)
| LOCAL_TRACK_SSRC_UPDATED (track : JitsiLocalTrack) (ssrc : JsVal).

(** The elements that [x && a.push(x)] adds to an array. *)
Definition pushed {A : Type} (x : option A) : list A :=
  match x with
  | Some a => [a]
  | None => []
  end.

(** [removeRemoteTracks(owner)]: the removed tracks and the peer connection
    afterwards. *)
Definition removeRemoteTracks (t : TPC) (owner : string)
  : list JitsiRemoteTrack * TPC :=
  let '(removedTracks, t) :=
    match JsMap.get String.eqb (remoteTracks t) owner with
    | Some remoteTracksMap =>
        let removedAudioTrack := JsMap.get String.eqb remoteTracksMap AUDIO in
        let removedVideoTrack := JsMap.get String.eqb remoteTracksMap VIDEO in
        (pushed removedAudioTrack ++ pushed removedVideoTrack,
         setRemoteTracks (mapDelete String.eqb (remoteTracks t) owner) t)
    | None => ([], t)
    end in
  (removedTracks, log LogDebug "removed remote tracks" t).

(** A stream or track id: a string, or [null]/[undefined], which [==] does
    not tell apart. *)
Definition looseEqId (a b : option string) : bool :=
  match a, b with
  | Some x, Some y => String.eqb x y
  | None, None => true
  | _, _ => false
  end.

Section RemoteTrackIds.

(** The accessors of [JitsiRemoteTrack] that the removal reads:
    [getStreamId()], [getTrackId()], [getParticipantId()] and [getType()]. *)
Variable getStreamId : JitsiRemoteTrack -> option string.
Variable getTrackId : JitsiRemoteTrack -> option string.
Variable getParticipantId : JitsiRemoteTrack -> string.
Variable getType : JitsiRemoteTrack -> string.

(** [_getRemoteTrackById(streamId, trackId)]: the first track, endpoint by
    endpoint, with both ids; [None] is [undefined]. *)
Definition _getRemoteTrackById (t : TPC) (streamId trackId : option string)
  : option JitsiRemoteTrack :=
  find (fun mediaTrack =>
          looseEqId (getStreamId mediaTrack) streamId
          && looseEqId (getTrackId mediaTrack) trackId)
       (flat_map (fun endpointTrackMap => JsMap.values endpointTrackMap)
                 (JsMap.values (remoteTracks t))).

(** [_removeRemoteTrack(toBeRemoved)] *)
Definition _removeRemoteTrack (t : TPC) (toBeRemoved : JitsiRemoteTrack)
  : TPC * list TrackSignal :=
  let participantId := getParticipantId toBeRemoved in
  let t :=
    match JsMap.get String.eqb (remoteTracks t) participantId with
    | None => log LogError "removeRemoteTrack: no remote tracks map" t
    | Some remoteTracksMap =>
        if JsMap.has String.eqb remoteTracksMap (getType toBeRemoved)
        then setRemoteTracks
               (JsMap.set String.eqb (remoteTracks t) participantId
                          (mapDelete String.eqb remoteTracksMap
                                     (getType toBeRemoved)))
               t
        else log LogError "Failed to remove - type mapping messed up ?" t
    end in
  (t, [Disposed toBeRemoved; REMOTE_TRACK_REMOVED toBeRemoved]).

(** [_removeRemoteTrackById(streamId, trackId)]: the track removed, or
    [undefined]. *)
Definition _removeRemoteTrackById (t : TPC) (streamId trackId : option string)
  : option JitsiRemoteTrack * TPC * list TrackSignal :=
  match _getRemoteTrackById t streamId trackId with
  | Some toBeRemoved =>
      let '(t, signals) := _removeRemoteTrack t toBeRemoved in
      (Some toBeRemoved, t, signals)
  | None => (None, t, [])
  end.

End RemoteTrackIds.

(** A table in which every track sits in the slot of its own participant and
    media kind. *)
Definition ownSlots (getParticipantId getType : JitsiRemoteTrack -> string)
           (m : JsMap.t string (JsMap.t string JitsiRemoteTrack)) : Prop :=
  forall endpoint kind track,
    remoteTrackAt m endpoint kind = Some track ->
    getParticipantId track = endpoint /\ getType track = kind.

(* ===================================================================== *)
(** * Suspending and resuming the transfer of media                       *)
(* ===================================================================== *)

(** [setAudioTransferActive(active)], for a boolean [active]: whether the
    value changed, and the peer connection afterwards. *)
Definition setAudioTransferActive (t : TPC) (active : bool) : bool * TPC :=
  let t := log LogDebug "audio transfer active" t in
  let changed := negb (Bool.eqb (audioTransferActive t) active) in
  (changed,
   mkTPC (options t) (isP2P t) active (videoTransferActive t)
         (remoteTracks t) (localTracks t) (localSSRCs t) (localUfrag t)
         (updateLog t) (emitted t) (logged t) (ssrcsGenerated t)).

(** [setVideoTransferActive(active)], for a boolean [active]. *)
Definition setVideoTransferActive (t : TPC) (active : bool) : bool * TPC :=
  let t := log LogDebug "video transfer active" t in
  let changed := negb (Bool.eqb (videoTransferActive t) active) in
  (changed,
   mkTPC (options t) (isP2P t) (audioTransferActive t) active
         (remoteTracks t) (localTracks t) (localSSRCs t) (localUfrag t)
         (updateLog t) (emitted t) (logged t) (ssrcsGenerated t)).

(* ===================================================================== *)
(** * Notions used in the statements of the second part                   *)
(* ===================================================================== *)

(** The parsed description after [_adjustLocalMediaDirection] has dealt with
    the section of one media kind, for the desired direction [d]. *)
Definition directed (kind d : string) (s : Session) : Session :=
  match selectMedia kind s with
  | Some m =>
      if directionIsNot d m then updateMedia kind (setDirection d) s else s
  | None => s
  end.

(* ===================================================================== *)
(** * The statistics kept by the peer connection                          *)
(* ===================================================================== *)

(** An entry of [this.stats]: what arrived for one report and one name.
    [startTime] and [endTime] are [Date]s and [times] holds the [getTime()]
    of every arrival that is kept; all are given in milliseconds. *)
Record Stat (V : Type) := mkStat {
  stat_startTime : Z;
  stat_endTime : Z;
  stat_values : list V;
  stat_times : list Z
}.
Arguments mkStat {V} _ _ _ _.
Arguments stat_startTime {V} _.
Arguments stat_endTime {V} _.
Arguments stat_values {V} _.
Arguments stat_times {V} _.

(** [this.stats]: an object that the code reads and writes by entry name
    only.  Every name it uses contains a [-], so none is a member that an
    object inherits, and the entries are the own properties. *)
Definition Stats (V : Type) := JsMap.t string (Stat V).

(** The name of an entry: the text of [report.id], a [-], and [name]. *)
Definition statId (reportId name : string) : string :=
  (reportId ++ "-" ++ name)%string.

(** [a.length > this.maxstats], where [maxstats] is a whole number or
    [undefined]. *)
Definition exceeds (n : nat) (maxstats : option Z) : bool :=
  match maxstats with
  | Some m => Z.of_nat n >? m
  | None => false
  end.

(** [_processStat(report, name, statValue)], called at time [now]. *)
Definition _processStat {V : Type} (maxstats : option Z) (stats : Stats V)
           (now : Z) (reportId name : string) (statValue : V) : Stats V :=
  let id := statId reportId name in
  let s :=
    match JsMap.get String.eqb stats id with
    | Some s => s
    | None => mkStat now now [] []
    end in
  let values := stat_values s ++ [statValue] in
  let times := stat_times s ++ [now] in
  let '(values, times) :=
    if exceeds (length values) maxstats
    then (tl values, tl times)
    else (values, times) in
  JsMap.set String.eqb stats id (mkStat (stat_startTime s) now values times).

(** A value that arrives for a report and a name at a time. *)
Record Arrival (V : Type) := mkArrival {
  arr_now : Z;
  arr_reportId : string;
  arr_name : string;
  arr_value : V
}.
Arguments mkArrival {V} _ _ _ _.
Arguments arr_now {V} _.
Arguments arr_reportId {V} _.
Arguments arr_name {V} _.
Arguments arr_value {V} _.

(** The calls of [_processStat] for a sequence of arrivals. *)
Definition processStats {V : Type} (maxstats : option Z) (stats : Stats V)
           (arrivals : list (Arrival V)) : Stats V :=
  fold_left
    (fun stats a =>
       _processStat maxstats stats (arr_now a) (arr_reportId a) (arr_name a)
                    (arr_value a))
    arrivals stats.

(** The arrivals for the entry [id]. *)
Definition arrivalsFor {V : Type} (id : string) (arrivals : list (Arrival V))
  : list (Arrival V) :=
  filter (fun a => String.eqb (statId (arr_reportId a) (arr_name a)) id)
         arrivals.

(** The last elements of a list that a limit of [maxstats] leaves. *)
Definition kept {A : Type} (maxstats : option Z) (l : list A) : list A :=
  match maxstats with
  | Some m => skipn (length l - Z.to_nat m) l
  | None => l
  end.

(** The entry that the arrivals [l] for it leave: the time of the first and
    of the last one, and the values and times that are kept. *)
Definition entryOf {V : Type} (maxstats : option Z) (l : list (Arrival V))
  : option (Stat V) :=
  match l with
  | [] => None
  | first :: _ =>
      Some (mkStat (arr_now first) (arr_now (last l first))
                   (kept maxstats (map arr_value l))
                   (kept maxstats (map arr_now l)))
  end.

(* ===================================================================== *)
(** * The SSRCs of the local tracks                                       *)
(* ===================================================================== *)

(** [extractPrimarySSRC(ssrcObj)]; [None] is a missing object. *)
Definition extractPrimarySSRC (ssrcObj : option TPCSSRCInfo) : JsVal :=
  match ssrcObj with
  | Some o =>
      match si_groups o with
      | g :: _ =>
          match gi_ssrcs g with
          | s :: _ => JNum s
          | [] => JUndefined
          end
      | [] =>
          match si_ssrcs o with
          | s :: _ => JNum s
          | [] => JNull
          end
      end
  | None => JNull
  end.

Section ProcessLocalSSRCsMap.

(** [track.isVideoTrack()] and [track.isMuted()] of [JitsiLocalTrack]. *)
Variable isVideoTrack : JitsiLocalTrack -> bool.
Variable isMuted : JitsiLocalTrack -> bool.

(** The map that [_processLocalSSRCsMap] is given: an entry holds an SSRC
    info, or a value that is falsy ([None]). *)
Variable ssrcMap : JsMap.t string (option TPCSSRCInfo).

(** The loop of [_processLocalSSRCsMap] over the local tracks that are
    left; [signals] are the events emitted so far. *)
Fixpoint forEachLocalTrack (tracks : list JitsiLocalTrack) (t : TPC)
         (signals : list TrackSignal) : TPC * list TrackSignal :=
  match tracks with
  | [] => (t, signals)
  | track :: tracks' =>
      let trackMSID := storedMSID track in
      match JsMap.get String.eqb ssrcMap trackMSID with
      | Some None => (log LogError "No SSRC found" t, signals)
      | Some (Some newSSRC) =>
          let oldSSRC := JsMap.get Z.eqb (localSSRCs t) (rtcId track) in
          let newSSRCNum := extractPrimarySSRC (Some newSSRC) in
          let oldSSRCNum := extractPrimarySSRC oldSSRC in
          if negb (strictEq newSSRCNum oldSSRCNum)
          then
            let t :=
              if strictEq oldSSRCNum JNull
              then log LogInfo "Storing new local SSRC" t
              else log LogError "Overwriting SSRC" t in
            let t :=
              setLocalSSRCs
                (JsMap.set Z.eqb (localSSRCs t) (rtcId track) newSSRC)
                (ssrcsGenerated t) t in
            forEachLocalTrack
              tracks' t
              (signals ++ [LOCAL_TRACK_SSRC_UPDATED track newSSRCNum])
          else
            forEachLocalTrack
              tracks' (log LogDebug "The local SSRC is still up to date" t)
              signals
      | None =>
          let t :=
            if negb (isVideoTrack track) && negb (isMuted track)
            then log LogWarn "No SSRCs found in the local SDP" t
            else t in
          forEachLocalTrack tracks' t signals
      end
  end.

(** [_processLocalSSRCsMap(ssrcMap)]: the peer connection afterwards and the
    events emitted. *)
Definition _processLocalSSRCsMap (t : TPC) : TPC * list TrackSignal :=
  forEachLocalTrack (JsMap.values (localTracks t)) t [].

End ProcessLocalSSRCsMap.

(** The info that [_processLocalSSRCsMap] stores for a track: the one the
    map has for the MSID of the track, when its primary SSRC is not the one
    stored. *)
Definition ssrcUpdate (ssrcMap : JsMap.t string (option TPCSSRCInfo))
           (t : TPC) (track : JitsiLocalTrack) : option TPCSSRCInfo :=
  match JsMap.get String.eqb ssrcMap (storedMSID track) with
  | Some (Some newSSRC) =>
      if strictEq (extractPrimarySSRC (Some newSSRC))
                  (extractPrimarySSRC (_getSSRC t (rtcId track)))
      then None else Some newSSRC
  | _ => None
  end.

(* ===================================================================== *)
(** * The SSRCs of a description, stream by stream                        *)
(* ===================================================================== *)

(** An ssrc group of the parsed description, after [extractSSRCMap] has put
    the numbers that it read in the place of its [ssrcs]. *)
Record SSRCGroupInfo := mkSSRCGroupInfo {
  sgi_semantics : string;
  sgi_ssrcs : list JsVal
}.

(** [TrackSSRCInfo], as [extractSSRCMap] builds it. *)
Record TrackSSRCInfo := mkTrackSSRCInfo {
  ti_ssrcs : list Z;
  ti_groups : list SSRCGroupInfo;
  ti_msid : string
}.

Section ExtractSSRCMap.

(** [parseInt(s, 10)] *)
Variable parseInt : string -> JsVal.

(** [group.ssrcs.split(' ').map(ssrcStr => parseInt(ssrcStr, 10))], stored in
    the group. *)
Definition parseGroup (group : SsrcGroup) : SSRCGroupInfo :=
  mkSSRCGroupInfo (group_semantics group)
                  (map parseInt (splitSpace (group_ssrcs group))).

(** [groupSSRCs[0]] *)
Definition primaryOf (g : SSRCGroupInfo) : JsVal := hd JUndefined (sgi_ssrcs g).

(** The body of the loop over the ssrc groups of a media section;
    [groupsMap] has numbers as keys. *)
Definition addGroup (groupsMap : JsMap.t JsVal (list SSRCGroupInfo))
           (group : SsrcGroup) : JsMap.t JsVal (list SSRCGroupInfo) :=
  let g := parseGroup group in
  let primarySSRC := primaryOf g in
  let groupsMap :=
    if JsMap.has sameValueZero groupsMap primarySSRC then groupsMap
    else JsMap.set sameValueZero groupsMap primarySSRC [] in
  match JsMap.get sameValueZero groupsMap primarySSRC with
  | Some groups => JsMap.set sameValueZero groupsMap primarySSRC (groups ++ [g])
  | None => groupsMap
  end.

(** The body of the loop over the ssrc lines of a media section. *)
Definition addSsrc (groupsMap : JsMap.t JsVal (list SSRCGroupInfo))
           (ssrcMap : JsMap.t string TrackSSRCInfo) (ssrc : SsrcLine)
  : JsMap.t string TrackSSRCInfo :=
  if negb (String.eqb (ssrc_attribute ssrc) "msid") then ssrcMap
  else
    let msid := ssrc_value ssrc in
    let ssrcInfo :=
      match JsMap.get String.eqb ssrcMap msid with
      | Some ssrcInfo => ssrcInfo
      | None => mkTrackSSRCInfo [] [] msid
      end in
    let ssrcNumber := ssrc_id ssrc in
    let ssrcGroups :=
      match JsMap.get sameValueZero groupsMap (JNum ssrcNumber) with
      | Some ssrcGroups => ssrcGroups
      | None => []
      end in
    JsMap.set String.eqb ssrcMap msid
              (mkTrackSSRCInfo (ti_ssrcs ssrcInfo ++ [ssrcNumber])
                               (ti_groups ssrcInfo ++ ssrcGroups)
                               (ti_msid ssrcInfo)).

(** The body of the loop over the media sections: a section without ssrc
    lines is passed over, its groups included. *)
Definition extractMLine
           (maps : JsMap.t string TrackSSRCInfo
                   * JsMap.t JsVal (list SSRCGroupInfo))
           (mLine : MediaLine)
  : JsMap.t string TrackSSRCInfo * JsMap.t JsVal (list SSRCGroupInfo) :=
  let '(ssrcMap, groupsMap) := maps in
  match m_ssrcs mLine with
  | None => (ssrcMap, groupsMap)
  | Some ssrcs =>
      let groupsMap :=
        match m_ssrcGroups mLine with
        | Some ssrcGroups => fold_left addGroup ssrcGroups groupsMap
        | None => groupsMap
        end in
      (fold_left (addSsrc groupsMap) ssrcs ssrcMap, groupsMap)
  end.

(** The body of [extractSSRCMap] from [transform.parse] on. *)
Definition extractSSRCMap_parsed (session : Session)
  : JsMap.t string TrackSSRCInfo :=
  fst (fold_left extractMLine (s_media session) ([], [])).

(** [extractSSRCMap(desc)]: the map, and what is logged; [None] is a
    description that is missing or has no [sdp]. *)
Definition extractSSRCMap (parse : text -> Session)
           (desc : option RTCSessionDescription)
  : JsMap.t string TrackSSRCInfo * list LogEntry :=
  match desc with
  | None =>
      ([], [mkLog LogWarn "An empty description was passed as an argument."])
  | Some d => (extractSSRCMap_parsed (parse (desc_sdp d)), [])
  end.

End ExtractSSRCMap.

(** The [msid] lines of the media sections that have ssrc lines, in the
    order of the description. *)
Definition isMsid (l : SsrcLine) : bool := String.eqb (ssrc_attribute l) "msid".

Definition msidLines (session : Session) : list SsrcLine :=
  flat_map (fun mLine =>
              match m_ssrcs mLine with
              | Some ssrcs => filter isMsid ssrcs
              | None => []
              end)
           (s_media session).

(** The lines among them that name the stream [msid]. *)
Definition linesOf (msid : string) (lines : list SsrcLine) : list SsrcLine :=
  filter (fun l => String.eqb (ssrc_value l) msid) lines.

(** The entries after the [msid] lines [lines]. *)
Definition ssrcsInv (ssrcMap : JsMap.t string TrackSSRCInfo)
           (lines : list SsrcLine) : Prop :=
  forall msid,
    match JsMap.get String.eqb ssrcMap msid with
    | Some info =>
        ti_msid info = msid
        /\ ti_ssrcs info = map ssrc_id (linesOf msid lines)
        /\ ti_ssrcs info <> []
    | None => linesOf msid lines = []
    end.

(** An ssrc group of a media section of [media] that has ssrc lines, as
    [extractSSRCMap] stores it. *)
Definition groupFrom (parseInt : string -> JsVal) (media : list MediaLine)
           (g : SSRCGroupInfo) : Prop :=
  exists mLine ssrcs ssrcGroups group,
    In mLine media /\ m_ssrcs mLine = Some ssrcs
    /\ m_ssrcGroups mLine = Some ssrcGroups /\ In group ssrcGroups
    /\ g = parseGroup parseInt group.

(** [groupsMap] lists the group [g] under [key]; [ssrcMap] lists it for the
    stream [msid]. *)
Definition listsGroup (groupsMap : JsMap.t JsVal (list SSRCGroupInfo))
           (key : JsVal) (g : SSRCGroupInfo) : Prop :=
  exists groups, JsMap.get sameValueZero groupsMap key = Some groups /\ In g groups.

Definition holdsGroup (ssrcMap : JsMap.t string TrackSSRCInfo) (msid : string)
           (g : SSRCGroupInfo) : Prop :=
  exists info, JsMap.get String.eqb ssrcMap msid = Some info
               /\ In g (ti_groups info).

(* ===================================================================== *)
(** * Normalizing a Plan B description                                    *)
(* ===================================================================== *)

Definition setSsrcs (ssrcs : list SsrcLine) (m : MediaLine) : MediaLine :=
  mkMedia (m_type m) (m_payloads m) (m_rtp m) (m_fmtp m) (m_direction m)
          (Some ssrcs) (m_ssrcGroups m) (m_simulcast_03 m).

Section NormalizePlanB.

(** [Number(s)] for a string. *)
Variable Number : string -> JsVal.

Variable browser : Browser.

(** [firstSsrcs]: the first SSRC of every FID group of a media section. *)
Definition firstSsrcsOf (mLine : MediaLine) : list JsVal :=
  match m_ssrcGroups mLine with
  | Some ssrcGroups =>
      flat_map
        (fun group =>
           if String.eqb (group_semantics group) "FID"
           then [Number (hd EmptyString (splitSpace (group_ssrcs group)))]
           else [])
        ssrcGroups
  | None => []
  end.

(** [firstSsrcs.indexOf(line.id) >= 0] *)
Definition isFirstSsrc (firstSsrcs : list JsVal) (line : SsrcLine) : bool :=
  existsb (fun first => strictEq first (JNum (ssrc_id line))) firstSsrcs.

(** The first loop over [mLine.ssrcs]: a line of a first SSRC is pushed to
    [newSsrcLines] and deleted from the array, which keeps a hole ([None])
    in its place. *)
Fixpoint takeFirstSsrcs (firstSsrcs : list JsVal)
         (ssrcs : list (option SsrcLine)) (newSsrcLines : list SsrcLine)
  : list (option SsrcLine) * list SsrcLine :=
  match ssrcs with
  | [] => ([], newSsrcLines)
  | Some line :: ssrcs' =>
      if isFirstSsrc firstSsrcs line
      then
        let '(holes, newSsrcLines) :=
          takeFirstSsrcs firstSsrcs ssrcs' (newSsrcLines ++ [line]) in
        (None :: holes, newSsrcLines)
      else
        let '(holes, newSsrcLines) :=
          takeFirstSsrcs firstSsrcs ssrcs' newSsrcLines in
        (Some line :: holes, newSsrcLines)
  | None :: ssrcs' =>
      let '(holes, newSsrcLines) :=
        takeFirstSsrcs firstSsrcs ssrcs' newSsrcLines in
      (None :: holes, newSsrcLines)
  end.

(** The second loop: the lines that are left are pushed. *)
Fixpoint takeOthers (ssrcs : list (option SsrcLine))
         (newSsrcLines : list SsrcLine) : list SsrcLine :=
  match ssrcs with
  | [] => newSsrcLines
  | Some line :: ssrcs' => takeOthers ssrcs' (newSsrcLines ++ [line])
  | None :: ssrcs' => takeOthers ssrcs' newSsrcLines
  end.

(** The body of [session.media.forEach] in [normalizePlanB]. *)
Definition normalizeMLine (mLine : MediaLine) : Outcome MediaLine :=
  let firstSsrcs := firstSsrcsOf mLine in
  match m_ssrcs mLine with
  | Some ssrcs =>
      let '(holes, newSsrcLines) :=
        takeFirstSsrcs firstSsrcs (map Some ssrcs) [] in
      let newSsrcLines := takeOthers holes newSsrcLines in
      bindO (replaceDefaultUnifiedPlanMsid browser newSsrcLines)
            (fun ssrcs => Return (setSsrcs ssrcs mLine))
  | None => Return mLine
  end.

Fixpoint normalizeMLines (media : list MediaLine) : Outcome (list MediaLine) :=
  match media with
  | [] => Return []
  | mLine :: media' =>
      bindO (normalizeMLine mLine)
            (fun mLine =>
               bindO (normalizeMLines media')
                     (fun media' => Return (mLine :: media')))
  end.

(** The body of [normalizePlanB] between [transform.parse] and
    [transform.write]. *)
Definition normalizePlanB_parsed (session : Session) : Outcome Session :=
  bindO (normalizeMLines (s_media session))
        (fun media => Return (mkSession (s_session session) media)).

Section Text.

Variable parse : text -> Session.
Variable write : Session -> text.

(** [normalizePlanB(desc)]: what it returns and what it logs; [None] is a
    description that is missing or has no [sdp], which is returned as it
    is. *)
Definition normalizePlanB (desc : option RTCSessionDescription)
  : Outcome (option RTCSessionDescription * list LogEntry) :=
  match desc with
  | None =>
      Return (None,
              [mkLog LogWarn "An empty description was passed as an argument."])
  | Some d =>
      bindO (normalizePlanB_parsed (parse (desc_sdp d)))
            (fun session =>
               Return (Some (mkDesc (desc_type d) (write session)), []))
  end.

End Text.

End NormalizePlanB.

(** The ssrc lines of a media section with the lines of the first SSRCs of
    its FID groups first; both parts keep the order they had. *)
Definition firstSsrcsFirst (Number : string -> JsVal) (mLine : MediaLine)
           (ssrcs : list SsrcLine) : list SsrcLine :=
  filter (isFirstSsrc (firstSsrcsOf Number mLine)) ssrcs
  ++ filter (fun line => negb (isFirstSsrc (firstSsrcsOf Number mLine) line))
            ssrcs.

(* ===================================================================== *)
(** * The SSRC of a track, by the id of the track                         *)
(* ===================================================================== *)

Section SsrcByTrackId.

(** [track.getTrack().id], for a local and for a remote track. *)
Variable localTrackId : JitsiLocalTrack -> string.
Variable remoteTrackId : JitsiRemoteTrack -> string.

(** [getSsrcByTrackId(id)] *)
Definition getSsrcByTrackId (t : TPC) (id : string) : JsVal :=
  match find (fun track => String.eqb (localTrackId track) id)
             (getLocalTracks t None) with
  | Some localTrack => getLocalSSRC t localTrack
  | None =>
      match find (fun track => String.eqb (remoteTrackId track) id)
                 (getRemoteTracks t None None) with
      | Some remoteTrack => JNum (rt_ssrc remoteTrack)
      | None => JNull
      end
  end.

End SsrcByTrackId.
(* ===================================================================== *)
(** * Searching a description that is a list of lines                     *)
(* ===================================================================== *)

Lemma startsWith_app (p r : text) : startsWith p (p ++ r) = true.
Proof.
  induction p as [|a p IH]; simpl; [reflexivity|].
  now rewrite Ascii.eqb_refl, IH.
Qed.

Lemma startsWith_split (p s : text) :
  startsWith p s = true -> exists r, s = p ++ r.
Proof.
  revert s; induction p as [|a p IH]; intros s H.
  - now exists s.
  - destruct s as [|b s]; simpl in H; [discriminate|].
    apply andb_true_iff in H as [Hab H].
    apply Ascii.eqb_eq in Hab; subst b.
    destruct (IH _ H) as [r ->]. now exists r.
Qed.

(** A prefix of a prefix. *)
Lemma startsWith_prefix (p q s : text) :
  startsWith (p ++ q) s = true -> startsWith p s = true.
Proof.
  intros H. destruct (startsWith_split _ _ H) as [r ->].
  rewrite <- app_assoc. apply startsWith_app.
Qed.

(** A pattern without line breaks does not see past the end of a line. *)
Lemma startsWith_line (p l r : text) :
  plain p = true ->
  startsWith p (l ++ CRLF ++ r) = startsWith p l.
Proof.
  revert l; induction p as [|a p IH]; intros l Hp; [now destruct l|].
  simpl in Hp. apply andb_true_iff in Hp as [Ha Hp].
  destruct l as [|b l]; simpl.
  - unfold isLineBreak in Ha. apply negb_true_iff, orb_false_iff in Ha as [Ha _].
    now rewrite Ha.
  - now rewrite IH.
Qed.

Lemma startsWith_CR (p r : text) :
  p <> [] -> plain p = true -> startsWith p (CR :: r) = false.
Proof.
  destruct p as [|a p]; [congruence|]; intros _ Hp; simpl in *.
  apply andb_true_iff in Hp as [Ha _].
  apply negb_true_iff, orb_false_iff in Ha as [Ha _]. now rewrite Ha.
Qed.

Lemma startsWith_LF (p r : text) :
  p <> [] -> plain p = true -> startsWith p (LF :: r) = false.
Proof.
  destruct p as [|a p]; [congruence|]; intros _ Hp; simpl in *.
  apply andb_true_iff in Hp as [Ha _].
  apply negb_true_iff, orb_false_iff in Ha as [_ Ha]. now rewrite Ha.
Qed.

Lemma startsWith_nil (p : text) : p <> [] -> startsWith p [] = false.
Proof. now destruct p. Qed.

Lemma includes_cons (p : text) c s :
  includes p (c :: s) = startsWith p (c :: s) || includes p s.
Proof. reflexivity. Qed.

(** ** First occurrence *)

(** A line in which the pattern does not occur is skipped. *)
Lemma indexOf_from_skip_line (p l r : text) (pos : nat) :
  p <> [] -> plain p = true -> includes p l = false ->
  indexOf_from p (l ++ CRLF ++ r) pos
  = indexOf_from p r (pos + length l + 2).
Proof.
  intros Hne Hp. revert pos. induction l as [|c l IH]; intros pos Hl.
  - cbn [app length CRLF indexOf_from].
    rewrite startsWith_CR, startsWith_LF by assumption.
    f_equal. lia.
  - rewrite includes_cons in Hl. apply orb_false_iff in Hl as [Hc Hl].
    change ((c :: l) ++ CRLF ++ r) with (c :: (l ++ CRLF ++ r)).
    cbn [indexOf_from].
    change (c :: l ++ CRLF ++ r) with ((c :: l) ++ CRLF ++ r).
    rewrite startsWith_line, Hc by assumption.
    rewrite IH by assumption. f_equal. cbn [length]. lia.
Qed.

Lemma indexOf_from_hit (p s : text) (pos : nat) :
  startsWith p s = true -> indexOf_from p s pos = Some pos.
Proof. intros H. destruct s; simpl in *; now rewrite H. Qed.

Lemma includes_line (p l : text) :
  p <> [] -> startsWith p l = false -> includes p (tl l) = false ->
  includes p l = false.
Proof.
  intros Hne Hs Ht. destruct l as [|c l].
  - simpl. now rewrite startsWith_nil.
  - rewrite includes_cons, Hs. exact Ht.
Qed.

Lemma joinLines_cons (l : text) (ls : list text) :
  joinLines (l :: ls) = l ++ CRLF ++ joinLines ls.
Proof. unfold joinLines. simpl. now rewrite <- app_assoc. Qed.

Lemma joinLines_app (a b : list text) :
  joinLines (a ++ b) = joinLines a ++ joinLines b.
Proof. unfold joinLines. now rewrite map_app, concat_app. Qed.

Lemma lineOffset_0 ls : lineOffset ls 0 = O.
Proof. reflexivity. Qed.

Lemma lineOffset_S l ls i :
  lineOffset (l :: ls) (S i) = (length l + 2 + lineOffset ls i)%nat.
Proof.
  unfold lineOffset. cbn [firstn]. rewrite joinLines_cons.
  rewrite !length_app. simpl. lia.
Qed.

(** The first occurrence of a pattern that lines carry only at their start is
    the start of the first line that begins with it. *)
Lemma indexOf_from_joinLines (p : text) (ls : list text) (r : text) (pos : nat) :
  p <> [] -> plain p = true ->
  Forall (fun l => includes p (tl l) = false) ls ->
  indexOf_from p (joinLines ls ++ r) pos
  = match findIndex (startsWith p) ls with
    | Some i => Some (pos + lineOffset ls i)%nat
    | None => indexOf_from p r (pos + length (joinLines ls))
    end.
Proof.
  intros Hne Hp Hls. revert pos.
  induction Hls as [|l ls Hl Hls IH]; intros pos.
  - simpl. now rewrite Nat.add_0_r.
  - rewrite joinLines_cons, <- !app_assoc. cbn [findIndex].
    destruct (startsWith p l) eqn:Hs.
    + rewrite indexOf_from_hit by now rewrite startsWith_line.
      now rewrite lineOffset_0, Nat.add_0_r.
    + rewrite indexOf_from_skip_line by auto using includes_line.
      rewrite IH. destruct (findIndex (startsWith p) ls) as [i|]; cbn [option_map].
      * rewrite lineOffset_S. f_equal. lia.
      * f_equal. rewrite !length_app. simpl. lia.
Qed.

(** ** Last occurrence *)

Lemma lastIndexOf_from_skip (p l r : text) (pos : nat) :
  p <> [] -> plain p = true -> includes p l = false ->
  lastIndexOf_from p (l ++ CRLF ++ r) pos
  = lastIndexOf_from p r (pos + length l + 2).
Proof.
  intros Hne Hp. revert pos. induction l as [|c l IH]; intros pos Hl.
  - cbn [app length CRLF lastIndexOf_from].
    rewrite startsWith_CR, startsWith_LF by assumption.
    replace (pos + 0 + 2)%nat with (S (S pos)) by lia.
    now destruct (lastIndexOf_from p r (S (S pos))).
  - rewrite includes_cons in Hl. apply orb_false_iff in Hl as [Hc Hl].
    change ((c :: l) ++ CRLF ++ r) with (c :: (l ++ CRLF ++ r)).
    cbn [lastIndexOf_from].
    change (c :: l ++ CRLF ++ r) with ((c :: l) ++ CRLF ++ r).
    rewrite startsWith_line, Hc, IH by assumption.
    replace (S pos + length l + 2)%nat with (pos + length (c :: l) + 2)%nat
      by (cbn [length]; lia).
    now destruct (lastIndexOf_from p r _).
Qed.

Lemma lastIndexOf_from_line (p l r : text) (pos : nat) :
  p <> [] -> plain p = true -> includes p (tl l) = false ->
  lastIndexOf_from p (l ++ CRLF ++ r) pos
  = match lastIndexOf_from p r (pos + length l + 2) with
    | Some k => Some k
    | None => if startsWith p l then Some pos else None
    end.
Proof.
  intros Hne Hp Hl. destruct l as [|c l].
  - assert (includes p [] = false) as H0 by (simpl; now rewrite startsWith_nil).
    rewrite lastIndexOf_from_skip by assumption.
    rewrite startsWith_nil by assumption. now destruct (lastIndexOf_from p r _).
  - change ((c :: l) ++ CRLF ++ r) with (c :: (l ++ CRLF ++ r)).
    cbn [lastIndexOf_from].
    change (c :: l ++ CRLF ++ r) with ((c :: l) ++ CRLF ++ r).
    rewrite startsWith_line by assumption.
    rewrite lastIndexOf_from_skip by assumption.
    replace (S pos + length l + 2)%nat with (pos + length (c :: l) + 2)%nat
      by (cbn [length]; lia).
    reflexivity.
Qed.

(** The last occurrence is the start of the last line that begins with the
    pattern. *)
Lemma lastIndexOf_from_joinLines (p : text) (ls : list text) (pos : nat) :
  p <> [] -> plain p = true ->
  Forall (fun l => includes p (tl l) = false) ls ->
  lastIndexOf_from p (joinLines ls) pos
  = option_map (fun j => (pos + lineOffset ls j)%nat)
               (findLastIndex (startsWith p) ls).
Proof.
  intros Hne Hp Hls. revert pos.
  induction Hls as [|l ls Hl Hls IH]; intros pos.
  - simpl. now rewrite startsWith_nil.
  - rewrite joinLines_cons, lastIndexOf_from_line, IH by assumption.
    cbn [findLastIndex].
    destruct (findLastIndex (startsWith p) ls) as [j|]; cbn [option_map].
    + rewrite lineOffset_S. f_equal. lia.
    + destruct (startsWith p l); cbn [option_map]; [|reflexivity].
      now rewrite lineOffset_0, Nat.add_0_r.
Qed.

(** ** The end of a line *)

Lemma indexOf_from_CRLF (l r : text) (pos : nat) :
  plain l = true ->
  indexOf_from CRLF (l ++ CRLF ++ r) pos = Some (pos + length l)%nat.
Proof.
  revert pos. induction l as [|c l IH]; intros pos Hl.
  - simpl. now rewrite Nat.add_0_r.
  - simpl in Hl. apply andb_true_iff in Hl as [Hc Hl].
    change ((c :: l) ++ CRLF ++ r) with (c :: (l ++ CRLF ++ r)).
    cbn [indexOf_from].
    assert (startsWith CRLF (c :: l ++ CRLF ++ r) = false) as ->.
    { cbn [startsWith CRLF].
      apply negb_true_iff, orb_false_iff in Hc as [Hc _].
      now rewrite Ascii.eqb_sym, Hc. }
    rewrite IH by assumption. f_equal. cbn [length]. lia.
Qed.

(** ** Offsets of lines *)

Lemma lineOffset_le ls i : (lineOffset ls i <= length (joinLines ls))%nat.
Proof.
  unfold lineOffset.
  rewrite <- (firstn_skipn i ls) at 2. rewrite joinLines_app, length_app. lia.
Qed.

Lemma skipn_lineOffset ls i :
  skipn (lineOffset ls i) (joinLines ls) = joinLines (skipn i ls).
Proof.
  unfold lineOffset.
  rewrite <- (firstn_skipn i ls) at 2. rewrite joinLines_app.
  rewrite skipn_app, skipn_all, Nat.sub_diag. reflexivity.
Qed.

Lemma firstn_lineOffset ls i :
  firstn (lineOffset ls i) (joinLines ls) = joinLines (firstn i ls).
Proof.
  unfold lineOffset.
  rewrite <- (firstn_skipn i ls) at 2. rewrite joinLines_app.
  rewrite firstn_app, firstn_all, Nat.sub_diag. simpl. now rewrite app_nil_r.
Qed.

Lemma lineOffset_add ls v i :
  lineOffset ls (v + i) = (lineOffset ls v + lineOffset (skipn v ls) i)%nat.
Proof.
  revert ls; induction v as [|v IH]; intros ls; [reflexivity|].
  destruct ls as [|l ls].
  - unfold lineOffset. now rewrite !firstn_nil.
  - cbn [Nat.add skipn]. rewrite !lineOffset_S, IH. lia.
Qed.

Lemma clamp_lineOffset ls i :
  clamp (joinLines ls) (Z.of_nat (lineOffset ls i)) = lineOffset ls i.
Proof.
  unfold clamp. pose proof (lineOffset_le ls i). lia.
Qed.

Lemma skipn_line (ls : list text) i :
  (i < length ls)%nat ->
  skipn i ls = nth i ls [] :: skipn (S i) ls.
Proof.
  revert ls; induction i as [|i IH]; intros [|l ls] H; simpl in *; try lia.
  - reflexivity.
  - apply IH. lia.
Qed.

Lemma lineOffset_lt (ls : list text) i j :
  (i < j)%nat -> (j <= length ls)%nat -> (lineOffset ls i < lineOffset ls j)%nat.
Proof.
  intros Hij Hj. replace j with (i + S (j - i - 1))%nat by lia.
  rewrite lineOffset_add.
  rewrite (skipn_line ls i) by lia. rewrite lineOffset_S. lia.
Qed.

Lemma lineOffset_eqb (ls : list text) i j :
  (i < length ls)%nat -> (j < length ls)%nat ->
  (Z.of_nat (lineOffset ls j) =? Z.of_nat (lineOffset ls i)) = (j =? i)%nat.
Proof.
  intros Hi Hj. destruct (Nat.eqb_spec j i) as [->|Hne].
  - apply Z.eqb_refl.
  - apply Z.eqb_neq. intros H. apply Nat2Z.inj in H.
    destruct (Nat.lt_ge_cases i j).
    + pose proof (lineOffset_lt ls i j). lia.
    + pose proof (lineOffset_lt ls j i). lia.
Qed.

Lemma findIndex_Some {A} (f : A -> bool) (l : list A) (d : A) i :
  findIndex f l = Some i -> (i < length l)%nat /\ f (nth i l d) = true.
Proof.
  revert i; induction l as [|x l IH]; intros i H; simpl in H; [discriminate|].
  destruct (f x) eqn:Hx.
  - injection H as <-. simpl. split; [lia|assumption].
  - destruct (findIndex f l) as [k|]; [|discriminate].
    injection H as <-. destruct (IH k eq_refl). simpl. split; [lia|assumption].
Qed.

Lemma findLastIndex_Some {A} (f : A -> bool) (l : list A) (d : A) j :
  findLastIndex f l = Some j -> (j < length l)%nat /\ f (nth j l d) = true.
Proof.
  revert j; induction l as [|x l IH]; intros j H; simpl in H; [discriminate|].
  destruct (findLastIndex f l) as [k|].
  - injection H as <-. destruct (IH k eq_refl). simpl. split; [lia|assumption].
  - destruct (f x) eqn:Hx; [|discriminate].
    injection H as <-. simpl. split; [lia|assumption].
Qed.

Lemma Forall_skipn {A} (P : A -> Prop) (l : list A) n :
  Forall P l -> Forall P (skipn n l).
Proof.
  intros H. rewrite <- (firstn_skipn n l) in H.
  now apply Forall_app in H.
Qed.

(** ** The string methods on a list of lines *)

Lemma indexOf_joinLines (p : text) (ls : list text) (from : Z) (k : nat) :
  p <> [] -> plain p = true ->
  Forall (fun l => includes p (tl l) = false) ls ->
  clamp (joinLines ls) from = lineOffset ls k ->
  indexOf (joinLines ls) p from
  = match findIndex (startsWith p) (skipn k ls) with
    | Some i => Z.of_nat (lineOffset ls (k + i))
    | None => -1
    end.
Proof.
  intros Hne Hp Hls Hk. unfold indexOf. rewrite Hk, skipn_lineOffset.
  rewrite <- (app_nil_r (joinLines (skipn k ls))).
  rewrite indexOf_from_joinLines by auto using Forall_skipn.
  destruct (findIndex (startsWith p) (skipn k ls)) as [i|]; cbn [toIndex].
  - now rewrite lineOffset_add.
  - simpl. now rewrite startsWith_nil.
Qed.

Lemma lastIndexOf_joinLines (p : text) (ls : list text) :
  p <> [] -> plain p = true ->
  Forall (fun l => includes p (tl l) = false) ls ->
  lastIndexOf (joinLines ls) p
  = match findLastIndex (startsWith p) ls with
    | Some j => Z.of_nat (lineOffset ls j)
    | None => -1
    end.
Proof.
  intros Hne Hp Hls. unfold lastIndexOf.
  rewrite lastIndexOf_from_joinLines by assumption.
  now destruct (findLastIndex (startsWith p) ls).
Qed.

Lemma lineEnd_le (ls : list text) i :
  (i < length ls)%nat ->
  (lineOffset ls i + length (nth i ls []) + 2 <= length (joinLines ls))%nat.
Proof.
  intros Hi. pose proof (lineOffset_le ls (S i)) as H.
  replace (S i) with (i + 1)%nat in H by lia.
  rewrite lineOffset_add, (skipn_line ls i), lineOffset_S in H by assumption.
  rewrite lineOffset_0 in H. lia.
Qed.

Lemma indexOf_CRLF_joinLines (ls : list text) i :
  Forall (fun l => plain l = true) ls -> (i < length ls)%nat ->
  indexOf (joinLines ls) CRLF (Z.of_nat (lineOffset ls i))
  = Z.of_nat (lineOffset ls i + length (nth i ls [])).
Proof.
  intros Hls Hi. unfold indexOf.
  rewrite clamp_lineOffset, skipn_lineOffset, (skipn_line ls i) by assumption.
  rewrite joinLines_cons, indexOf_from_CRLF; [reflexivity|].
  rewrite Forall_forall in Hls. apply Hls, nth_In, Hi.
Qed.

Lemma substring_line (ls : list text) i :
  (i < length ls)%nat ->
  substring (joinLines ls) (Z.of_nat (lineOffset ls i))
            (Z.of_nat (lineOffset ls i + length (nth i ls [])) + 2)
  = nth i ls [] ++ CRLF.
Proof.
  intros Hi. unfold substring. rewrite clamp_lineOffset.
  pose proof (lineEnd_le ls i Hi) as Hle.
  assert (clamp (joinLines ls)
            (Z.of_nat (lineOffset ls i + length (nth i ls [])) + 2)
          = (lineOffset ls i + length (nth i ls []) + 2)%nat) as ->
    by (unfold clamp; lia).
  rewrite Nat.min_l, Nat.max_r by lia.
  rewrite skipn_lineOffset, (skipn_line ls i), joinLines_cons by assumption.
  replace (lineOffset ls i + length (nth i ls []) + 2 - lineOffset ls i)%nat
    with (length (nth i ls [] ++ CRLF)) by (rewrite length_app; simpl; lia).
  rewrite app_assoc, firstn_app, firstn_all, Nat.sub_diag. simpl.
  now rewrite app_nil_r.
Qed.

(** ** Removing a whole line *)

Lemma indexOf_from_shift (p s : text) (pos : nat) :
  indexOf_from p s pos = option_map (Nat.add pos) (indexOf_from p s 0).
Proof.
  revert pos; induction s as [|c s IH]; intros pos; cbn [indexOf_from].
  - destruct (startsWith p []); simpl; [now rewrite Nat.add_0_r|reflexivity].
  - destruct (startsWith p (c :: s)); simpl; [now rewrite Nat.add_0_r|].
    rewrite IH, (IH 1%nat).
    destruct (indexOf_from p s 0); simpl; [f_equal; lia|reflexivity].
Qed.

Lemma startsWith_skipn_includes (p s : text) q :
  startsWith p (skipn q s) = true -> includes p s = true.
Proof.
  revert s; induction q as [|q IH]; intros s H.
  - simpl in H. destruct s; simpl; now rewrite H.
  - destruct s as [|c s]; [simpl in *; now rewrite H|].
    rewrite includes_cons. apply orb_true_iff. right. now apply IH.
Qed.

(** A line followed by its line break only matches a whole line. *)
Lemma startsWith_whole_line (x l r : text) :
  plain x = true -> plain l = true ->
  startsWith (x ++ CRLF) (l ++ CRLF ++ r) = true -> l = x.
Proof.
  revert l; induction x as [|a x IH]; intros l Hx Hl H.
  - destruct l as [|c l]; [reflexivity|]. exfalso.
    cbn [plain forallb] in Hl. cbn [app startsWith CRLF] in H.
    apply andb_true_iff in Hl as [Hc _].
    apply andb_true_iff in H as [H _].
    apply negb_true_iff, orb_false_iff in Hc as [Hc _].
    rewrite Ascii.eqb_sym in H. congruence.
  - cbn [plain forallb] in Hx. apply andb_true_iff in Hx as [Ha Hx].
    destruct l as [|c l]; cbn [app startsWith CRLF] in H.
    + apply andb_true_iff in H as [H _].
      apply negb_true_iff, orb_false_iff in Ha as [Ha _]. congruence.
    + cbn [plain forallb] in Hl. apply andb_true_iff in Hl as [_ Hl].
      apply andb_true_iff in H as [Hac H]. apply Ascii.eqb_eq in Hac.
      subst c. f_equal. now apply IH.
Qed.

Lemma indexOf_from_skip_gen (p l r : text) (pos : nat) :
  (forall q, startsWith p (skipn q l ++ CRLF ++ r) = false) ->
  startsWith p (LF :: r) = false ->
  indexOf_from p (l ++ CRLF ++ r) pos = indexOf_from p r (pos + length l + 2).
Proof.
  intros Hq HLF. revert pos. induction l as [|c l IH]; intros pos.
  - pose proof (Hq O) as H0. simpl in H0.
    cbn [app length CRLF indexOf_from]. unfold CRLF in H0. rewrite H0, HLF.
    f_equal. lia.
  - pose proof (Hq O) as H0. cbn [skipn] in H0.
    change ((c :: l) ++ CRLF ++ r) with (c :: (l ++ CRLF ++ r)) in *.
    cbn [indexOf_from]. rewrite H0, IH.
    + f_equal. cbn [length]. lia.
    + intros q. exact (Hq (S q)).
Qed.

Lemma skip_other_line (x l r : text) (pos : nat) :
  plain x = true -> isGroupLine x = true ->
  plain l = true -> includes A_SSRC_GROUP (tl l) = false -> l <> x ->
  indexOf_from (x ++ CRLF) (l ++ CRLF ++ r) pos
  = indexOf_from (x ++ CRLF) r (pos + length l + 2).
Proof.
  intros Hx Hg Hl Hin Hne.
  destruct (startsWith_split _ _ Hg) as [x' Ex].
  apply indexOf_from_skip_gen.
  - intros q. destruct (startsWith (x ++ CRLF) (skipn q l ++ CRLF ++ r)) eqn:E;
      [exfalso|reflexivity].
    destruct q as [|q].
    + apply Hne. cbn [skipn] in E. eapply startsWith_whole_line; eauto.
    + assert (startsWith A_SSRC_GROUP (skipn (S q) l ++ CRLF ++ r) = true) as Hs.
      { apply startsWith_prefix with (q := x' ++ CRLF).
        rewrite app_assoc, <- Ex. exact E. }
      rewrite startsWith_line in Hs by reflexivity.
      destruct l as [|c l]; [discriminate Hs|].
      cbn [skipn tl] in *.
      apply startsWith_skipn_includes in Hs. congruence.
  - subst x. reflexivity.
Qed.

Lemma text_eqb_eq (a b : text) : text_eqb a b = true <-> a = b.
Proof. unfold text_eqb. destruct (list_eq_dec ascii_dec a b); split; congruence. Qed.

Lemma replace_joinLines (x : text) (ls : list text) :
  plain x = true -> isGroupLine x = true ->
  Forall (fun l => plain l = true) ls ->
  Forall (fun l => includes A_SSRC_GROUP (tl l) = false) ls ->
  replace (joinLines ls) (x ++ CRLF) [] = joinLines (removeFirst x ls).
Proof.
  intros Hx Hg Hp Hin.
  assert (x ++ CRLF <> []) as Hne by (destruct x; discriminate).
  induction ls as [|l ls IH].
  - unfold replace. simpl. now rewrite startsWith_nil.
  - inversion Hp as [|? ? Hl Hp']; inversion Hin as [|? ? Hil Hin']; subst.
    specialize (IH Hp' Hin').
    cbn [removeFirst]. rewrite joinLines_cons.
    destruct (text_eqb l x) eqn:E.
    + apply text_eqb_eq in E. subst l. unfold replace.
      rewrite app_assoc, indexOf_from_hit by apply startsWith_app.
      cbn [firstn app Nat.add]. rewrite skipn_app, skipn_all, Nat.sub_diag.
      reflexivity.
    + assert (l <> x) as Hlx by (intros ->; rewrite (proj2 (text_eqb_eq x x)) in E; congruence).
      unfold replace in *.
      rewrite skip_other_line, indexOf_from_shift by assumption.
      destruct (indexOf_from (x ++ CRLF) (joinLines ls) 0) as [k|]; cbn [option_map].
      * rewrite joinLines_cons, <- IH.
        rewrite (app_assoc l CRLF).
        replace (0 + length l + 2 + k)%nat with (length (l ++ CRLF) + k)%nat
          by (rewrite length_app; simpl; lia).
        rewrite firstn_app_2.
        rewrite <- Nat.add_assoc, skipn_app, skipn_all2 by lia.
        replace (length (l ++ CRLF) + (k + length (x ++ CRLF)) - length (l ++ CRLF))%nat
          with (k + length (x ++ CRLF))%nat by lia.
        now rewrite <- !app_assoc.
      * now rewrite joinLines_cons, <- IH.
Qed.

(** ** Slices and trimming *)

Lemma slice_firstn (s : text) n :
  (n <= length s)%nat -> slice s 0 (Some (Z.of_nat n)) = firstn n s.
Proof.
  intros H. unfold slice, sliceIndex. simpl (0 <? 0).
  destruct (Z.of_nat n <? 0) eqn:E; [lia|].
  replace (Z.to_nat (Z.min 0 (Z.of_nat (length s)))) with O by lia.
  replace (Z.to_nat (Z.min (Z.of_nat n) (Z.of_nat (length s)))) with n by lia.
  now rewrite Nat.sub_0_r.
Qed.

Lemma slice_skipn (s : text) n :
  (n <= length s)%nat -> slice s (Z.of_nat n) None = skipn n s.
Proof.
  intros H. unfold slice, sliceIndex.
  destruct (Z.of_nat n <? 0) eqn:E; [lia|].
  replace (Z.to_nat (Z.min (Z.of_nat n) (Z.of_nat (length s)))) with n by lia.
  apply firstn_all2. rewrite length_skipn. lia.
Qed.

Lemma firstn_lineEnd (ls : list text) j :
  (j < length ls)%nat ->
  firstn (lineOffset ls j + length (nth j ls [])) (joinLines ls)
  = joinLines (firstn j ls) ++ nth j ls [].
Proof.
  intros Hj. unfold lineOffset.
  rewrite <- (firstn_skipn j ls) at 3.
  rewrite joinLines_app, (skipn_line ls j), joinLines_cons by assumption.
  rewrite firstn_app_2, firstn_app, firstn_all, Nat.sub_diag. simpl.
  now rewrite app_nil_r.
Qed.

Lemma skipn_lineEnd (ls : list text) j :
  (j < length ls)%nat ->
  skipn (lineOffset ls j + length (nth j ls [])) (joinLines ls)
  = CRLF ++ joinLines (skipn (S j) ls).
Proof.
  intros Hj. unfold lineOffset.
  rewrite <- (firstn_skipn j ls) at 3.
  rewrite joinLines_app, (skipn_line ls j), joinLines_cons by assumption.
  rewrite skipn_app, skipn_all2 by lia.
  replace (length (joinLines (firstn j ls)) + length (nth j ls [])
           - length (joinLines (firstn j ls)))%nat
    with (length (nth j ls [])) by lia.
  rewrite skipn_app, skipn_all, Nat.sub_diag. reflexivity.
Qed.

Lemma trimStart_app (a b : text) :
  trimStart (a ++ b)
  = if forallb isWhiteSpace a then trimStart b else trimStart a ++ b.
Proof.
  induction a as [|c a IH]; cbn [app trimStart forallb]; [reflexivity|].
  destruct (isWhiteSpace c); [exact IH|reflexivity].
Qed.

(** The white space at the end of [x] is cut off; what is left starts [x]. *)
Lemma trimStart_suffix (r : text) : exists w, rev r = rev (trimStart r) ++ w.
Proof.
  induction r as [|c r IH]; [now exists []|].
  cbn [trimStart]. destruct (isWhiteSpace c).
  - destruct IH as [w Hw]. exists (w ++ [c]). cbn [rev].
    rewrite Hw. now rewrite app_assoc.
  - exists []. now rewrite app_nil_r.
Qed.

Lemma trimEnd_prefix (x : text) : exists w, x = trimEnd x ++ w.
Proof.
  destruct (trimStart_suffix (rev x)) as [w Hw]. exists w.
  now rewrite rev_involutive in Hw.
Qed.

(** A text that ends with a character that is not white space keeps it. *)
Lemma trimEnd_keeps (p x : text) (c : ascii) :
  isWhiteSpace c = false -> trimEnd ((p ++ [c]) ++ x) = (p ++ [c]) ++ trimEnd x.
Proof.
  intros Hc. unfold trimEnd. rewrite rev_app_distr, trimStart_app.
  destruct (forallb isWhiteSpace (rev x)) eqn:E.
  - rewrite rev_app_distr. cbn [rev app trimStart]. rewrite Hc.
    assert (trimStart (rev x) = []) as ->.
    { induction (rev x) as [|d r IH]; [reflexivity|]. cbn in *.
      apply andb_true_iff in E as [-> E]. auto. }
    cbn [rev app]. now rewrite rev_involutive, app_nil_r.
  - rewrite rev_app_distr, rev_involutive. reflexivity.
Qed.

(** A group line keeps its start when it is trimmed, and so does the line
    with its line end. *)
Lemma trim_group (x : text) :
  isGroupLine x = true ->
  exists x', x = A_SSRC_GROUP ++ x' /\ trim x = A_SSRC_GROUP ++ trimEnd x'.
Proof.
  intros Hg. destruct (startsWith_split _ _ Hg) as [x' ->]. exists x'.
  split; [reflexivity|]. unfold trim.
  change (trimStart (A_SSRC_GROUP ++ x')) with (A_SSRC_GROUP ++ x').
  exact (trimEnd_keeps (T "a=ssrc-grou") x' "p" eq_refl).
Qed.

Lemma trim_line (x : text) :
  isGroupLine x = true -> trim (x ++ CRLF) = trim x.
Proof.
  intros Hg. destruct (trim_group x Hg) as (x' & -> & ->).
  unfold trim. rewrite <- app_assoc.
  change (trimStart (A_SSRC_GROUP ++ x' ++ CRLF))
    with ((T "a=ssrc-grou" ++ ["p"%char]) ++ x' ++ CRLF).
  rewrite (trimEnd_keeps (T "a=ssrc-grou") (x' ++ CRLF) "p" eq_refl).
  change (T "a=ssrc-grou" ++ ["p"%char]) with A_SSRC_GROUP.
  f_equal. unfold trimEnd. rewrite rev_app_distr. reflexivity.
Qed.

Lemma isSimLine_trim (x : text) : isSimLine x = true -> isSimLine (trim x) = true.
Proof.
  intros H. unfold isSimLine in *. destruct (startsWith_split _ _ H) as [x' ->].
  unfold trim.
  change (trimStart (A_SSRC_GROUP_SIM ++ x'))
    with ((T "a=ssrc-group:SI" ++ ["M"%char]) ++ x').
  rewrite (trimEnd_keeps (T "a=ssrc-group:SI") x' "M" eq_refl).
  apply startsWith_app.
Qed.

Lemma startsWith_app_r (p s w : text) :
  startsWith p s = true -> startsWith p (s ++ w) = true.
Proof.
  intros H. destruct (startsWith_split _ _ H) as [r ->].
  rewrite <- app_assoc. apply startsWith_app.
Qed.

Lemma includes_app_false (p s w : text) :
  includes p (s ++ w) = false -> includes p s = false.
Proof.
  induction s as [|c s IH]; intros H.
  - destruct p as [|a p]; [now destruct w|reflexivity].
  - cbn [app] in H. rewrite includes_cons in *.
    apply orb_false_iff in H as [H1 H2]. apply orb_false_iff. split.
    + destruct (startsWith p (c :: s)) eqn:E; [|reflexivity].
      change (c :: s ++ w) with ((c :: s) ++ w) in H1.
      now rewrite (startsWith_app_r _ _ w E) in H1.
    + now apply IH.
Qed.

(** The white space at the ends of a group line can go: the line stays a
    line. *)
Lemma wfLine_trim (x : text) :
  isGroupLine x = true -> wfLine x = true -> wfLine (trim x) = true.
Proof.
  intros Hg Hwf. destruct (trim_group x Hg) as (x' & -> & ->).
  destruct (trimEnd_prefix x') as [w Hw].
  remember (trimEnd x') as z eqn:Ez. rewrite Hw in Hwf. clear Hw Ez Hg x'.
  unfold wfLine in *.
  apply andb_true_iff in Hwf as [Hwf H3]. apply andb_true_iff in Hwf as [H1 H2].
  apply negb_true_iff in H2, H3.
  rewrite app_assoc in H1. unfold plain in *. rewrite forallb_app in H1.
  apply andb_true_iff in H1 as [H1 _]. rewrite H1.
  change (tl (A_SSRC_GROUP ++ z ++ w))
    with (tl A_SSRC_GROUP ++ z ++ w) in H2, H3.
  rewrite app_assoc in H2, H3.
  change (tl (A_SSRC_GROUP ++ z)) with (tl A_SSRC_GROUP ++ z).
  now rewrite (includes_app_false _ _ _ H2), (includes_app_false _ _ _ H3).
Qed.

(** ** Well-formed descriptions *)

Lemma includes_prefix_false (p q s : text) :
  includes p s = false -> includes (p ++ q) s = false.
Proof.
  induction s as [|c s IH]; simpl; intros H.
  - apply orb_false_iff in H as [H _]. apply orb_false_iff. split; [|reflexivity].
    destruct (startsWith (p ++ q) []) eqn:E; [|reflexivity].
    apply startsWith_prefix in E. congruence.
  - apply orb_false_iff in H as [H1 H2]. apply orb_false_iff. split; [|auto].
    destruct (startsWith (p ++ q) (c :: s)) eqn:E; [|reflexivity].
    apply startsWith_prefix in E. congruence.
Qed.

Lemma wfSdp_WfLines ls : wfSdp ls = true -> WfLines ls.
Proof.
  unfold wfSdp. rewrite forallb_forall. intros H.
  assert (forall l, In l ls ->
            plain l = true
            /\ includes M_VIDEO (tl l) = false
            /\ includes A_SSRC_GROUP (tl l) = false) as H'.
  { intros l Hl. specialize (H l Hl). unfold wfLine in H.
    repeat (apply andb_true_iff in H as [H ?]).
    repeat split; try assumption; now apply negb_true_iff. }
  split; apply Forall_forall; intros l Hl; destruct (H' l Hl) as (?&?&?);
    try assumption.
  change A_SSRC_GROUP_SIM with (A_SSRC_GROUP ++ T ":SIM").
  now apply includes_prefix_false.
Qed.

Lemma Forall_removeFirst (P : text -> Prop) x ls :
  Forall P ls -> Forall P (removeFirst x ls).
Proof.
  induction 1 as [|l ls Hl Hls IH]; simpl; [constructor|].
  destruct (text_eqb l x); [assumption|now constructor].
Qed.

Lemma wfSdp_removeFirst x ls : wfSdp ls = true -> wfSdp (removeFirst x ls) = true.
Proof.
  unfold wfSdp. rewrite !forallb_forall, <- !Forall_forall.
  apply Forall_removeFirst.
Qed.

Lemma removeFirst_keeps (ls : list text) i j :
  i <> j -> (i < length ls)%nat -> (j < length ls)%nat ->
  In (nth j ls []) (removeFirst (nth i ls []) ls).
Proof.
  revert i j; induction ls as [|l ls IH]; intros i j Hij Hi Hj; [simpl in Hi; lia|].
  cbn [removeFirst]. destruct (text_eqb l (nth i (l :: ls) [])) eqn:E.
  - apply text_eqb_eq in E. destruct j as [|j].
    + destruct i as [|i]; [congruence|]. simpl in *. rewrite E.
      apply nth_In. lia.
    + simpl in *. apply nth_In. lia.
  - destruct i as [|i].
    + simpl in E. rewrite (proj2 (text_eqb_eq l l) eq_refl) in E. discriminate.
    + destruct j as [|j]; [now left|]. right. simpl in *.
      apply IH; lia.
Qed.

Lemma findLastIndex_None {A} (f : A -> bool) (l : list A) :
  findLastIndex f l = None -> forall y, In y l -> f y = false.
Proof.
  induction l as [|x l IH]; simpl; intros H y Hy; [contradiction|].
  destruct (findLastIndex f l); [discriminate|].
  destruct (f x) eqn:Hx; [discriminate|].
  destruct Hy as [<-|Hy]; auto.
Qed.

Lemma firstn_S_line (ls : list text) j :
  (j < length ls)%nat -> firstn (S j) ls = firstn j ls ++ [nth j ls []].
Proof.
  revert ls; induction j as [|j IH]; intros [|l ls] H; simpl in *; try lia.
  - reflexivity.
  - f_equal. apply IH. lia.
Qed.

(** ** The string splicing of the code moves a line *)

Theorem ensureSimulcastGroupIsLast_lines (ty : string) (ls : list text) :
  wfSdp ls = true ->
  _ensureSimulcastGroupIsLast (mkDesc ty (joinLines ls))
  = mkDesc ty (joinLines (moveSimLast ls)).
Proof.
  intros Hwf. pose proof (wfSdp_WfLines ls Hwf) as [Hp Hv Hg Hs].
  unfold _ensureSimulcastGroupIsLast, moveSimLast, simIndex.
  cbn [desc_sdp desc_type].
  (* the start of the video section *)
  assert (clamp (joinLines ls) (indexOf (joinLines ls) M_VIDEO 0)
          = lineOffset ls (videoStart ls)) as Hclamp.
  { rewrite (indexOf_joinLines M_VIDEO ls 0 0 ltac:(easy) eq_refl Hv)
      by (unfold clamp; rewrite lineOffset_0; lia).
    unfold videoStart, isVideoLine. cbn [skipn].
    destruct (findIndex (startsWith M_VIDEO) ls) as [v|].
    - apply clamp_lineOffset.
    - unfold clamp. rewrite lineOffset_0. lia. }
  rewrite (indexOf_joinLines A_SSRC_GROUP_SIM ls _ (videoStart ls)
             ltac:(easy) eq_refl Hs Hclamp).
  fold isSimLine.
  destruct (findIndex isSimLine (skipn (videoStart ls) ls)) as [i0|] eqn:Ei;
    cbn [option_map]; [|reflexivity].
  set (i := (videoStart ls + i0)%nat).
  destruct (findIndex_Some _ _ [] _ Ei) as [Hi0 Hsim].
  assert (i < length ls)%nat as Hi.
  { rewrite length_skipn in Hi0. unfold i. lia. }
  assert (isSimLine (nth i ls []) = true) as Hsim'.
  { rewrite <- Hsim. f_equal. unfold i. symmetry. apply nth_skipn. }
  clear Hsim. rename Hsim' into Hsim. set (x := nth i ls []) in *.
  rewrite (lastIndexOf_joinLines A_SSRC_GROUP ls ltac:(easy) eq_refl Hg).
  fold isGroupLine.
  destruct (findLastIndex isGroupLine ls) as [j|] eqn:Ej.
  2:{ replace (Z.of_nat (lineOffset ls i) =? -1) with false by (symmetry; apply Z.eqb_neq; lia).
      reflexivity. }
  destruct (findLastIndex_Some _ _ [] _ Ej) as [Hj Hgj].
  replace (Z.of_nat (lineOffset ls i) =? -1) with false by (symmetry; apply Z.eqb_neq; lia).
  replace (Z.of_nat (lineOffset ls j) =? -1) with false by (symmetry; apply Z.eqb_neq; lia).
  rewrite lineOffset_eqb by assumption. cbn [orb].
  destruct (j =? i)%nat eqn:Eji; [reflexivity|].
  apply Nat.eqb_neq in Eji.
  (* the SIM line and its removal *)
  assert (isGroupLine x = true) as Hgx.
  { unfold isGroupLine. apply startsWith_prefix with (q := T ":SIM"). exact Hsim. }
  assert (plain x = true) as Hpx.
  { rewrite Forall_forall in Hp. apply Hp, nth_In, Hi. }
  rewrite indexOf_CRLF_joinLines, substring_line by assumption.
  fold x. rewrite replace_joinLines by assumption.
  set (ls1 := removeFirst x ls).
  pose proof (wfSdp_WfLines ls1 (wfSdp_removeFirst x ls Hwf)) as [Hp1 Hv1 Hg1 Hs1].
  rewrite (lastIndexOf_joinLines A_SSRC_GROUP ls1 ltac:(easy) eq_refl Hg1).
  fold isGroupLine.
  destruct (findLastIndex isGroupLine ls1) as [j1|] eqn:Ej1.
  2:{ exfalso.
      pose proof (findLastIndex_None _ _ Ej1 (nth j ls [])
                    (removeFirst_keeps ls i j ltac:(congruence) Hi Hj)) as Hn.
      exact (eq_true_false_abs _ Hgj Hn). }
  destruct (findLastIndex_Some _ _ [] _ Ej1) as [Hj1 _].
  rewrite indexOf_CRLF_joinLines by assumption.
  pose proof (lineEnd_le ls1 j1 Hj1) as Hle.
  rewrite slice_firstn, slice_skipn by lia.
  rewrite firstn_lineEnd, skipn_lineEnd, trim_line by assumption.
  f_equal.
  rewrite joinLines_app, joinLines_cons, firstn_S_line, joinLines_app by assumption.
  rewrite (joinLines_cons (nth j1 ls1 []) []).
  change (joinLines []) with (@nil ascii).
  rewrite <- !app_assoc. reflexivity.
Qed.

(* ===================================================================== *)
(** * The simulcast group is moved behind the other groups                *)
(* ===================================================================== *)

Lemma findLastIndex_after {A} (f : A -> bool) (l : list A) j :
  findLastIndex f l = Some j ->
  Forall (fun y => f y = false) (skipn (S j) l).
Proof.
  revert j; induction l as [|x l IH]; intros j H; simpl in H; [discriminate|].
  destruct (findLastIndex f l) as [k|] eqn:E.
  - injection H as <-. cbn [skipn]. now apply IH.
  - destruct (f x); [|discriminate]. injection H as <-. cbn [skipn].
    apply Forall_forall. intros y Hy. eapply findLastIndex_None; eauto.
Qed.

Lemma simIndex_Some (ls : list text) i :
  simIndex ls = Some i ->
  (i < length ls)%nat /\ isSimLine (nth i ls []) = true.
Proof.
  unfold simIndex. intros H.
  destruct (findIndex isSimLine (skipn (videoStart ls) ls)) as [i0|] eqn:E;
    [|discriminate].
  injection H as <-. destruct (findIndex_Some _ _ [] _ E) as [Hi Hs].
  rewrite length_skipn in Hi. rewrite nth_skipn in Hs. split; [lia|exact Hs].
Qed.

Lemma isSimLine_isGroupLine (l : text) :
  isSimLine l = true -> isGroupLine l = true.
Proof. exact (startsWith_prefix A_SSRC_GROUP (T ":SIM") l). Qed.

Example ensureSimulcastGroupIsLast_sample :
  _ensureSimulcastGroupIsLast (mkDesc "offer" (joinLines sampleLines))
  = mkDesc "offer"
      (joinLines
         [T "v=0"; T "m=audio 9 RTP/SAVPF 111"; T "a=sendrecv";
          T "m=video 9 RTP/SAVPF 100 96"; T "a=sendrecv";
          T "a=ssrc-group:FID 1 4"; T "a=ssrc-group:FID 2 5";
          T "a=ssrc-group:SIM 1 2 3"; T "a=ssrc:1 cname:x"]).
Proof. vm_compute. reflexivity. Qed.

(** The line that is moved loses the white space at its end. *)
Example ensureSimulcastGroupIsLast_trims :
  _ensureSimulcastGroupIsLast
    (mkDesc "offer"
       (joinLines [T "m=video 9 RTP/SAVPF 100"; T "a=ssrc-group:SIM 1 2 ";
                   T "a=ssrc-group:FID 1 3"]))
  = mkDesc "offer"
      (joinLines [T "m=video 9 RTP/SAVPF 100"; T "a=ssrc-group:FID 1 3";
                  T "a=ssrc-group:SIM 1 2"]).
Proof. vm_compute. reflexivity. Qed.
(* ===================================================================== *)
(** * Running the simulcast step again                                    *)
(* ===================================================================== *)

Lemma findIndex_app {A} (f : A -> bool) (a b : list A) :
  findIndex f (a ++ b)
  = match findIndex f a with
    | Some k => Some k
    | None => option_map (Nat.add (length a)) (findIndex f b)
    end.
Proof.
  induction a as [|x a IH]; simpl.
  - now destruct (findIndex f b).
  - destruct (f x); [reflexivity|]. rewrite IH.
    destruct (findIndex f a); [reflexivity|].
    now destruct (findIndex f b).
Qed.

Lemma findLastIndex_app {A} (f : A -> bool) (a b : list A) :
  findLastIndex f (a ++ b)
  = match findLastIndex f b with
    | Some k => Some (length a + k)%nat
    | None => findLastIndex f a
    end.
Proof.
  induction a as [|x a IH]; simpl.
  - now destruct (findLastIndex f b).
  - rewrite IH. now destruct (findLastIndex f b).
Qed.

Lemma findIndex_None {A} (f : A -> bool) (l : list A) :
  Forall (fun y => f y = false) l -> findIndex f l = None.
Proof.
  induction 1 as [|x l Hx Hl IH]; simpl; [reflexivity|].
  now rewrite Hx, IH.
Qed.

Lemma findIndex_None_inv {A} (f : A -> bool) (l : list A) :
  findIndex f l = None -> Forall (fun y => f y = false) l.
Proof.
  induction l as [|x l IH]; simpl; intros H; [constructor|].
  destruct (f x) eqn:Hx; [discriminate|].
  destruct (findIndex f l); [discriminate|]. constructor; auto.
Qed.

Lemma findLastIndex_None_of {A} (f : A -> bool) (l : list A) :
  Forall (fun y => f y = false) l -> findLastIndex f l = None.
Proof.
  induction 1 as [|x l Hx Hl IH]; simpl; [reflexivity|].
  now rewrite IH, Hx.
Qed.

Lemma filter_nil_Forall {A} (f : A -> bool) (l : list A) :
  filter f l = [] -> Forall (fun y => f y = false) l.
Proof.
  induction l as [|x l IH]; simpl; intros H; [constructor|].
  destruct (f x) eqn:Hx; [discriminate|]. constructor; auto.
Qed.

Lemma removeFirst_app (x : text) (a b : list text) :
  ~ In x a -> removeFirst x (a ++ x :: b) = a ++ b.
Proof.
  induction a as [|l a IH]; intros Hn; simpl.
  - now rewrite (proj2 (text_eqb_eq x x) eq_refl).
  - destruct (text_eqb l x) eqn:E.
    + apply text_eqb_eq in E. subst l. exfalso. apply Hn. now left.
    + f_equal. apply IH. intros H. apply Hn. now right.
Qed.

Lemma isSimLine_not_video (l : text) :
  isSimLine l = true -> isVideoLine l = false.
Proof.
  intros H. destruct (startsWith_split _ _ H) as [r ->]. reflexivity.
Qed.

Lemma isVideoLine_not_sim (l : text) :
  isVideoLine l = true -> isSimLine l = false.
Proof.
  intros H. destruct (isSimLine l) eqn:E; [|reflexivity].
  apply isSimLine_not_video in E. congruence.
Qed.

Lemma last_firstn_S {A} (l : list A) (k : nat) (d : A) :
  (k < length l)%nat -> last (firstn (S k) l) d = nth k l d.
Proof.
  revert k. induction l as [|x l IH]; intros k H; [simpl in H; lia|].
  destruct k as [|k].
  - reflexivity.
  - cbn [nth]. rewrite <- IH by (simpl in H; lia).
    change (firstn (S (S k)) (x :: l)) with (x :: firstn (S k) l).
    destruct l as [|y l]; [simpl in H; lia|]. reflexivity.
Qed.

(** [moveSimLast] on a description that is cut at its first video section,
    when no group line follows the section and no line before it has the
    text of the simulcast line. *)
Lemma moveSimLast_section (head : list text) (v : text) (a : list text)
      (x : text) (b rest : list text) :
  Forall (fun l => isVideoLine l = false) head ->
  isVideoLine v = true ->
  Forall (fun l => isSimLine l = false) a ->
  isSimLine x = true ->
  ~ In x head ->
  Forall (fun l => isGroupLine l = false) rest ->
  exists b1 b2,
    b = b1 ++ b2
    /\ Forall (fun l => isGroupLine l = false) b2
    /\ ((b1 = []
         /\ moveSimLast (head ++ v :: (a ++ x :: b) ++ rest)
            = head ++ v :: (a ++ x :: b) ++ rest)
        \/ (isGroupLine (last b1 []) = true
            /\ moveSimLast (head ++ v :: (a ++ x :: b) ++ rest)
               = head ++ v :: (a ++ b1 ++ trim x :: b2) ++ rest)).
Proof.
  intros Hhead Hv Ha Hx Hxh Hrest.
  set (ls := head ++ v :: (a ++ x :: b) ++ rest).
  set (A := head ++ v :: a).
  assert (ls = A ++ x :: b ++ rest) as Els
    by (unfold ls, A; repeat (rewrite <- ?app_assoc; cbn [app]); reflexivity).
  assert (~ In x A) as HxA.
  { unfold A. intros H. apply in_app_or in H as [H|[H|H]].
    - contradiction.
    - subst v. apply isVideoLine_not_sim in Hv. congruence.
    - rewrite Forall_forall in Ha. specialize (Ha x H). congruence. }
  assert (videoStart ls = length head) as Hvs.
  { unfold videoStart, ls. rewrite findIndex_app, (findIndex_None _ _ Hhead).
    cbn [findIndex]. rewrite Hv. cbn [option_map]. lia. }
  assert (simIndex ls = Some (length A)) as Hsim.
  { unfold simIndex. rewrite Hvs. unfold ls.
    rewrite skipn_app, skipn_all, Nat.sub_diag. cbn [skipn app findIndex].
    rewrite (isVideoLine_not_sim v Hv), <- app_assoc, findIndex_app.
    rewrite (findIndex_None _ _ Ha). cbn [findIndex app]. rewrite Hx.
    cbn [option_map]. unfold A. rewrite length_app. cbn [length].
    f_equal. lia. }
  assert (nth (length A) ls [] = x) as Hnth
    by (rewrite Els, app_nth2, Nat.sub_diag by lia; reflexivity).
  assert (findLastIndex isGroupLine (b ++ rest) = findLastIndex isGroupLine b)
    as Hbr by (rewrite findLastIndex_app;
               now rewrite (findLastIndex_None_of _ _ Hrest)).
  unfold moveSimLast. rewrite Hsim, Hnth, Els.
  rewrite findLastIndex_app. cbn [findLastIndex]. rewrite Hbr.
  destruct (findLastIndex isGroupLine b) as [k|] eqn:Ek.
  - assert ((length A + S k =? length A)%nat = false) as ->
      by (apply Nat.eqb_neq; lia).
    rewrite (removeFirst_app x A (b ++ rest) HxA).
    rewrite findLastIndex_app, Hbr.
    destruct (findLastIndex_Some _ _ [] _ Ek) as [Hk Hg].
    exists (firstn (S k) b), (skipn (S k) b).
    split; [symmetry; apply firstn_skipn|].
    split; [now apply findLastIndex_after|].
    right. split; [now rewrite last_firstn_S|].
    replace (S (length A + k)) with (length A + S k)%nat by lia.
    rewrite firstn_app_2, skipn_app, skipn_all2 by lia.
    replace (length A + S k - length A)%nat with (S k) by lia.
    rewrite firstn_app, skipn_app.
    replace (S k - length b)%nat with O by lia. cbn [firstn skipn app].
    unfold A. rewrite app_nil_r.
    repeat (rewrite <- ?app_assoc; cbn [app]). reflexivity.
  - rewrite (isSimLine_isGroupLine x Hx), Nat.add_0_r, Nat.eqb_refl.
    exists [], b. split; [reflexivity|].
    split; [apply Forall_forall; intros y Hy;
            exact (findLastIndex_None _ _ Ek y Hy)|].
    left. split; reflexivity.
Qed.

(** C4, as the code has it.  Take a description made of well-formed lines
    with a first video section, [v] and the lines after it up to the next
    media section, in which [x] is the first [a=ssrc-group:SIM] line.  When no
    line before the video section has the text of [x] and no [a=ssrc-group]
    line stands after the video section, [_ensureSimulcastGroupIsLast]
    returns the description as it is when no other [a=ssrc-group] line of
    the section follows [x], and otherwise with [x], without the white space
    at its ends, directly behind the last [a=ssrc-group] line of the
    section.  Either way the line stays in the section, no [a=ssrc-group]
    line of the section follows it, and all the other lines are as they
    were, in their order. *)
Theorem ensureSimulcastGroupIsLast_sim_is_last
        (ty : string) (head : list text) (v : text) (a : list text)
        (x : text) (b rest : list text) :
  wfSdp (head ++ v :: (a ++ x :: b) ++ rest) = true ->
  isVideoSection head v (a ++ x :: b) rest ->
  Forall (fun l => isSimLine l = false) a ->
  isSimLine x = true ->
  ~ In x head ->
  Forall (fun l => isGroupLine l = false) rest ->
  exists b1 b2,
    b = b1 ++ b2
    /\ Forall (fun l => isGroupLine l = false) b2
    /\ ((b1 = []
         /\ _ensureSimulcastGroupIsLast
              (mkDesc ty (joinLines (head ++ v :: (a ++ x :: b) ++ rest)))
            = mkDesc ty (joinLines (head ++ v :: (a ++ x :: b) ++ rest)))
        \/ (isGroupLine (last b1 []) = true
            /\ _ensureSimulcastGroupIsLast
                 (mkDesc ty (joinLines (head ++ v :: (a ++ x :: b) ++ rest)))
               = mkDesc ty
                   (joinLines
                      (head ++ v :: (a ++ b1 ++ trim x :: b2) ++ rest)))).
Proof.
  intros Hwf (Hhead & Hv & _ & _) Ha Hx Hxh Hrest.
  destruct (moveSimLast_section head v a x b rest Hhead Hv Ha Hx Hxh Hrest)
    as (b1 & b2 & Eb & Hb2 & [[Hb1 E]|[Hb1 E]]);
    exists b1, b2; rewrite ensureSimulcastGroupIsLast_lines, E by assumption;
    auto.
Qed.

Lemma ensureSimulcastGroupIsLast_sim_is_last_witness :
  let head := [T "v=0"] in
  let v := T "m=video 9 RTP/SAVPF 100 96" in
  let a := [T "a=sendrecv"] in
  let x := T "a=ssrc-group:SIM 1 2 3" in
  let b := [T "a=ssrc-group:FID 1 4"; T "a=ssrc-group:FID 2 5";
            T "a=ssrc:1 cname:x"] in
  let rest := [T "m=audio 9 RTP/SAVPF 111"; T "a=sendrecv"] in
  videoFirstLines = head ++ v :: (a ++ x :: b) ++ rest
  /\ wfSdp videoFirstLines = true
  /\ isVideoSection head v (a ++ x :: b) rest
  /\ exists b1 b2,
       b = b1 ++ b2
       /\ Forall (fun l => isGroupLine l = false) b2
       /\ ((b1 = []
            /\ _ensureSimulcastGroupIsLast
                 (mkDesc "offer" (joinLines videoFirstLines))
               = mkDesc "offer" (joinLines videoFirstLines))
           \/ (isGroupLine (last b1 []) = true
               /\ _ensureSimulcastGroupIsLast
                    (mkDesc "offer" (joinLines videoFirstLines))
                  = mkDesc "offer"
                      (joinLines
                         (head ++ v :: (a ++ b1 ++ trim x :: b2) ++ rest)))).
Proof.
  cbv zeta. split; [reflexivity|]. split; [reflexivity|].
  assert (isVideoSection [T "v=0"] (T "m=video 9 RTP/SAVPF 100 96")
            ([T "a=sendrecv"]
             ++ T "a=ssrc-group:SIM 1 2 3"
                :: [T "a=ssrc-group:FID 1 4"; T "a=ssrc-group:FID 2 5";
                    T "a=ssrc:1 cname:x"])
            [T "m=audio 9 RTP/SAVPF 111"; T "a=sendrecv"]) as Hsection
    by (repeat split; repeat constructor).
  split; [exact Hsection|].
  apply (ensureSimulcastGroupIsLast_sim_is_last
           "offer" [T "v=0"] (T "m=video 9 RTP/SAVPF 100 96")
           [T "a=sendrecv"] (T "a=ssrc-group:SIM 1 2 3")
           [T "a=ssrc-group:FID 1 4"; T "a=ssrc-group:FID 2 5";
            T "a=ssrc:1 cname:x"]
           [T "m=audio 9 RTP/SAVPF 111"; T "a=sendrecv"]).
  - reflexivity.
  - exact Hsection.
  - repeat constructor.
  - reflexivity.
  - intros [H|[]]. discriminate H.
  - repeat constructor.
Defined.

(** Six descriptions on which the simulcast line does not end up as the
    last group line of its video section with the other lines unchanged.
    With a group line in a later section, the line leaves the video section
    and lands in that section.  With a line of the same text in an earlier
    section, that line is the one taken out, and the video section keeps its
    simulcast line in front of the other group.  With line ends that are not
    CR LF, the start of the description is cut up.  With [m=video] inside a
    line before the video section, the simulcast line of the section before
    is the one moved.  With [a=ssrc-group] inside a line of a later section,
    the line lands behind that line.  In a second video section, the
    simulcast line stays where it is and the one of the first section is put
    behind the section's groups. *)
Lemma ensureSimulcastGroupIsLast_other_sections :
  _ensureSimulcastGroupIsLast (mkDesc "offer" (joinLines laterGroupLines))
  = mkDesc "offer"
      (joinLines
         [T "v=0";
          T "m=video 9 RTP/SAVPF 100"; T "a=ssrc-group:FID 1 3";
          T "m=audio 9 RTP/SAVPF 111"; T "a=ssrc-group:FID 7 8";
          T "a=ssrc-group:SIM 1 2"])
  /\ _ensureSimulcastGroupIsLast (mkDesc "offer" (joinLines sameSimLines))
     = mkDesc "offer"
         (joinLines
            [T "v=0";
             T "m=audio 9 RTP/SAVPF 111";
             T "m=video 9 RTP/SAVPF 100"; T "a=ssrc-group:SIM 1 2";
             T "a=ssrc-group:FID 1 3"; T "a=ssrc-group:SIM 1 2"])
  /\ _ensureSimulcastGroupIsLast (mkDesc "offer" lineFeedSdp)
     = mkDesc "offer"
         (T "v" ++ T "a=ssrc-group:SIM 1 2" ++ [LF]
            ++ T "a=ssrc-group:FID 1 3" ++ CRLF
            ++ T "=0" ++ [LF] ++ T "m=video 9 RTP/SAVPF 100" ++ [LF])
  /\ _ensureSimulcastGroupIsLast (mkDesc "offer" (joinLines midLineVideoLines))
     = mkDesc "offer"
         (joinLines
            [T "v=0";
             T "m=audio 9 RTP/SAVPF 111"; T "a=label:m=video";
             T "m=video 9 RTP/SAVPF 100"; T "a=ssrc-group:SIM 1 2";
             T "a=ssrc-group:FID 1 3"; T "a=ssrc-group:SIM 7 8"])
  /\ _ensureSimulcastGroupIsLast (mkDesc "offer" (joinLines midLineGroupLines))
     = mkDesc "offer"
         (joinLines
            [T "v=0";
             T "m=video 9 RTP/SAVPF 100"; T "a=ssrc-group:FID 1 3";
             T "m=audio 9 RTP/SAVPF 111"; T "a=label:a=ssrc-group";
             T "a=ssrc-group:SIM 1 2"])
  /\ _ensureSimulcastGroupIsLast (mkDesc "offer" (joinLines secondVideoLines))
     = mkDesc "offer"
         (joinLines
            [T "v=0";
             T "m=video 9 RTP/SAVPF 100";
             T "m=video 9 RTP/SAVPF 100"; T "a=ssrc-group:SIM 4 5";
             T "a=ssrc-group:FID 4 6"; T "a=ssrc-group:SIM 1 2"]).
Proof. vm_compute. repeat split; reflexivity. Qed.

(** With one simulcast line at most, a second run of the step finds the line
    where the first run put it. *)
Lemma moveSimLast_idempotent (ls : list text) :
  (length (filter isSimLine ls) <= 1)%nat ->
  moveSimLast (moveSimLast ls) = moveSimLast ls.
Proof.
  intros Hone.
  destruct (simIndex ls) as [i|] eqn:Hsim.
  2:{ assert (moveSimLast ls = ls) as E by (unfold moveSimLast; now rewrite Hsim).
      now rewrite !E. }
  destruct (findLastIndex isGroupLine ls) as [j|] eqn:Ej.
  2:{ assert (moveSimLast ls = ls) as E
        by (unfold moveSimLast; now rewrite Hsim, Ej).
      now rewrite !E. }
  destruct (j =? i)%nat eqn:Eji.
  { assert (moveSimLast ls = ls) as E
      by (unfold moveSimLast; now rewrite Hsim, Ej, Eji).
    now rewrite !E. }
  apply Nat.eqb_neq in Eji.
  destruct (simIndex_Some ls i Hsim) as [Hi Hx].
  set (x := nth i ls []) in *.
  set (A := firstn i ls). set (B := skipn (S i) ls).
  assert (ls = A ++ x :: B) as Els.
  { unfold A, B, x. rewrite <- skipn_line by assumption.
    symmetry. apply firstn_skipn. }
  assert (length A = i) as HA by (unfold A; rewrite length_firstn; lia).
  (* the line is the only simulcast line *)
  assert (Forall (fun l => isSimLine l = false) A
          /\ Forall (fun l => isSimLine l = false) B) as [HsA HsB].
  { rewrite Els, filter_app in Hone. cbn [filter] in Hone. rewrite Hx in Hone.
    rewrite length_app in Hone. cbn [length] in Hone.
    split; apply filter_nil_Forall, length_zero_iff_nil; lia. }
  assert (~ In x A) as HxA.
  { intros H. rewrite Forall_forall in HsA. specialize (HsA x H). congruence. }
  (* the last group line comes after it *)
  assert (exists k, findLastIndex isGroupLine B = Some k) as [k Ek].
  { rewrite Els, findLastIndex_app in Ej. cbn [findLastIndex] in Ej.
    destruct (findLastIndex isGroupLine B) as [k|]; [now exists k|].
    rewrite (isSimLine_isGroupLine x Hx) in Ej. exfalso. injection Ej as <-. lia. }
  destruct (findLastIndex_Some _ _ [] _ Ek) as [Hk _].
  set (B1 := firstn (S k) B). set (B2 := skipn (S k) B).
  assert (B = B1 ++ B2) as EB by (symmetry; apply firstn_skipn).
  assert (Forall (fun l => isGroupLine l = false) B2) as HgB2
    by now apply findLastIndex_after.
  assert (length B1 = S k) as HB1 by (unfold B1; rewrite length_firstn; lia).
  (* what the first run gives *)
  pose proof (isSimLine_trim x Hx) as Hy.
  set (y := trim x) in *.
  assert (moveSimLast ls = A ++ B1 ++ y :: B2) as E1.
  { unfold moveSimLast. rewrite Hsim, Ej.
    destruct (Nat.eqb_spec j i) as [|_]; [contradiction|].
    assert (removeFirst x ls = A ++ B) as Er
      by (rewrite Els; now apply removeFirst_app).
    fold x. rewrite Er.
    rewrite findLastIndex_app, Ek.
    replace (S (length A + k)) with (length A + S k)%nat by lia.
    rewrite firstn_app_2, skipn_app, skipn_all2 by lia.
    replace (length A + S k - length A)%nat with (S k) by lia.
    cbn [app]. now rewrite <- app_assoc. }
  rewrite E1.
  (* the second run *)
  assert (Forall (fun l => isSimLine l = false) B1
          /\ Forall (fun l => isSimLine l = false) B2) as [HsB1 HsB2]
    by (rewrite EB in HsB; now apply Forall_app in HsB).
  assert (videoStart ls <= i)%nat as Hv.
  { unfold simIndex in Hsim.
    destruct (findIndex isSimLine (skipn (videoStart ls) ls)); [|discriminate].
    injection Hsim as <-. lia. }
  clearbody A B x B1 B2 y. subst B. subst ls.
  assert (videoStart (A ++ B1 ++ y :: B2) = videoStart (A ++ x :: B1 ++ B2)) as Ev.
  { unfold videoStart in *. rewrite !findIndex_app in *.
    destruct (findIndex isVideoLine A) as [v|]; [reflexivity|].
    cbn [findIndex] in *. rewrite (isSimLine_not_video x Hx) in *.
    rewrite ?findIndex_app in *. cbn [findIndex] in *.
    rewrite (isSimLine_not_video y Hy) in *.
    destruct (findIndex isVideoLine B1) as [v1|]; cbn [option_map] in *; [lia|].
    destruct (findIndex isVideoLine B2) as [v2|]; cbn [option_map] in *; [lia|].
    reflexivity. }
  assert (simIndex (A ++ B1 ++ y :: B2) = Some (length (A ++ B1))) as Hsim2.
  { unfold simIndex. rewrite Ev.
    rewrite skipn_app.
    replace (videoStart (A ++ x :: B1 ++ B2) - length A)%nat with O by lia.
    cbn [skipn]. rewrite findIndex_app, (findIndex_None isSimLine (skipn _ A))
      by now apply Forall_skipn.
    rewrite findIndex_app, (findIndex_None isSimLine B1) by assumption.
    cbn [findIndex]. rewrite Hy. cbn [option_map].
    rewrite length_skipn, length_app. f_equal. lia. }
  assert (findLastIndex isGroupLine (A ++ B1 ++ y :: B2)
          = Some (length (A ++ B1))) as Ej2.
  { rewrite app_assoc, findLastIndex_app. cbn [findLastIndex].
    rewrite (findLastIndex_None_of isGroupLine B2) by assumption.
    rewrite (isSimLine_isGroupLine y Hy). f_equal. lia. }
  unfold moveSimLast. rewrite Hsim2, Ej2. now rewrite Nat.eqb_refl.
Qed.

Lemma In_firstn_list {A} (x : A) n (l : list A) : In x (firstn n l) -> In x l.
Proof. intros H. rewrite <- (firstn_skipn n l). apply in_or_app. now left. Qed.

Lemma In_skipn_list {A} (x : A) n (l : list A) : In x (skipn n l) -> In x l.
Proof. intros H. rewrite <- (firstn_skipn n l). apply in_or_app. now right. Qed.

Lemma wfSdp_moveSimLast (ls : list text) :
  wfSdp ls = true -> wfSdp (moveSimLast ls) = true.
Proof.
  intros Hwf. unfold moveSimLast.
  destruct (simIndex ls) as [i|] eqn:Hsim; [|assumption].
  destruct (findLastIndex isGroupLine ls) as [j|]; [|assumption].
  destruct (j =? i)%nat; [assumption|].
  destruct (findLastIndex isGroupLine (removeFirst (nth i ls []) ls)) as [j1|];
    [|assumption].
  destruct (simIndex_Some ls i Hsim) as [Hi Hx].
  pose proof (wfSdp_removeFirst (nth i ls []) ls Hwf) as H1.
  unfold wfSdp in *. rewrite forallb_forall in *.
  intros l Hl. apply in_app_or in Hl as [Hl|[<-|Hl]].
  - apply H1. eapply In_firstn_list; eauto.
  - apply wfLine_trim; [now apply isSimLine_isGroupLine|].
    apply Hwf, nth_In, Hi.
  - apply H1. eapply In_skipn_list; eauto.
Qed.

(** On a description with one simulcast line at most, the step is
    idempotent. *)
Lemma ensureSimulcastGroupIsLast_idempotent (ty : string) (ls : list text) :
  wfSdp ls = true ->
  (length (filter isSimLine ls) <= 1)%nat ->
  _ensureSimulcastGroupIsLast
    (_ensureSimulcastGroupIsLast (mkDesc ty (joinLines ls)))
  = _ensureSimulcastGroupIsLast (mkDesc ty (joinLines ls)).
Proof.
  intros Hwf Hone.
  rewrite (ensureSimulcastGroupIsLast_lines ty ls Hwf).
  rewrite (ensureSimulcastGroupIsLast_lines ty _ (wfSdp_moveSimLast ls Hwf)).
  now rewrite moveSimLast_idempotent.
Qed.

(** A description whose simulcast line is already its last group line is
    returned as it is. *)
Lemma ensureSimulcastGroupIsLast_already_last (ty : string) (ls : list text) i :
  wfSdp ls = true ->
  simIndex ls = Some i ->
  findLastIndex isGroupLine ls = Some i ->
  _ensureSimulcastGroupIsLast (mkDesc ty (joinLines ls))
  = mkDesc ty (joinLines ls).
Proof.
  intros Hwf Hsim Hlast. rewrite ensureSimulcastGroupIsLast_lines by assumption.
  unfold moveSimLast. now rewrite Hsim, Hlast, Nat.eqb_refl.
Qed.

(** With two simulcast lines a second run moves the other one. *)
Lemma ensureSimulcastGroupIsLast_twoSim :
  _ensureSimulcastGroupIsLast
    (_ensureSimulcastGroupIsLast (mkDesc "offer" (joinLines twoSimLines)))
  <> _ensureSimulcastGroupIsLast (mkDesc "offer" (joinLines twoSimLines)).
Proof.
  intros H. apply (f_equal desc_sdp) in H. apply text_eqb_eq in H.
  vm_compute in H. discriminate H.
Qed.
(* ===================================================================== *)
(** * SSRCs of known tracks                                               *)
(* ===================================================================== *)

(** Whatever the cache and the description, when [updateTrackIdsToSSRCs]
    returns, it returns the description it was given. *)
Lemma updateTrackIdsToSSRCs_returns_argument
      (replaceByRegExp : text -> text -> text -> Outcome text)
      (replaceByString : text -> text -> text -> text)
      (getTrackIdsToSSRCsFk : text -> Outcome TrackIdsToSSRCs)
      (trackIdsToSSRCs : TrackIdsToSSRCs) (sdp : text) (updated : Updated) :
  snd (updateTrackIdsToSSRCs replaceByRegExp replaceByString
                             getTrackIdsToSSRCsFk trackIdsToSSRCs sdp)
  = Return updated ->
  upd_returned updated = sdp.
Proof.
  unfold updateTrackIdsToSSRCs.
  destruct (getTrackIdsToSSRCsFk sdp) as [e|new]; [discriminate|].
  destruct (fold_left _ new _) as [cache [e|[m s]]]; cbn [snd bindO];
    [discriminate|].
  intros H. injection H as <-. reflexivity.
Qed.

(** C1. With SSRC 111 in the cache for [track1] and a description that
    announces 222 for it, [updatePlanBTrackIdsToSSRCs] and
    [updateUnifiedPlanTrackIdsToSSRCs] build the rewritten description in
    [newSdp], with 111 in place of 222, and return the description they were
    given, which still announces 222 for the track, while the cache keeps
    111 for it. *)
Theorem updateTrackIdsToSSRCs_keeps_new_ssrc
        (getMatchesOf : text -> text -> Outcome (list text))
        (matchesOf : text -> Outcome (text -> bool))
        (replaceByRegExp : text -> text -> text -> Outcome text)
        (replaceByString : text -> text -> text -> text) :
  let planB :=
    updatePlanBTrackIdsToSSRCs getMatchesOf replaceByRegExp replaceByString
                               cachedSSRCs planBSdp in
  let unified :=
    updateUnifiedPlanTrackIdsToSSRCs matchesOf replaceByRegExp replaceByString
                                     cachedSSRCs unifiedPlanSdp in
  snd planB
  = Return
      (mkUpdated
         (joinLines [T "v=0"; T "m=video 9 RTP/SAVPF 100";
                     T "a=ssrc:111 cname:x"; T "a=ssrc:111 msid:stream1 track1"])
         planBSdp)
  /\ fst planB = cachedSSRCs
  /\ getPlanBTrackIdsToSSRCs getMatchesOf planBSdp
     = Return [(T "track1", [T "222"])]
  /\ snd unified
     = Return
         (mkUpdated
            (joinLines [T "v=0"; T "m=video 9 RTP/SAVPF 100";
                        T "a=msid:stream1 track1"; T "a=ssrc:111 cname:x"])
            unifiedPlanSdp)
  /\ fst unified = cachedSSRCs
  /\ getUnifiedPlanTrackIdsToSSRCs matchesOf unifiedPlanSdp
     = Return [(T "track1", [T "222"])].
Proof. vm_compute. repeat split; reflexivity. Qed.

(* ===================================================================== *)
(** * The payload type of the injected codec                              *)
(* ===================================================================== *)

(** The payload list of a parsed description holds strings, and a number is
    never one of them. *)
Lemma arrayIncludes_strings (l : list string) (i : Z) :
  arrayIncludes (map JStr l) (JNum i) = false.
Proof. induction l as [|s l IH]; simpl; [reflexivity|exact IH]. Qed.

(** So the search stops at its first candidate, 127. *)
Lemma findDummyPayloadType_127 (l : list string) :
  findDummyPayloadType 31 (map JStr l) = Some 127.
Proof.
  unfold findDummyPayloadType. now rewrite arrayIncludes_strings.
Qed.

(** C5. For a video section with payload types 96 and 127 and no H264,
    [_injectH264IfNotPresent] gives H264 the payload type 127, which the
    section already uses, and not 126, the highest unused one. *)
Theorem injectH264_reuses_127 :
  _injectH264IfNotPresent_parsed sessionWith127
  = Return
      (Rewritten
         (mkSession (T "v=0")
            [audioSection "sendrecv";
             mkMedia "video" (JStr "96 127 127")
                     [mkRtp 96 "VP8" 90000; mkRtp 127 "red" 90000;
                      mkRtp 127 "H264" 90000]
                     [mkFmtp 127 H264_FMTP_CONFIG]
                     (Some "sendrecv"%string) None None false])).
Proof. vm_compute. reflexivity. Qed.
(** Whenever the codec is injected, its payload type is 127. *)
Lemma injectH264_always_127 (s s' : Session) :
  _injectH264IfNotPresent_parsed s = Return (Rewritten s') ->
  exists videoMLine payloads,
    findMedia "video" s = Some videoMLine
    /\ s' = updateMedia "video" (addH264 payloads 127) s.
Proof.
  unfold _injectH264IfNotPresent_parsed.
  destruct (findMedia "video" s) as [v|]; [|discriminate].
  destruct (existsb isH264 (m_rtp v)); [discriminate|].
  destruct (m_payloads v); try discriminate;
    rewrite findDummyPayloadType_127; intros H; injection H as <-; eauto.
Qed.

(** With payload types 96 to 100 in use, 127 is free and is the one taken. *)
Example injectH264_96_to_100 :
  _injectH264IfNotPresent_parsed
    (mkSession []
       [videoSection (JStr "96 97 98 99 100")
                     [mkRtp 96 "VP8" 90000; mkRtp 97 "rtx" 90000;
                      mkRtp 98 "VP9" 90000; mkRtp 99 "rtx" 90000;
                      mkRtp 100 "red" 90000] "sendrecv"])
  = Return
      (Rewritten
         (mkSession []
            [mkMedia "video" (JStr "96 97 98 99 100 127")
                     [mkRtp 96 "VP8" 90000; mkRtp 97 "rtx" 90000;
                      mkRtp 98 "VP9" 90000; mkRtp 99 "rtx" 90000;
                      mkRtp 100 "red" 90000; mkRtp 127 "H264" 90000]
                     [mkFmtp 127 H264_FMTP_CONFIG]
                     (Some "sendrecv"%string) None None false])).
Proof. vm_compute. reflexivity. Qed.

(** Without payloads in a video section that lacks H264, the step throws. *)
Example injectH264_without_payloads :
  _injectH264IfNotPresent_parsed
    (mkSession [] [videoSection JUndefined [mkRtp 96 "VP8" 90000] "sendrecv"])
  = Throw "TypeError: payloads is undefined".
Proof. reflexivity. Qed.

(* ===================================================================== *)
(** * SSRCs generated for a new stream                                    *)
(* ===================================================================== *)

(** C3, as the code has it. With simulcast on, RTX on, and either no cap on
    the screen sharing bitrate or a camera track on the peer connection,
    [generateNewStreamSSRCInfo] returns three primary SSRCs followed by three
    RTX SSRCs, one SIM group with the three primaries in the order they were
    generated, and three FID groups that pair each primary, listed first,
    with its RTX SSRC. *)
Theorem generateNewStreamSSRCInfo_simulcast_rtx
        (generateSsrc : nat -> Z) (browser : Browser) (t : TPC)
        (track : JitsiLocalTrack) :
  isSimulcastOn browser t = true ->
  capScreenshareBitrate (options t) = false \/ hasCameraTrack t = true ->
  disableRtx (options t) = false ->
  supportsRtx browser = true ->
  let k := ssrcsGenerated t in
  let g := generateSsrc in
  fst (generateNewStreamSSRCInfo generateSsrc browser t track)
  = mkSSRCInfo
      [g k; g (k + 1)%nat; g (k + 2)%nat;
       g (k + 3)%nat; g (k + 4)%nat; g (k + 5)%nat]
      [mkGroupInfo [g k; g (k + 1)%nat; g (k + 2)%nat] "SIM";
       mkGroupInfo [g k; g (k + 3)%nat] "FID";
       mkGroupInfo [g (k + 1)%nat; g (k + 4)%nat] "FID";
       mkGroupInfo [g (k + 2)%nat; g (k + 5)%nat] "FID"]
      (Some (storedMSID track)).
Proof.
  intros Hsim Hcap Hrtx Hsup. unfold generateNewStreamSSRCInfo.
  set (t1 := match _getSSRC t (rtcId track) with
             | Some _ => log LogError _ t
             | None => t
             end).
  assert (options t1 = options t /\ ssrcsGenerated t1 = ssrcsGenerated t
          /\ isSimulcastOn browser t1 = isSimulcastOn browser t
          /\ hasCameraTrack t1 = hasCameraTrack t) as (Eo & Ek & Es & Ec)
    by (unfold t1; destruct (_getSSRC t (rtcId track)); auto).
  rewrite Es, Ec, Eo, Ek, Hsim, Hrtx, Hsup.
  assert (negb (capScreenshareBitrate (options t))
          || capScreenshareBitrate (options t) && hasCameraTrack t = true) as ->.
  { destruct Hcap as [-> | ->]; [reflexivity|].
    now destruct (capScreenshareBitrate (options t)). }
  cbn. repeat (rewrite <- ?Nat.add_succ_r, ?Nat.add_0_r).
  replace (S (ssrcsGenerated t)) with (ssrcsGenerated t + 1)%nat by lia.
  replace (S (ssrcsGenerated t + 1)) with (ssrcsGenerated t + 2)%nat by lia.
  reflexivity.
Qed.

Lemma generateNewStreamSSRCInfo_simulcast_rtx_witness :
  let g := sampleSsrc in
  fst (generateNewStreamSSRCInfo sampleSsrc chrome (emptyTPC noOptions) cameraTrack)
  = mkSSRCInfo
      [g 0%nat; g 1%nat; g 2%nat; g 3%nat; g 4%nat; g 5%nat]
      [mkGroupInfo [g 0%nat; g 1%nat; g 2%nat] "SIM";
       mkGroupInfo [g 0%nat; g 3%nat] "FID";
       mkGroupInfo [g 1%nat; g 4%nat] "FID";
       mkGroupInfo [g 2%nat; g 5%nat] "FID"]
      (Some (storedMSID cameraTrack)).
Proof.
  apply (generateNewStreamSSRCInfo_simulcast_rtx
           sampleSsrc chrome (emptyTPC noOptions) cameraTrack);
    [reflexivity|left; reflexivity|reflexivity|reflexivity].
Defined.

(** With the cap on the screen sharing bitrate and a screen sharing track as
    the only local track, simulcast is on and RTX is on, and the screen
    sharing track gets one primary SSRC, one RTX SSRC and no SIM group. *)
Lemma generateNewStreamSSRCInfo_capped_screenshare :
  let t := tpcSharingScreen in
  let info := fst (generateNewStreamSSRCInfo sampleSsrc chrome t desktopTrack) in
  isSimulcastOn chrome t = true
  /\ disableRtx (options t) = false
  /\ supportsRtx chrome = true
  /\ si_ssrcs info = [sampleSsrc 0%nat; sampleSsrc 1%nat]
  /\ si_groups info = [mkGroupInfo [sampleSsrc 0%nat; sampleSsrc 1%nat] "FID"]
  /\ length (si_ssrcs info) <> 6%nat.
Proof. vm_compute. repeat split; try reflexivity. discriminate. Qed.

(* ===================================================================== *)
(** * Committing a local description                                      *)
(* ===================================================================== *)

Lemma strictEq_eq (a b : JsVal) : strictEq a b = true -> a = b.
Proof.
  destruct a, b; simpl; intros H; try discriminate; try reflexivity.
  - now apply Bool.eqb_prop in H as ->.
  - now apply Z.eqb_eq in H as ->.
  - now apply String.eqb_eq in H as ->.
Qed.

Lemma sameSignals_refl t : sameSignals t t.
Proof. now split. Qed.

Lemma sameSignals_trans t1 t2 t3 :
  sameSignals t1 t2 -> sameSignals t2 t3 -> sameSignals t1 t3.
Proof. intros [A B] [C D]. split; congruence. Qed.

Lemma sameSignals_log l m t : sameSignals t (log l m t).
Proof. now split. Qed.

Lemma sameSignals_trace w i t : sameSignals t (trace w i t).
Proof. now split. Qed.

Lemma adjustLocalMediaDirection_parsed_signals t s t' s' b :
  _adjustLocalMediaDirection_parsed t s = Return (t', s', b) ->
  sameSignals t t'.
Proof.
  unfold _adjustLocalMediaDirection_parsed. intros H.
  assert (forall o : Outcome (TPC * Session * bool),
            (forall t1 s1 b1, o = Return (t1, s1, b1) -> sameSignals t t1) ->
            forall (k : TPC * Session * bool -> Outcome (TPC * Session * bool)),
              (forall t1 s1 b1 t2 s2 b2,
                  k (t1, s1, b1) = Return (t2, s2, b2) -> sameSignals t1 t2) ->
              bindO o k = Return (t', s', b) -> sameSignals t t') as Hbind.
  { intros o Ho k Hk E. destruct o as [e|[[t1 s1] b1]]; [discriminate|].
    simpl in E. eapply sameSignals_trans; eauto. }
  eapply Hbind; [| |exact H]; clear H Hbind.
  - intros t1 s1 b1 H. destruct (selectMedia "audio" s) as [a|].
    + destruct (_getDesiredMediaDirection t AUDIO) as [e|d]; cbn [bindO] in H;
        [discriminate|].
      destruct (directionIsNot d a); injection H as E1 _ _; subst;
        auto using sameSignals_log, sameSignals_refl.
    + injection H as E1 _ _; subst. apply sameSignals_log.
  - intros t1 s1 b1 t2 s2 b2 H. cbv beta iota in H.
    destruct (selectMedia "video" s1) as [v|].
    + destruct (_getDesiredMediaDirection t1 VIDEO) as [e|d]; cbn [bindO] in H;
        [discriminate|].
      destruct (directionIsNot d v); injection H as E1 _ _; subst;
        auto using sameSignals_log, sameSignals_refl.
    + injection H as E1 _ _; subst. apply sameSignals_log.
Qed.

Section SetLocalDescriptionFacts.

Variable browser : Browser.
Variable parse : text -> Session.
Variable write : Session -> text.
Variable stripVideoCodec preferVideoCodec : MediaLine -> string -> MediaLine.
Variable toUnifiedPlan : RTCSessionDescription -> RTCSessionDescription.
Variable getUfrag : text -> JsVal.
Variable commit : RTCSessionDescription -> option string.

Local Abbreviation prepare :=
  (localDescriptionToCommit browser parse write stripVideoCodec
                            preferVideoCodec toUnifiedPlan).
Local Abbreviation run :=
  (setLocalDescription browser parse write stripVideoCodec preferVideoCodec
                       toUnifiedPlan getUfrag commit).

Lemma localDescriptionToCommit_signals t description t1 localSdp :
  prepare t description = Return (t1, localSdp) -> sameSignals t t1.
Proof.
  unfold localDescriptionToCommit, _adjustLocalMediaDirection.
  set (t0 := trace _ _ t).
  destruct (disableH264 (options t0) || preferH264 (options t0)).
  - set (d := mkDesc _ _). set (t0' := trace _ _ t0).
    destruct (_adjustLocalMediaDirection_parsed t0' (parse (desc_sdp d)))
      as [e|[[t2 s2] b2]] eqn:E; [discriminate|].
    apply adjustLocalMediaDirection_parsed_signals in E.
    cbn [bindO]. intros H.
    assert (sameSignals t t2) as Ht2.
    { eapply sameSignals_trans; [|exact E].
      eapply sameSignals_trans; apply sameSignals_trace. }
    destruct (usesUnifiedPlan browser && negb (isFirefox browser));
      injection H as E1 _; subst; [|exact Ht2].
    eapply sameSignals_trans; [exact Ht2|apply sameSignals_trace].
  - destruct (_adjustLocalMediaDirection_parsed t0 (parse (desc_sdp description)))
      as [e|[[t2 s2] b2]] eqn:E; [discriminate|].
    apply adjustLocalMediaDirection_parsed_signals in E.
    cbn [bindO]. intros H.
    assert (sameSignals t t2) as Ht2.
    { eapply sameSignals_trans; [|exact E]. apply sameSignals_trace. }
    destruct (usesUnifiedPlan browser && negb (isFirefox browser));
      injection H as E1 _; subst; [|exact Ht2].
    eapply sameSignals_trans; [exact Ht2|apply sameSignals_trace].
Qed.

(** The handler of a refused commit, on any state of the peer connection. *)
Lemma setLocalDescriptionOnFailure_signals (t : TPC) (err : string) :
  let t' := setLocalDescriptionOnFailure t err in
  emitted t' = emitted t ++ [SET_LOCAL_DESCRIPTION_FAILED err]
  /\ localUfrag t' = localUfrag t.
Proof. now split. Qed.

(** The handler of a commit that went through, on any state. *)
Lemma setLocalDescriptionOnSuccess_signals (t : TPC)
      (localSdp : RTCSessionDescription) :
  let ufrag := getUfrag (desc_sdp localSdp) in
  let t' := setLocalDescriptionOnSuccess getUfrag t localSdp in
  localUfrag t' = ufrag
  /\ emitted t'
     = emitted t
       ++ (if strictEq ufrag (localUfrag t) then []
           else [LOCAL_UFRAG_CHANGED ufrag]).
Proof.
  cbv zeta. unfold setLocalDescriptionOnSuccess.
  change (localUfrag (trace "setLocalDescriptionOnSuccess" [] t))
    with (localUfrag t).
  destruct (strictEq (getUfrag (desc_sdp localSdp)) (localUfrag t)) eqn:Es; cbn.
  - apply strictEq_eq in Es. now rewrite app_nil_r.
  - now split.
Qed.

(** C2. When the transport refuses the description, [setLocalDescription]
    rejects with the error, emits [SET_LOCAL_DESCRIPTION_FAILED] and nothing
    else, and leaves [localUfrag] as it was.  When the transport takes it,
    [setLocalDescription] resolves, [localUfrag] is the fragment of the
    committed description, and [LOCAL_UFRAG_CHANGED] is emitted exactly
    when that fragment is not the one that was stored.  The two handlers do
    the same on whatever state the peer connection is in when the promise
    settles. *)
Theorem setLocalDescription_commit (t : TPC)
        (description : RTCSessionDescription) :
  match prepare t description with
  | Throw e => run t description = Throw e
  | Return (_, localSdp) =>
      let ufrag := getUfrag (desc_sdp localSdp) in
      exists t',
        match commit localSdp with
        | Some err =>
            run t description = Return (t', Rejected err)
            /\ emitted t' = emitted t ++ [SET_LOCAL_DESCRIPTION_FAILED err]
            /\ localUfrag t' = localUfrag t
        | None =>
            run t description = Return (t', Resolved)
            /\ localUfrag t' = ufrag
            /\ emitted t'
               = emitted t
                 ++ (if strictEq ufrag (localUfrag t) then []
                     else [LOCAL_UFRAG_CHANGED ufrag])
        end
  end
  /\ (forall settled err,
         let t' := setLocalDescriptionOnFailure settled err in
         emitted t' = emitted settled ++ [SET_LOCAL_DESCRIPTION_FAILED err]
         /\ localUfrag t' = localUfrag settled)
  /\ (forall settled localSdp,
         let ufrag := getUfrag (desc_sdp localSdp) in
         let t' := setLocalDescriptionOnSuccess getUfrag settled localSdp in
         localUfrag t' = ufrag
         /\ emitted t'
            = emitted settled
              ++ (if strictEq ufrag (localUfrag settled) then []
                  else [LOCAL_UFRAG_CHANGED ufrag])).
Proof.
  split; [|split;
           [exact setLocalDescriptionOnFailure_signals
           |exact setLocalDescriptionOnSuccess_signals]].
  unfold setLocalDescription.
  destruct (prepare t description) as [e|[t1 localSdp]] eqn:E; [reflexivity|].
  destruct (localDescriptionToCommit_signals _ _ _ _ E) as [Hu He].
  cbn [bindO]. destruct (commit localSdp) as [err|].
  - eexists. split; [reflexivity|].
    destruct (setLocalDescriptionOnFailure_signals t1 err) as [A B].
    rewrite A, B, He, Hu. now split.
  - eexists. split; [reflexivity|].
    destruct (setLocalDescriptionOnSuccess_signals t1 localSdp) as [A B].
    rewrite A, B, He, Hu. now split.
Qed.

End SetLocalDescriptionFacts.
(* ===================================================================== *)
(** * Media sections of a parsed description                              *)
(* ===================================================================== *)

Lemma find_updateFirst_same (kind : string) f ms :
  keepsType f ->
  find (fun m => String.eqb (m_type m) kind) (updateFirst kind f ms)
  = option_map f (find (fun m => String.eqb (m_type m) kind) ms).
Proof.
  intros Hf. induction ms as [|m ms IH]; simpl; [reflexivity|].
  destruct (String.eqb (m_type m) kind) eqn:E; simpl.
  - now rewrite Hf, E.
  - now rewrite E.
Qed.

Lemma find_updateFirst_other (kind kind' : string) f ms :
  keepsType f -> String.eqb kind kind' = false ->
  find (fun m => String.eqb (m_type m) kind') (updateFirst kind f ms)
  = find (fun m => String.eqb (m_type m) kind') ms.
Proof.
  intros Hf Hk. induction ms as [|m ms IH]; simpl; [reflexivity|].
  destruct (String.eqb (m_type m) kind) eqn:E; simpl.
  - rewrite Hf. apply String.eqb_eq in E. rewrite E, Hk. reflexivity.
  - now rewrite IH.
Qed.

Lemma updateFirst_compose (kind : string) f g ms :
  keepsType g ->
  updateFirst kind f (updateFirst kind g ms)
  = updateFirst kind (fun m => f (g m)) ms.
Proof.
  intros Hg. induction ms as [|m ms IH]; simpl; [reflexivity|].
  destruct (String.eqb (m_type m) kind) eqn:E; simpl.
  - now rewrite Hg, E.
  - now rewrite E, IH.
Qed.

Lemma updateFirst_comm (kind kind' : string) f g ms :
  keepsType f -> keepsType g -> String.eqb kind kind' = false ->
  updateFirst kind f (updateFirst kind' g ms)
  = updateFirst kind' g (updateFirst kind f ms).
Proof.
  intros Hf Hg Hk. induction ms as [|m ms IH]; simpl; [reflexivity|].
  destruct (String.eqb (m_type m) kind') eqn:E'.
  - apply String.eqb_eq in E'. simpl.
    assert (String.eqb (m_type m) kind = false) as E.
    { rewrite E', String.eqb_sym. exact Hk. }
    rewrite Hg, E. simpl. rewrite E', String.eqb_refl. reflexivity.
  - destruct (String.eqb (m_type m) kind) eqn:E; simpl.
    + rewrite E, Hf.
      apply String.eqb_eq in E. now rewrite E, Hk.
    + now rewrite E, E', IH.
Qed.

Lemma updateFirst_ext (kind : string) f g ms :
  (forall m, f m = g m) -> updateFirst kind f ms = updateFirst kind g ms.
Proof.
  intros H. induction ms as [|m ms IH]; simpl; [reflexivity|].
  now rewrite H, IH.
Qed.

Lemma updateFirst_id (kind : string) ms :
  updateFirst kind (fun m => m) ms = ms.
Proof.
  induction ms as [|m ms IH]; simpl; [reflexivity|].
  destruct (String.eqb (m_type m) kind); [reflexivity|now rewrite IH].
Qed.

Lemma keepsType_setDirection d : keepsType (setDirection d).
Proof. intros m. reflexivity. Qed.

Lemma keepsType_enforcedAudio o : keepsType (enforcedAudio o).
Proof. intros m. unfold enforcedAudio. now destruct (directionIsNot _ m). Qed.

Lemma keepsType_enforcedVideo : keepsType enforcedVideo.
Proof. intros m. unfold enforcedVideo. now destruct (directionIsNot _ m). Qed.

Lemma updateFirst_fixed (kind : string) f ms :
  (forall m, find (fun m => String.eqb (m_type m) kind) ms = Some m -> f m = m) ->
  updateFirst kind f ms = ms.
Proof.
  induction ms as [|m ms IH]; simpl; intros H; [reflexivity|].
  destruct (String.eqb (m_type m) kind) eqn:E.
  - now rewrite H.
  - now rewrite IH.
Qed.

(* ===================================================================== *)
(** * Directions of the signalled description                             *)
(* ===================================================================== *)

(** [enforceSendRecv] puts [enforcedAudio] in the place of the audio section
    and [enforcedVideo] in the place of the video section. *)
Lemma enforceSendRecv_parsed_spec (options : Options) (s : Session) :
  afterStep s (enforceSendRecv_parsed options s)
  = updateMedia "video" enforcedVideo
                (updateMedia "audio" (enforcedAudio options) s).
Proof.
  assert (forall s0, updateMedia "video" enforcedVideo s0
                     = match selectMedia "video" s0 with
                       | Some m =>
                           if directionIsNot "sendrecv" m
                           then updateMedia "video" (setDirection "sendrecv") s0
                           else s0
                       | None => s0
                       end) as HV.
  { intros [h ms]. unfold updateMedia, selectMedia, findMedia. cbn [s_media s_session].
    destruct (find _ ms) as [m|] eqn:E.
    - destruct (directionIsNot "sendrecv" m) eqn:D.
      + f_equal. unfold enforcedVideo.
        induction ms as [|m0 ms IH]; [discriminate|]. simpl in *.
        destruct (String.eqb (m_type m0) "video").
        * injection E as ->. now rewrite D.
        * f_equal. auto.
      + f_equal. apply updateFirst_fixed. intros m' Hm'.
        assert (m' = m) as -> by congruence.
        unfold enforcedVideo. now rewrite D.
    - f_equal. apply updateFirst_fixed. intros m' Hm'. congruence. }
  assert (updateMedia "audio" (enforcedAudio options) s
          = match selectMedia "audio" s with
            | Some m =>
                if directionIsNot "sendrecv" m
                then if startSilent options
                     then updateMedia "audio" (setDirection "inactive") s
                     else updateMedia "audio" (setDirection "sendrecv") s
                else s
            | None => s
            end) as HA.
  { destruct s as [h ms]. unfold updateMedia, selectMedia, findMedia.
    cbn [s_media s_session].
    destruct (find _ ms) as [m|] eqn:E.
    - destruct (directionIsNot "sendrecv" m) eqn:D.
      + assert (updateFirst "audio" (enforcedAudio options) ms
                = updateFirst "audio"
                    (setDirection (if startSilent options then "inactive"
                                   else "sendrecv")) ms) as ->.
        { unfold enforcedAudio.
          induction ms as [|m0 ms IH]; [discriminate|]. simpl in *.
          destruct (String.eqb (m_type m0) "audio").
          - injection E as ->. now rewrite D.
          - f_equal. auto. }
        now destruct (startSilent options).
      + f_equal. apply updateFirst_fixed. intros m' Hm'.
        assert (m' = m) as -> by congruence.
        unfold enforcedAudio. now rewrite D.
    - f_equal. apply updateFirst_fixed. intros m' Hm'. congruence. }
  rewrite HA, HV. unfold enforceSendRecv_parsed.
  destruct (selectMedia "audio" s) as [a|].
  - destruct (directionIsNot "sendrecv" a).
    + destruct (startSilent options);
        match goal with
        | |- context [selectMedia "video" ?x] =>
            destruct (selectMedia "video" x) as [v|];
              [destruct (directionIsNot "sendrecv" v)|]; reflexivity
        end.
    + destruct (selectMedia "video" s) as [v|];
        [destruct (directionIsNot "sendrecv" v)|]; reflexivity.
  - destruct (selectMedia "video" s) as [v|];
      [destruct (directionIsNot "sendrecv" v)|]; reflexivity.
Qed.

Lemma direction_enforcedVideo (m : MediaLine) :
  m_direction (enforcedVideo m) = Some "sendrecv"%string.
Proof.
  unfold enforcedVideo, directionIsNot.
  destruct (m_direction m) as [d|] eqn:E; [|reflexivity].
  destruct (String.eqb d "sendrecv") eqn:D; simpl; [|reflexivity].
  apply String.eqb_eq in D. congruence.
Qed.

Lemma direction_enforcedAudio (options : Options) (m : MediaLine) :
  m_direction (enforcedAudio options m)
  = Some (if startSilent options && directionIsNot "sendrecv" m
          then "inactive" else "sendrecv")%string.
Proof.
  unfold enforcedAudio.
  destruct (directionIsNot "sendrecv" m) eqn:D.
  - now destruct (startSilent options).
  - rewrite andb_false_r. unfold directionIsNot in D.
    destruct (m_direction m) as [d|]; [|discriminate].
    apply negb_false_iff, String.eqb_eq in D. congruence.
Qed.

Lemma enforceSendRecv_parsed_directions (options : Options) (s : Session) :
  let s' := afterStep s (enforceSendRecv_parsed options s) in
  option_map m_direction (selectMedia "video" s')
  = option_map (fun _ => Some "sendrecv"%string) (selectMedia "video" s)
  /\ option_map m_direction (selectMedia "audio" s')
     = option_map
         (fun a => Some (if startSilent options && directionIsNot "sendrecv" a
                         then "inactive" else "sendrecv")%string)
         (selectMedia "audio" s).
Proof.
  cbv zeta. rewrite enforceSendRecv_parsed_spec.
  unfold selectMedia, findMedia, updateMedia. cbn [s_media].
  split.
  - rewrite find_updateFirst_same by apply keepsType_enforcedVideo.
    rewrite find_updateFirst_other
      by (apply keepsType_enforcedAudio || reflexivity).
    destruct (find _ (s_media s)); [|reflexivity]. simpl.
    now rewrite direction_enforcedVideo.
  - rewrite find_updateFirst_other
      by (apply keepsType_enforcedVideo || reflexivity).
    rewrite find_updateFirst_same by apply keepsType_enforcedAudio.
    destruct (find _ (s_media s)); [|reflexivity]. simpl.
    now rewrite direction_enforcedAudio.
Qed.

(** C7, as the code has it. [enforceSendRecv] returns the description it was
    given or one written from its parsed form.  In the parsed form of what it
    returns, the video section, when there is one, has direction [sendrecv];
    the audio section, when there is one, has direction [sendrecv], except
    that with [options.startSilent] an audio section that was not [sendrecv]
    becomes [inactive]. *)
Theorem enforceSendRecv_directions
        (parse : text -> Session) (write : Session -> text)
        (options : Options) (localDescription : RTCSessionDescription) :
  let s := parse (desc_sdp localDescription) in
  exists r,
    enforceSendRecv parse write (Some localDescription) options
    = Return (stepResult write localDescription r)
    /\ option_map m_direction (selectMedia "video" (afterStep s r))
       = option_map (fun _ => Some "sendrecv"%string) (selectMedia "video" s)
    /\ option_map m_direction (selectMedia "audio" (afterStep s r))
       = option_map
           (fun a => Some (if startSilent options
                              && directionIsNot "sendrecv" a
                           then "inactive" else "sendrecv")%string)
           (selectMedia "audio" s).
Proof.
  cbv zeta.
  exists (enforceSendRecv_parsed options (parse (desc_sdp localDescription))).
  split; [reflexivity|].
  apply enforceSendRecv_parsed_directions.
Qed.

(** With [startSilent], a local audio section that only receives is
    signalled as [inactive]. *)
Lemma enforceSendRecv_startSilent_inactive :
  option_map m_direction
             (selectMedia "audio"
                (afterStep recvonlySession
                           (enforceSendRecv_parsed silentOptions recvonlySession)))
  = Some (Some "inactive"%string)
  /\ option_map m_direction
                (selectMedia "audio"
                   (afterStep recvonlySession
                              (enforceSendRecv_parsed silentOptions
                                                      recvonlySession)))
     <> Some (Some "sendrecv"%string).
Proof. vm_compute. split; [reflexivity|discriminate]. Qed.
(* ===================================================================== *)
(** * Running a step again                                                *)
(* ===================================================================== *)

Lemma enforcedVideo_twice m : enforcedVideo (enforcedVideo m) = enforcedVideo m.
Proof.
  unfold enforcedVideo at 1.
  assert (directionIsNot "sendrecv" (enforcedVideo m) = false) as ->; [|reflexivity].
  unfold directionIsNot. rewrite direction_enforcedVideo. reflexivity.
Qed.

Lemma setDirection_same d m :
  m_direction m = Some d -> setDirection d m = m.
Proof. destruct m. simpl. now intros ->. Qed.

Lemma enforcedAudio_twice o m :
  enforcedAudio o (enforcedAudio o m) = enforcedAudio o m.
Proof.
  unfold enforcedAudio at 1.
  destruct (directionIsNot "sendrecv" (enforcedAudio o m)) eqn:D; [|reflexivity].
  apply setDirection_same. rewrite direction_enforcedAudio.
  unfold directionIsNot at 1 in D. rewrite direction_enforcedAudio in D.
  destruct (startSilent o); destruct (directionIsNot "sendrecv" m);
    simpl in *; try reflexivity; discriminate.
Qed.

(** [enforceSendRecv] on what [enforceSendRecv] gave changes nothing. *)
Lemma enforceSendRecv_parsed_idempotent (options : Options) (s : Session) :
  let s' := afterStep s (enforceSendRecv_parsed options s) in
  afterStep s' (enforceSendRecv_parsed options s') = s'.
Proof.
  cbv zeta. rewrite !enforceSendRecv_parsed_spec.
  unfold updateMedia. cbn [s_media s_session]. f_equal.
  rewrite (updateFirst_comm "audio" "video")
    by (apply keepsType_enforcedAudio || apply keepsType_enforcedVideo
        || reflexivity).
  rewrite updateFirst_compose by apply keepsType_enforcedVideo.
  rewrite updateFirst_compose by apply keepsType_enforcedAudio.
  rewrite (updateFirst_ext "audio" _ (enforcedAudio options))
    by apply enforcedAudio_twice.
  apply updateFirst_ext, enforcedVideo_twice.
Qed.

Lemma keepsType_setSsrcGroups g : keepsType (setSsrcGroups g).
Proof. intros m. reflexivity. Qed.

(** [_injectSsrcGroupForUnifiedSimulcast] on what it gave changes nothing. *)
Lemma injectSsrcGroup_parsed_idempotent (s : Session) :
  match _injectSsrcGroupForUnifiedSimulcast_parsed s with
  | Throw _ => True
  | Return r =>
      exists r',
        _injectSsrcGroupForUnifiedSimulcast_parsed (afterStep s r) = Return r'
        /\ afterStep (afterStep s r) r' = afterStep s r
  end.
Proof.
  unfold _injectSsrcGroupForUnifiedSimulcast_parsed at 1.
  destruct (findMedia "video" s) as [video|] eqn:Ev; [|exact I].
  destruct (m_simulcast_03 video) eqn:Esim.
  - destruct (m_ssrcs video) as [lines|] eqn:El; [|exact I].
    destruct (existsb isSimGroup
                (match m_ssrcGroups video with Some g => g | None => [] end))
      eqn:Eg.
    + exists Unchanged. cbn [afterStep]. split; [|reflexivity].
      unfold _injectSsrcGroupForUnifiedSimulcast_parsed.
      now rewrite Ev, Esim, El, Eg.
    + exists Unchanged. cbn [afterStep]. split; [|reflexivity].
      unfold _injectSsrcGroupForUnifiedSimulcast_parsed, findMedia, updateMedia
        in *.
      cbn [s_media]. rewrite find_updateFirst_same by apply keepsType_setSsrcGroups.
      rewrite Ev. cbn [option_map setSsrcGroups m_simulcast_03 m_ssrcs m_ssrcGroups].
      rewrite Esim, El, existsb_app. cbn. now rewrite orb_true_r.
  - exists (Rewritten s). cbn [afterStep]. split; [|reflexivity].
    unfold _injectSsrcGroupForUnifiedSimulcast_parsed. now rewrite Ev, Esim.
Qed.

(** A description whose video section has a SIM group comes back as it is,
    unless the property access on missing ssrc lines throws. *)
Lemma injectSsrcGroup_parsed_present (s : Session) video groups :
  findMedia "video" s = Some video ->
  m_ssrcGroups video = Some groups ->
  existsb isSimGroup groups = true ->
  match _injectSsrcGroupForUnifiedSimulcast_parsed s with
  | Throw _ => m_simulcast_03 video = true /\ m_ssrcs video = None
  | Return r => afterStep s r = s
  end.
Proof.
  intros Ev Eg Hsim. unfold _injectSsrcGroupForUnifiedSimulcast_parsed.
  rewrite Ev, Eg, Hsim.
  destruct (m_simulcast_03 video); [|reflexivity].
  destruct (m_ssrcs video); [reflexivity|auto].
Qed.

Lemma keepsType_addH264 p n : keepsType (addH264 p n).
Proof. intros m. reflexivity. Qed.

(** [_injectH264IfNotPresent] on what it gave is a no-op. *)
Lemma injectH264_parsed_idempotent (s : Session) (r : Rewrite) :
  _injectH264IfNotPresent_parsed s = Return r ->
  _injectH264IfNotPresent_parsed (afterStep s r) = Return Unchanged.
Proof.
  intros E. destruct r as [|s'].
  - cbn [afterStep]. revert E. unfold _injectH264IfNotPresent_parsed.
    destruct (findMedia "video" s) as [v|]; [|reflexivity].
    destruct (existsb isH264 (m_rtp v)); [reflexivity|].
    destruct (m_payloads v); try discriminate;
      rewrite findDummyPayloadType_127; discriminate.
  - apply injectH264_always_127 in E as (v & p & Ev & ->).
    cbn [afterStep]. unfold _injectH264IfNotPresent_parsed, findMedia, updateMedia.
    cbn [s_media]. rewrite find_updateFirst_same by apply keepsType_addH264.
    unfold findMedia in Ev. rewrite Ev. cbn [option_map addH264 m_rtp].
    rewrite existsb_app. cbn. now rewrite orb_true_r.
Qed.

(** A description whose video section has H264 comes back as it is. *)
Lemma injectH264_parsed_present (s : Session) videoMLine :
  findMedia "video" s = Some videoMLine ->
  existsb isH264 (m_rtp videoMLine) = true ->
  _injectH264IfNotPresent_parsed s = Return Unchanged.
Proof.
  intros Ev Eh. unfold _injectH264IfNotPresent_parsed. now rewrite Ev, Eh.
Qed.

(** ** The steps on the text of a description *)

Section StepsOnText.

Variable parse : text -> Session.
Variable write : Session -> text.

(** A step that changes nothing in the parsed form that a description was
    written from returns that description. *)
Lemma stepResult_fixed (d : RTCSessionDescription) (r : Rewrite) (s : Session) :
  afterStep s r = s -> desc_sdp d = write s -> stepResult write d r = d.
Proof.
  intros Hr Hd. destruct d as [ty sdp]. cbn in Hd. subst sdp.
  destruct r as [|s']; cbn in *; [reflexivity|]. now subst s'.
Qed.

Lemma enforceSendRecv_idempotent (options : Options)
      (d : RTCSessionDescription) :
  (forall s,
      enforceSendRecv_parsed options (parse (desc_sdp d)) = Rewritten s ->
      parse (write s) = s) ->
  bindO (enforceSendRecv parse write (Some d) options)
        (fun d' => enforceSendRecv parse write (Some d') options)
  = enforceSendRecv parse write (Some d) options.
Proof.
  intros Hback. cbn [enforceSendRecv bindO]. f_equal.
  pose proof (enforceSendRecv_parsed_idempotent options (parse (desc_sdp d)))
    as Hidem. cbv zeta in Hidem.
  destruct (enforceSendRecv_parsed options (parse (desc_sdp d))) as [|s] eqn:E.
  - cbn [stepResult]. now rewrite E.
  - cbn [stepResult afterStep desc_sdp] in *. rewrite (Hback s eq_refl).
    now apply stepResult_fixed with (s := s).
Qed.

Lemma injectSsrcGroup_idempotent (d : RTCSessionDescription) :
  (forall s,
      _injectSsrcGroupForUnifiedSimulcast_parsed (parse (desc_sdp d))
      = Return (Rewritten s) ->
      parse (write s) = s) ->
  bindO (_injectSsrcGroupForUnifiedSimulcast parse write d)
        (_injectSsrcGroupForUnifiedSimulcast parse write)
  = _injectSsrcGroupForUnifiedSimulcast parse write d.
Proof.
  intros Hback. unfold _injectSsrcGroupForUnifiedSimulcast at 1 3.
  pose proof (injectSsrcGroup_parsed_idempotent (parse (desc_sdp d))) as Hidem.
  destruct (_injectSsrcGroupForUnifiedSimulcast_parsed (parse (desc_sdp d)))
    as [e|r] eqn:E; [reflexivity|].
  cbn [bindO]. destruct Hidem as (r' & Er' & Hr').
  destruct r as [|s].
  - cbn [stepResult]. unfold _injectSsrcGroupForUnifiedSimulcast.
    now rewrite E.
  - cbn [stepResult afterStep] in *.
    unfold _injectSsrcGroupForUnifiedSimulcast. cbn [desc_sdp].
    rewrite (Hback s eq_refl), Er'. f_equal.
    now apply stepResult_fixed with (s := s).
Qed.

Lemma injectSsrcGroup_present (d : RTCSessionDescription) video groups :
  findMedia "video" (parse (desc_sdp d)) = Some video ->
  m_ssrcGroups video = Some groups ->
  existsb isSimGroup groups = true ->
  (m_simulcast_03 video = false -> write (parse (desc_sdp d)) = desc_sdp d) ->
  match _injectSsrcGroupForUnifiedSimulcast parse write d with
  | Throw _ => m_simulcast_03 video = true /\ m_ssrcs video = None
  | Return d' => d' = d
  end.
Proof.
  intros Ev Eg Hsim Hback.
  unfold _injectSsrcGroupForUnifiedSimulcast,
    _injectSsrcGroupForUnifiedSimulcast_parsed.
  rewrite Ev, Eg, Hsim.
  destruct (m_simulcast_03 video).
  - destruct (m_ssrcs video); [reflexivity|auto].
  - cbn [stepResult]. rewrite (Hback eq_refl). now destruct d.
Qed.

Lemma injectH264_idempotent (d : RTCSessionDescription) :
  (forall s,
      _injectH264IfNotPresent_parsed (parse (desc_sdp d)) = Return (Rewritten s) ->
      parse (write s) = s) ->
  bindO (_injectH264IfNotPresent parse write d)
        (_injectH264IfNotPresent parse write)
  = _injectH264IfNotPresent parse write d.
Proof.
  intros Hback. unfold _injectH264IfNotPresent at 1 3.
  destruct (_injectH264IfNotPresent_parsed (parse (desc_sdp d)))
    as [e|r] eqn:E; [reflexivity|].
  cbn [bindO]. pose proof (injectH264_parsed_idempotent _ _ E) as Hidem.
  destruct r as [|s].
  - cbn [stepResult]. unfold _injectH264IfNotPresent. now rewrite E.
  - cbn [stepResult afterStep] in *. unfold _injectH264IfNotPresent.
    cbn [desc_sdp]. now rewrite (Hback s eq_refl), Hidem.
Qed.

Lemma injectH264_present (d : RTCSessionDescription) videoMLine :
  findMedia "video" (parse (desc_sdp d)) = Some videoMLine ->
  existsb isH264 (m_rtp videoMLine) = true ->
  _injectH264IfNotPresent parse write d = Return d.
Proof.
  intros Ev Eh. unfold _injectH264IfNotPresent.
  now rewrite (injectH264_parsed_present _ _ Ev Eh).
Qed.

End StepsOnText.

(** C8, as the code has it.  [parse] and [write] are those of the SDP model,
    and a step reads back what it wrote when parsing the text that it wrote
    gives the parsed form that the text was written from.  For every
    description, [enforceSendRecv], [_injectSsrcGroupForUnifiedSimulcast]
    and [_injectH264IfNotPresent], each reading back what it wrote, return
    their own result when they are run on it; a step that throws is not run
    again.  [_injectSsrcGroupForUnifiedSimulcast] returns a description
    whose video section has a SIM group with the text it had, the text
    being written back from the parsed form when the section has no
    simulcast attribute, and throws when the section has the attribute and
    no ssrc lines.  [_injectH264IfNotPresent] returns a description whose
    video section has H264 as it is.  For a description made of well-formed
    lines, [_ensureSimulcastGroupIsLast] returns it as it is when its
    simulcast line is already its last ssrc-group line, and returns its own
    result when run on it if the description has one simulcast line at
    most. *)
Theorem rewrite_steps_idempotent
        (parse : text -> Session) (write : Session -> text) :
  (forall options d,
      (forall s,
          enforceSendRecv_parsed options (parse (desc_sdp d)) = Rewritten s ->
          parse (write s) = s) ->
      bindO (enforceSendRecv parse write (Some d) options)
            (fun d' => enforceSendRecv parse write (Some d') options)
      = enforceSendRecv parse write (Some d) options)
  /\ (forall d,
         (forall s,
             _injectSsrcGroupForUnifiedSimulcast_parsed (parse (desc_sdp d))
             = Return (Rewritten s) ->
             parse (write s) = s) ->
         bindO (_injectSsrcGroupForUnifiedSimulcast parse write d)
               (_injectSsrcGroupForUnifiedSimulcast parse write)
         = _injectSsrcGroupForUnifiedSimulcast parse write d)
  /\ (forall d video groups,
         findMedia "video" (parse (desc_sdp d)) = Some video ->
         m_ssrcGroups video = Some groups ->
         existsb isSimGroup groups = true ->
         (m_simulcast_03 video = false ->
          write (parse (desc_sdp d)) = desc_sdp d) ->
         match _injectSsrcGroupForUnifiedSimulcast parse write d with
         | Throw _ => m_simulcast_03 video = true /\ m_ssrcs video = None
         | Return d' => d' = d
         end)
  /\ (forall d,
         (forall s,
             _injectH264IfNotPresent_parsed (parse (desc_sdp d))
             = Return (Rewritten s) ->
             parse (write s) = s) ->
         bindO (_injectH264IfNotPresent parse write d)
               (_injectH264IfNotPresent parse write)
         = _injectH264IfNotPresent parse write d)
  /\ (forall d videoMLine,
         findMedia "video" (parse (desc_sdp d)) = Some videoMLine ->
         existsb isH264 (m_rtp videoMLine) = true ->
         _injectH264IfNotPresent parse write d = Return d)
  /\ (forall ty ls i,
         wfSdp ls = true ->
         simIndex ls = Some i ->
         findLastIndex isGroupLine ls = Some i ->
         _ensureSimulcastGroupIsLast (mkDesc ty (joinLines ls))
         = mkDesc ty (joinLines ls))
  /\ (forall ty ls,
         wfSdp ls = true ->
         (length (filter isSimLine ls) <= 1)%nat ->
         _ensureSimulcastGroupIsLast
           (_ensureSimulcastGroupIsLast (mkDesc ty (joinLines ls)))
         = _ensureSimulcastGroupIsLast (mkDesc ty (joinLines ls))).
Proof.
  split; [|split; [|split; [|split; [|split; [|split]]]]].
  - apply enforceSendRecv_idempotent.
  - apply injectSsrcGroup_idempotent.
  - apply injectSsrcGroup_present.
  - apply injectH264_idempotent.
  - apply injectH264_present.
  - apply ensureSimulcastGroupIsLast_already_last.
  - apply ensureSimulcastGroupIsLast_idempotent.
Qed.

Lemma rewrite_steps_idempotent_witness :
  let d := mkDesc "offer" (T "recvonly") in
  let d' := mkDesc "offer" (T "sendrecv") in
  enforceSendRecv ofDirectionText directionText (Some d) noOptions = Return d'
  /\ enforceSendRecv ofDirectionText directionText (Some d') noOptions
     = Return d'
  /\ _ensureSimulcastGroupIsLast
       (_ensureSimulcastGroupIsLast (mkDesc "offer" (joinLines sampleLines)))
     = _ensureSimulcastGroupIsLast (mkDesc "offer" (joinLines sampleLines)).
Proof.
  cbv zeta.
  destruct (rewrite_steps_idempotent ofDirectionText directionText)
    as (Hsendrecv & _ & _ & _ & _ & _ & Hsim).
  assert (enforceSendRecv ofDirectionText directionText
                          (Some (mkDesc "offer" (T "recvonly"))) noOptions
          = Return (mkDesc "offer" (T "sendrecv"))) as Hfirst by reflexivity.
  split; [exact Hfirst|]. split.
  - specialize (Hsendrecv noOptions (mkDesc "offer" (T "recvonly"))).
    rewrite Hfirst in Hsendrecv. apply Hsendrecv.
    intros s H. vm_compute in H. injection H as <-. reflexivity.
  - apply (Hsim "offer"%string sampleLines); [reflexivity|].
    vm_compute. lia.
Defined.

(** Where a step changes its own result, changes what it should leave, or
    does not return.  With two simulcast lines a second run of
    [_ensureSimulcastGroupIsLast] moves the other one; with line ends that
    are not CR LF and one simulcast line a second run undoes part of what
    the first did.  With [a=ssrc-group] inside the line after a simulcast
    line that is the last group line, the step moves the line, and a second
    run cuts that line up; with [m=video] inside a line of the section
    before, the step moves the simulcast line of that section although the
    one of the video section is the last group line.
    [_injectSsrcGroupForUnifiedSimulcast] throws on a video section that has
    a simulcast attribute and a SIM group, and no ssrc lines. *)
Lemma rewrite_steps_not_idempotent :
  (wfSdp twoSimLines = true
   /\ _ensureSimulcastGroupIsLast
        (_ensureSimulcastGroupIsLast (mkDesc "offer" (joinLines twoSimLines)))
      <> _ensureSimulcastGroupIsLast (mkDesc "offer" (joinLines twoSimLines)))
  /\ _ensureSimulcastGroupIsLast
       (_ensureSimulcastGroupIsLast (mkDesc "offer" lineFeedVideo))
     <> _ensureSimulcastGroupIsLast (mkDesc "offer" lineFeedVideo)
  /\ (simIndex simLastMidLineGroup = Some 3%nat
      /\ findLastIndex isGroupLine simLastMidLineGroup = Some 3%nat
      /\ length (filter isSimLine simLastMidLineGroup) = 1%nat
      /\ _ensureSimulcastGroupIsLast
           (mkDesc "offer" (joinLines simLastMidLineGroup))
         = mkDesc "offer"
             (joinLines
                [T "v=0"; T "m=video 9 RTP/SAVPF 100";
                 T "a=ssrc-group:FID 1 3"; T "a=label:a=ssrc-group:SIM 7 8";
                 T "a=ssrc-group:SIM 1 2"])
      /\ _ensureSimulcastGroupIsLast
           (_ensureSimulcastGroupIsLast
              (mkDesc "offer" (joinLines simLastMidLineGroup)))
         = mkDesc "offer"
             (joinLines
                [T "v=0"; T "m=video 9 RTP/SAVPF 100";
                 T "a=ssrc-group:FID 1 3"; T "a=label:a=ssrc-group:SIM 1 2";
                 T "a=ssrc-group:SIM 7 8"]))
  /\ (simIndex simLastMidLineVideo = Some 6%nat
      /\ findLastIndex isGroupLine simLastMidLineVideo = Some 6%nat
      /\ _ensureSimulcastGroupIsLast
           (mkDesc "offer" (joinLines simLastMidLineVideo))
         = mkDesc "offer"
             (joinLines
                [T "v=0"; T "m=audio 9 RTP/SAVPF 111"; T "a=label:m=video";
                 T "m=video 9 RTP/SAVPF 100"; T "a=ssrc-group:FID 1 3";
                 T "a=ssrc-group:SIM 1 2"; T "a=ssrc-group:SIM 7 8"]))
  /\ (exists video groups,
         findMedia "video" simulcastWithoutSsrcs = Some video
         /\ m_ssrcGroups video = Some groups
         /\ existsb isSimGroup groups = true
         /\ _injectSsrcGroupForUnifiedSimulcast
              (fun _ => simulcastWithoutSsrcs) (fun _ => [])
              (mkDesc "offer" [])
            = Throw "TypeError: video.ssrcs is undefined").
Proof.
  split; [split; [reflexivity|exact ensureSimulcastGroupIsLast_twoSim]|].
  split.
  - intros H. apply (f_equal desc_sdp) in H. apply text_eqb_eq in H.
    vm_compute in H. discriminate H.
  - split; [vm_compute; repeat split; reflexivity|].
    split; [vm_compute; repeat split; reflexivity|].
    eexists. eexists. repeat split; reflexivity.
Qed.
(* ===================================================================== *)
(** * Maps with string keys                                               *)
(* ===================================================================== *)

Section StringMap.

Context {V : Type}.
Implicit Types (m : JsMap.t string V) (k : string) (v : V).

Lemma get_set_same m k v : JsMap.get String.eqb (JsMap.set String.eqb m k v) k = Some v.
Proof.
  induction m as [|[k' v'] m IH]; simpl.
  - now rewrite String.eqb_refl.
  - destruct (String.eqb k' k) eqn:E; simpl; now rewrite E.
Qed.

Lemma get_set_other m k k' v :
  k <> k' ->
  JsMap.get String.eqb (JsMap.set String.eqb m k v) k' = JsMap.get String.eqb m k'.
Proof.
  intros Hne. induction m as [|[k0 v0] m IH]; simpl.
  - destruct (String.eqb k k') eqn:E; [|reflexivity].
    apply String.eqb_eq in E. contradiction.
  - destruct (String.eqb k0 k) eqn:E; simpl.
    + apply String.eqb_eq in E. subst k0.
      destruct (String.eqb k k') eqn:E'; [|reflexivity].
      apply String.eqb_eq in E'. contradiction.
    + now rewrite IH.
Qed.

Lemma get_None_keys m k : JsMap.get String.eqb m k = None -> ~ In k (JsMap.keys m).
Proof.
  induction m as [|[k' v'] m IH]; simpl; intros H; [tauto|].
  destruct (String.eqb k' k) eqn:E; [discriminate|].
  apply String.eqb_neq in E. intros [Hk|Hk]; [contradiction|]. now apply IH.
Qed.

Lemma keys_set m k v :
  JsMap.keys (JsMap.set String.eqb m k v)
  = match JsMap.get String.eqb m k with
    | Some _ => JsMap.keys m
    | None => JsMap.keys m ++ [k]
    end.
Proof.
  induction m as [|[k' v'] m IH]; simpl; [reflexivity|].
  destruct (String.eqb k' k) eqn:E; simpl; [reflexivity|].
  rewrite IH. now destruct (JsMap.get String.eqb m k).
Qed.

Lemma NoDup_keys_set m k v :
  NoDup (JsMap.keys m) -> NoDup (JsMap.keys (JsMap.set String.eqb m k v)).
Proof.
  intros H. rewrite keys_set.
  destruct (JsMap.get String.eqb m k) eqn:E; [assumption|].
  apply NoDup_app; [assumption|repeat constructor; tauto|].
  intros x Hx [Hk|[]]. subst x. now apply (get_None_keys m k).
Qed.

Lemma Forall_set (P : string * V -> Prop) m k v :
  Forall P m -> P (k, v) ->
  (forall k' v', String.eqb k' k = true -> P (k, v) -> P (k', v)) ->
  Forall P (JsMap.set String.eqb m k v).
Proof.
  intros Hm Hkv Hk. induction Hm as [|[k' v'] m Hx Hm IH]; simpl.
  - now constructor.
  - destruct (String.eqb k' k) eqn:E; constructor; auto.
Qed.

Lemma get_In m k v : JsMap.get String.eqb m k = Some v -> In (k, v) m.
Proof.
  induction m as [|[k' v'] m IH]; simpl; intros H; [discriminate|].
  destruct (String.eqb k' k) eqn:E.
  - apply String.eqb_eq in E. injection H as ->. left. congruence.
  - right. auto.
Qed.


End StringMap.

(* ===================================================================== *)
(** * The table of remote tracks                                          *)
(* ===================================================================== *)



Lemma wfRemoteTracks_set m endpoint inner :
  wfRemoteTracks m -> NoDup (JsMap.keys inner) ->
  wfRemoteTracks (JsMap.set String.eqb m endpoint inner).
Proof.
  intros [Hk Hin] Hi. split; [now apply NoDup_keys_set|].
  apply Forall_set; auto.
Qed.

Lemma wfRemoteTracks_get m endpoint inner :
  wfRemoteTracks m -> JsMap.get String.eqb m endpoint = Some inner ->
  NoDup (JsMap.keys inner).
Proof.
  intros [_ Hin] H. apply get_In in H. rewrite Forall_forall in Hin.
  exact (Hin _ H).
Qed.

Lemma remoteTrackAt_set m endpoint inner kind :
  remoteTrackAt (JsMap.set String.eqb m endpoint inner) endpoint kind
  = JsMap.get String.eqb inner kind.
Proof. unfold remoteTrackAt. now rewrite get_set_same. Qed.

Lemma createRemoteTrack_wf
      (t : TPC) (ownerEndpointId : string) (stream track : nat)
      (mediaType : string) (videoType : option string) (ssrc : Z)
      (muted : bool) :
  wfRemoteTracks (remoteTracks t) ->
  wfRemoteTracks
    (remoteTracks (_createRemoteTrack t ownerEndpointId stream track mediaType
                                      videoType ssrc muted)).
Proof.
  intros Hwf. unfold _createRemoteTrack.
  destruct (JsMap.get String.eqb (remoteTracks t) ownerEndpointId)
    as [inner|] eqn:Eo.
  - assert (NoDup (JsMap.keys inner)) as Hi
      by (eapply wfRemoteTracks_get; eauto).
    destruct (JsMap.get String.eqb inner mediaType) as [existing|].
    + destruct (rt_track existing =? track)%nat; cbn; [assumption|].
      apply wfRemoteTracks_set; [assumption|now apply NoDup_keys_set].
    + cbn. apply wfRemoteTracks_set; [assumption|now apply NoDup_keys_set].
  - cbn. apply wfRemoteTracks_set; [|repeat constructor; tauto].
    apply wfRemoteTracks_set; [assumption|constructor].
Qed.


(* ===================================================================== *)
(** * Finding a track by its SSRC                                         *)
(* ===================================================================== *)

Lemma find_first {A} (f : A -> bool) (pre post : list A) (x : A) :
  f x = true -> (forall y, In y pre -> f y = false) ->
  find f (pre ++ x :: post) = Some x.
Proof.
  intros Hx Hpre. induction pre as [|y pre IH]; simpl.
  - now rewrite Hx.
  - rewrite (Hpre y) by now left. apply IH. intros z Hz. apply Hpre. now right.
Qed.

Lemma find_none_iff {A} (f : A -> bool) (l : list A) :
  (forall y, In y l -> f y = false) -> find f l = None.
Proof.
  induction l as [|x l IH]; simpl; intros H; [reflexivity|].
  rewrite (H x) by now left. apply IH. intros y Hy. apply H. now right.
Qed.

(** The tracks that [getRemoteTracks()] lists are the tracks that the table
    of remote tracks holds for some endpoint and media kind. *)
Lemma getRemoteTracks_stored (t : TPC) (track : JitsiRemoteTrack) :
  In track (getRemoteTracks t None None)
  <-> exists endpoint kind,
        remoteTrackAt (remoteTracks t) endpoint kind = Some track.
Proof.
  unfold getRemoteTracks, remoteTrackAt. cbn [truthy negb orb].
  rewrite in_flat_map. split.
  - intros (endpoint & _ & H). exists endpoint.
    destruct (JsMap.get String.eqb (remoteTracks t) endpoint) as [inner|];
      [|contradiction].
    apply in_flat_map in H. destruct H as (kind & _ & H). exists kind.
    destruct (JsMap.get String.eqb inner kind) as [found|]; [|contradiction].
    destruct H as [<-|[]]. reflexivity.
  - intros (endpoint & kind & H). exists endpoint.
    destruct (JsMap.get String.eqb (remoteTracks t) endpoint) as [inner|] eqn:E;
      [|discriminate].
    split.
    + apply get_In in E. apply (in_map fst) in E. exact E.
    + apply in_flat_map. exists kind. split.
      * apply get_In in H. apply (in_map fst) in H. exact H.
      * rewrite H. now left.
Qed.

(** C10. [getTrackBySSRC] throws for an argument that is not a number,
    whatever the tracks of the peer connection.  For a number it returns the
    first local track whose primary SSRC is the argument; without such a
    local track, a remote track with that SSRC that the table of remote
    tracks holds for some endpoint and media kind; when the table holds no
    track with that SSRC, [null].  It never returns [undefined]. *)
Theorem getTrackBySSRC_result (t : TPC) (ssrc : JsVal) :
  (isNumber ssrc = false ->
   getTrackBySSRC t ssrc
   = Throw ("SSRC " ++ toString ssrc ++ " is not a number"))
  /\ (isNumber ssrc = true ->
      (forall pre localTrack post,
          JsMap.values (localTracks t) = pre ++ localTrack :: post ->
          strictEq (getLocalSSRC t localTrack) ssrc = true ->
          (forall other, In other pre ->
                         strictEq (getLocalSSRC t other) ssrc = false) ->
          getTrackBySSRC t ssrc = Return (LocalTrack localTrack))
      /\ ((forall localTrack,
              In localTrack (JsMap.values (localTracks t)) ->
              strictEq (getLocalSSRC t localTrack) ssrc = false) ->
          match getTrackBySSRC t ssrc with
          | Return (RemoteTrack remoteTrack) =>
              (exists endpoint kind,
                  remoteTrackAt (remoteTracks t) endpoint kind
                  = Some remoteTrack)
              /\ strictEq (JNum (rt_ssrc remoteTrack)) ssrc = true
          | Return NoTrack =>
              forall endpoint kind remoteTrack,
                remoteTrackAt (remoteTracks t) endpoint kind = Some remoteTrack ->
                strictEq (JNum (rt_ssrc remoteTrack)) ssrc = false
          | _ => False
          end))
  /\ getTrackBySSRC t ssrc <> Return UndefinedTrack.
Proof.
  unfold getTrackBySSRC. split; [|split].
  - now intros ->.
  - intros ->. cbn [negb]. split.
    + intros pre lt post Hv Hlt Hpre. rewrite Hv.
      now rewrite (find_first _ pre post lt Hlt Hpre).
    + intros Hnone. rewrite (find_none_iff _ _ Hnone).
      destruct (find _ (getRemoteTracks t None None)) as [rt|] eqn:E.
      * apply find_some in E. destruct E as [Hin Hssrc].
        split; [|exact Hssrc]. now apply getRemoteTracks_stored.
      * intros endpoint kind rt Hrt. apply (find_none _ _ E rt).
        apply getRemoteTracks_stored. eauto.
  - destruct (negb (isNumber ssrc)); [discriminate|].
    destruct (find _ (JsMap.values (localTracks t))); [discriminate|].
    destruct (find _ (getRemoteTracks t None None)); discriminate.
Qed.

Lemma getTrackBySSRC_result_witness :
  getTrackBySSRC tpcWithAlice (JStr "1000")
  = Throw "SSRC 1000 is not a number"
  /\ getTrackBySSRC tpcWithAlice (JNum 1000) = Return (LocalTrack cameraTrack)
  /\ remoteTrackAt (remoteTracks tpcWithAlice) "alice" "audio" = Some aliceAudio
  /\ (exists remoteTrack,
         getTrackBySSRC tpcWithAlice (JNum 5001)
         = Return (RemoteTrack remoteTrack)
         /\ rt_ssrc remoteTrack = 5001
         /\ exists endpoint kind,
              remoteTrackAt (remoteTracks tpcWithAlice) endpoint kind
              = Some remoteTrack)
  /\ getTrackBySSRC tpcWithAlice (JNum 7) = Return NoTrack.
Proof.
  split; [|split; [|split; [reflexivity|split]]].
  - apply (proj1 (getTrackBySSRC_result tpcWithAlice (JStr "1000"))).
    reflexivity.
  - apply (proj1 (proj1 (proj2 (getTrackBySSRC_result tpcWithAlice (JNum 1000)))
                        eq_refl)
             [] cameraTrack []); [reflexivity|reflexivity|].
    intros other [].
  - pose proof (proj2 (proj1 (proj2 (getTrackBySSRC_result tpcWithAlice
                                                           (JNum 5001)))
                             eq_refl)) as H.
    assert (forall localTrack,
               In localTrack (JsMap.values (localTracks tpcWithAlice)) ->
               strictEq (getLocalSSRC tpcWithAlice localTrack) (JNum 5001)
               = false) as Hlocal
      by (intros localTrack [<-|[]]; reflexivity).
    specialize (H Hlocal).
    destruct (getTrackBySSRC tpcWithAlice (JNum 5001))
      as [e|[l|remoteTrack| |]]; try contradiction.
    + destruct H as [Hstored Hssrc]. exists remoteTrack.
      split; [reflexivity|]. split; [|exact Hstored].
      cbn in Hssrc. now apply Z.eqb_eq in Hssrc.
    + specialize (H "alice"%string "audio"%string aliceAudio eq_refl).
      discriminate H.
  - pose proof (proj2 (proj1 (proj2 (getTrackBySSRC_result tpcWithAlice
                                                           (JNum 7)))
                             eq_refl)) as H.
    assert (forall localTrack,
               In localTrack (JsMap.values (localTracks tpcWithAlice)) ->
               strictEq (getLocalSSRC tpcWithAlice localTrack) (JNum 7)
               = false) as Hlocal
      by (intros localTrack [<-|[]]; reflexivity).
    specialize (H Hlocal).
    destruct (getTrackBySSRC tpcWithAlice (JNum 7))
      as [e|[l|remoteTrack| |]]; try contradiction; [|reflexivity].
    destruct H as [(endpoint & kind & Hstored) Hssrc]. exfalso.
    assert (In remoteTrack (getRemoteTracks tpcWithAlice None None)) as Hin
      by (apply getRemoteTracks_stored; eauto).
    destruct Hin as [<-|[]]. discriminate Hssrc.
Defined.
(* ===================================================================== *)
(** * Receive-only SSRCs of a remote description                          *)
(* ===================================================================== *)

Lemma find_andb {A} (f g : A -> bool) (l : list A) :
  find (fun x => f x && g x) l = find g (filter f l).
Proof.
  induction l as [|x l IH]; simpl; [reflexivity|].
  destruct (f x); simpl; [|exact IH].
  destruct (g x); [reflexivity|exact IH].
Qed.

Lemma filter_filter {A} (f g : A -> bool) (l : list A) :
  filter f (filter g l) = filter (fun x => f x && g x) l.
Proof.
  induction l as [|x l IH]; simpl; [reflexivity|].
  destruct (g x); simpl.
  - rewrite andb_true_r. destruct (f x); now rewrite IH.
  - now rewrite andb_false_r.
Qed.

Lemma filter_none {A} (f : A -> bool) (l : list A) :
  (forall x, In x l -> f x = false) -> filter f l = [].
Proof.
  induction l as [|x l IH]; simpl; intros H; [reflexivity|].
  rewrite (H x) by now left. apply IH. intros y Hy. apply H. now right.
Qed.

Lemma dropDefaultMsid_eq (filteredLines : list SsrcLine) (ssrcId : Z) :
  dropDefaultMsid filteredLines ssrcId
  = match cnameLineOf filteredLines ssrcId with
    | None => Throw "TypeError: cnameLine is undefined"
    | Some cnameLine =>
        Return (filter (fun line => negb (hasId ssrcId line)) filteredLines
                ++ [recvonlyLine ssrcId cnameLine])
    end.
Proof. reflexivity. Qed.

Lemma cnameLineOf_Some ssrcLines id c :
  cnameLineOf ssrcLines id = Some c -> hasId id c = true /\ isCname c = true.
Proof.
  intros H. apply find_some in H as [_ H]. now apply andb_true_iff in H.
Qed.

Lemma recvonlyLine_twice id c : recvonlyLine id (recvonlyLine id c) = recvonlyLine id c.
Proof. reflexivity. Qed.

Lemma forEachSsrcId_spec (ssrcLines : list SsrcLine) (ids done : list Z)
      (filteredLines : list SsrcLine) :
  (forall id, In id ids ->
              In id (problematicSsrcIds ssrcLines)
              /\ cnameLineOf ssrcLines id <> None) ->
  roundsDone ssrcLines done filteredLines ->
  exists result,
    forEachSsrcId ids filteredLines = Return result
    /\ roundsDone ssrcLines (rev ids ++ done) result.
Proof.
  revert done filteredLines.
  induction ids as [|s ids IH]; intros done L Hids [Hper Hrest].
  - exists L. split; [reflexivity|]. split; assumption.
  - destruct (Hids s (or_introl eq_refl)) as [HsP Hc].
    destruct (cnameLineOf ssrcLines s) as [c|] eqn:Ec; [clear Hc|congruence].
    destruct (cnameLineOf_Some _ _ _ Ec) as [Hid Hcn].
    apply Z.eqb_eq in Hid.
    assert (cnameLineOf L s = Some c \/ cnameLineOf L s = Some (recvonlyLine s c))
      as Hfound.
    { unfold cnameLineOf at 1 2. rewrite find_andb, Hper.
      destruct (memZ s done).
      - right. unfold keptFor. rewrite Ec. simpl.
        unfold isCname in *. simpl. now rewrite Hcn.
      - left. rewrite <- find_andb. exact Ec. }
    assert (dropDefaultMsid L s
            = Return (filter (fun line => negb (hasId s line)) L
                      ++ [recvonlyLine s c])) as Estep.
    { rewrite dropDefaultMsid_eq. destruct Hfound as [-> | ->]; reflexivity. }
    cbn [forEachSsrcId]. rewrite Estep.
    destruct (IH (s :: done)
                 (filter (fun line => negb (hasId s line)) L
                  ++ [recvonlyLine s c])) as (R & ER & HR).
    + intros id Hid'. apply Hids. now right.
    + split.
      * intros id. rewrite filter_app, filter_filter.
        change (memZ id (s :: done)) with ((id =? s) || memZ id done).
        cbn [filter]. unfold hasId at 3. cbn [recvonlyLine setValue ssrc_id].
        rewrite Hid.
        destruct (Z.eqb_spec s id) as [->|Hne].
        -- rewrite Z.eqb_refl. cbn [orb].
           rewrite filter_none
             by (intros x _; unfold hasId; now destruct (ssrc_id x =? id)).
           unfold keptFor. now rewrite Ec.
        -- assert ((id =? s) = false) as -> by (apply Z.eqb_neq; congruence).
           cbn [orb]. rewrite app_nil_r, <- (Hper id).
           apply filter_ext_in. intros x _. unfold hasId.
           destruct (Z.eqb_spec (ssrc_id x) id) as [->|]; [|reflexivity].
           assert ((id =? s) = false) as -> by (apply Z.eqb_neq; congruence).
           reflexivity.
      * rewrite filter_app, filter_filter, <- Hrest.
        assert (isProblematic ssrcLines (recvonlyLine s c) = true) as Hp.
        { unfold isProblematic, memZ. cbn [recvonlyLine setValue ssrc_id].
          apply existsb_exists. exists s. split; [assumption|].
          rewrite Hid. apply Z.eqb_refl. }
        cbn [filter]. rewrite Hp. cbn [negb]. rewrite app_nil_r.
        apply filter_ext_in. intros x _.
        destruct (isProblematic ssrcLines x) eqn:Ex; [reflexivity|].
        cbn [negb andb]. unfold hasId.
        destruct (Z.eqb_spec (ssrc_id x) s) as [E|]; [|reflexivity].
        exfalso. unfold isProblematic, memZ in Ex.
        assert (existsb (Z.eqb (ssrc_id x)) (problematicSsrcIds ssrcLines) = true)
          as Ht; [|congruence].
        apply existsb_exists. exists s. split; [assumption|now apply Z.eqb_eq].
    + exists R. split; [exact ER|].
      cbn [rev]. now rewrite <- app_assoc.
Qed.

Lemma memZ_In x l : memZ x l = true <-> In x l.
Proof.
  unfold memZ. rewrite existsb_exists. split.
  - intros (y & Hy & E). apply Z.eqb_eq in E. now subst.
  - intros H. exists x. split; [assumption|apply Z.eqb_refl].
Qed.

(** C6, as the code has it. On Chrome above version 70, when every SSRC whose
    [mslabel] is [-] has a [cname] line, [replaceDefaultUnifiedPlanMsid]
    keeps one line for each of these SSRCs, its [cname] line with the value
    [recvonly-<ssrc>], and the lines of the other SSRCs as they are and in
    their order. *)
Theorem replaceDefaultUnifiedPlanMsid_recvonly
        (browser : Browser) (ssrcLines : list SsrcLine) :
  isChrome browser = true ->
  isVersionGreaterThan70 browser = true ->
  (forall id, In id (problematicSsrcIds ssrcLines) ->
              cnameLineOf ssrcLines id <> None) ->
  exists result,
    replaceDefaultUnifiedPlanMsid browser ssrcLines = Return result
    /\ (forall id cnameLine,
           In id (problematicSsrcIds ssrcLines) ->
           cnameLineOf ssrcLines id = Some cnameLine ->
           filter (hasId id) result = [recvonlyLine id cnameLine])
    /\ filter (fun l => negb (isProblematic ssrcLines l)) result
       = filter (fun l => negb (isProblematic ssrcLines l)) ssrcLines.
Proof.
  intros Hc Hv Hcname. unfold replaceDefaultUnifiedPlanMsid.
  rewrite Hc, Hv. cbn [negb orb].
  destruct (forEachSsrcId_spec ssrcLines (problematicSsrcIds ssrcLines) []
                               ssrcLines) as (R & ER & Hper & Hrest).
  - intros id Hid. split; [assumption|now apply Hcname].
  - split; [intros id; reflexivity|reflexivity].
  - exists R. split; [exact ER|]. split; [|exact Hrest].
    intros id c Hid Ec. rewrite Hper, app_nil_r.
    assert (memZ id (rev (problematicSsrcIds ssrcLines)) = true) as ->
      by (apply memZ_In; now apply -> in_rev).
    unfold keptFor. now rewrite Ec.
Qed.

Lemma replaceDefaultUnifiedPlanMsid_recvonly_witness :
  exists result,
    replaceDefaultUnifiedPlanMsid chrome sampleSsrcLines = Return result
    /\ (forall id cnameLine,
           In id (problematicSsrcIds sampleSsrcLines) ->
           cnameLineOf sampleSsrcLines id = Some cnameLine ->
           filter (hasId id) result = [recvonlyLine id cnameLine])
    /\ filter (fun l => negb (isProblematic sampleSsrcLines l)) result
       = filter (fun l => negb (isProblematic sampleSsrcLines l)) sampleSsrcLines.
Proof.
  apply (replaceDefaultUnifiedPlanMsid_recvonly chrome sampleSsrcLines);
    [reflexivity|reflexivity|].
  intros id [<-|[]]. discriminate.
Defined.

(** What the function gives on the sample. *)
Example replaceDefaultUnifiedPlanMsid_sample :
  replaceDefaultUnifiedPlanMsid chrome sampleSsrcLines
  = Return [mkSsrcLine 2 "cname" "c2"; mkSsrcLine 2 "msid" "s2 t2";
            mkSsrcLine 2 "mslabel" "s2"; mkSsrcLine 2 "label" "t2";
            mkSsrcLine 1 "cname" "recvonly-1"].
Proof. vm_compute. reflexivity. Qed.

(** On another browser the list comes back as it is. *)
Lemma replaceDefaultUnifiedPlanMsid_other_browser
      (browser : Browser) (ssrcLines : list SsrcLine) :
  isChrome browser && isVersionGreaterThan70 browser = false ->
  replaceDefaultUnifiedPlanMsid browser ssrcLines = Return ssrcLines.
Proof.
  unfold replaceDefaultUnifiedPlanMsid.
  destruct (isChrome browser), (isVersionGreaterThan70 browser);
    simpl; intros H; [discriminate|reflexivity..].
Qed.

(** So on Firefox all the lines of the receive-only SSRC of the sample
    stay. *)
Lemma replaceDefaultUnifiedPlanMsid_firefox :
  replaceDefaultUnifiedPlanMsid firefox sampleSsrcLines = Return sampleSsrcLines
  /\ In 1 (problematicSsrcIds sampleSsrcLines)
  /\ length (filter (hasId 1) sampleSsrcLines) = 4%nat
  /\ filter (hasId 1) sampleSsrcLines <> [mkSsrcLine 1 "cname" "recvonly-1"].
Proof.
  vm_compute. repeat split; try reflexivity; [now left|discriminate].
Qed.

(* ===================================================================== *)
(** * Deleting from a map with string keys                                *)
(* ===================================================================== *)

Lemma flat_map_ext_In {A B} (f g : A -> list B) (l : list A) :
  (forall a, In a l -> f a = g a) -> flat_map f l = flat_map g l.
Proof.
  induction l as [|x l IH]; simpl; intros H; [reflexivity|].
  rewrite (H x) by now left. f_equal. apply IH. intros a Ha. apply H. now right.
Qed.

Section StringMapDelete.

Context {V : Type}.
Implicit Types (m : JsMap.t string V) (k : string) (v : V).

Lemma get_delete_same m k : JsMap.get String.eqb (mapDelete String.eqb m k) k = None.
Proof.
  induction m as [|[k' v'] m IH]; simpl; [reflexivity|].
  destruct (String.eqb k' k) eqn:E; simpl; [assumption|].
  now rewrite E.
Qed.

Lemma get_delete_other m k k' :
  k <> k' ->
  JsMap.get String.eqb (mapDelete String.eqb m k) k' = JsMap.get String.eqb m k'.
Proof.
  intros Hne. induction m as [|[k0 v0] m IH]; simpl; [reflexivity|].
  destruct (String.eqb k0 k) eqn:E; simpl.
  - apply String.eqb_eq in E. subst k0.
    destruct (String.eqb k k') eqn:E'; [|assumption].
    apply String.eqb_eq in E'. contradiction.
  - now rewrite IH.
Qed.

Lemma delete_absent m k : JsMap.get String.eqb m k = None -> mapDelete String.eqb m k = m.
Proof.
  induction m as [|[k' v'] m IH]; simpl; intros H; [reflexivity|].
  destruct (String.eqb k' k) eqn:E; [discriminate|]. simpl. now rewrite IH.
Qed.

Lemma keys_delete m k :
  JsMap.keys (mapDelete String.eqb m k)
  = filter (fun k' => negb (String.eqb k' k)) (JsMap.keys m).
Proof.
  induction m as [|[k' v'] m IH]; simpl; [reflexivity|].
  destruct (String.eqb k' k); simpl; now rewrite IH.
Qed.

Lemma NoDup_keys_delete m k :
  NoDup (JsMap.keys m) -> NoDup (JsMap.keys (mapDelete String.eqb m k)).
Proof. intros H. rewrite keys_delete. now apply NoDup_filter. Qed.

(** Appending an entry for a new key is what [set] does, and [delete] takes
    it away again. *)
Lemma set_absent m k v :
  JsMap.get String.eqb m k = None -> JsMap.set String.eqb m k v = m ++ [(k, v)].
Proof.
  induction m as [|[k' v'] m IH]; simpl; intros H; [reflexivity|].
  destruct (String.eqb k' k) eqn:E; [discriminate|]. now rewrite IH.
Qed.

Lemma delete_set_absent m k v :
  JsMap.get String.eqb m k = None ->
  mapDelete String.eqb (JsMap.set String.eqb m k v) k = m.
Proof.
  intros H. rewrite (set_absent m k v H). unfold mapDelete.
  rewrite filter_app. simpl. rewrite String.eqb_refl. simpl.
  rewrite app_nil_r. now apply delete_absent.
Qed.

(** With one entry per key, the values read key by key are the values. *)
Lemma get_keys_values m :
  NoDup (JsMap.keys m) ->
  flat_map (fun k => pushed (JsMap.get String.eqb m k)) (JsMap.keys m)
  = JsMap.values m.
Proof.
  induction m as [|[k v] m IH]; simpl; intros H; [reflexivity|].
  inversion H as [|? ? Hn Hm]; subst. rewrite String.eqb_refl. simpl. f_equal.
  rewrite <- (IH Hm). apply flat_map_ext_In. intros k' Hk'.
  destruct (String.eqb k k') eqn:E; [|reflexivity].
  apply String.eqb_eq in E. subst k'. contradiction.
Qed.

Lemma In_values_get m v :
  In v (JsMap.values m) -> NoDup (JsMap.keys m) ->
  exists k, JsMap.get String.eqb m k = Some v.
Proof.
  induction m as [|[k' v'] m IH]; simpl; intros H Hn; [contradiction|].
  inversion Hn as [|? ? Hk Hm]; subst. destruct H as [<-|H].
  - exists k'. now rewrite String.eqb_refl.
  - destruct (IH H Hm) as [k Hg]. exists k.
    destruct (String.eqb k' k) eqn:E; [|assumption].
    apply String.eqb_eq in E. subst k'.
    exfalso. apply Hk. apply get_In in Hg.
    change k with (fst (k, v)). now apply in_map.
Qed.

Lemma get_In_values m k v :
  JsMap.get String.eqb m k = Some v -> In v (JsMap.values m).
Proof.
  intros H. apply get_In in H. change v with (snd (k, v)). now apply in_map.
Qed.

End StringMapDelete.

(* ===================================================================== *)
(** * Reading the table of remote tracks                                  *)
(* ===================================================================== *)

Lemma set_set_same {V} (m : JsMap.t string V) k v v' :
  JsMap.set String.eqb (JsMap.set String.eqb m k v) k v' = JsMap.set String.eqb m k v'.
Proof.
  induction m as [|[k0 v0] m IH]; simpl.
  - now rewrite String.eqb_refl.
  - destruct (String.eqb k0 k) eqn:E; simpl; rewrite E; [reflexivity|].
    now rewrite IH.
Qed.

(** What a loop over the keys of a map collects from the keys that [sel]
    accepts. *)
Lemma flat_map_keys_select {V} (m : JsMap.t string V) (sel : string -> bool) :
  NoDup (JsMap.keys m) ->
  flat_map (fun key => if sel key then pushed (JsMap.get String.eqb m key) else [])
           (JsMap.keys m)
  = map snd (filter (fun '(key, _) => sel key) m).
Proof.
  induction m as [|[k v] m IH]; simpl; intros H; [reflexivity|].
  inversion H as [|? ? Hn Hm]; subst. rewrite String.eqb_refl.
  assert (flat_map
            (fun key => if sel key
                        then pushed (if String.eqb k key then Some v
                                     else JsMap.get String.eqb m key)
                        else [])
            (JsMap.keys m)
          = map snd (filter (fun '(key, _) => sel key) m)) as ->.
  { rewrite <- (IH Hm). apply flat_map_ext_In. intros k' Hk'.
    destruct (String.eqb k k') eqn:E; [|reflexivity].
    apply String.eqb_eq in E. subst k'. contradiction. }
  now destruct (sel k).
Qed.

Lemma filter_key_get {V} (m : JsMap.t string V) (k : string) :
  NoDup (JsMap.keys m) ->
  map snd (filter (fun '(key, _) => String.eqb k key) m)
  = pushed (JsMap.get String.eqb m k).
Proof.
  induction m as [|[k0 v0] m IH]; simpl; intros H; [reflexivity|].
  inversion H as [|? ? Hn Hm]; subst. rewrite (String.eqb_sym k k0).
  destruct (String.eqb k0 k) eqn:E; [|now apply IH].
  apply String.eqb_eq in E. subst k0. simpl. f_equal.
  rewrite (IH Hm).
  destruct (JsMap.get String.eqb m k) eqn:G; [|reflexivity].
  exfalso. apply Hn. apply get_In in G. change k with (fst (k, v)).
  now apply in_map.
Qed.

Lemma truthy_Some (s : string) : s <> EmptyString -> truthy (Some s) = true.
Proof.
  intros H. unfold truthy. destruct (String.eqb s EmptyString) eqn:E; [|reflexivity].
  apply String.eqb_eq in E. contradiction.
Qed.

(** The tracks listed for one endpoint and one media kind. *)
Lemma getRemoteTracks_slot (t : TPC) (endpoint kind : string) :
  wfRemoteTracks (remoteTracks t) ->
  endpoint <> EmptyString -> kind <> EmptyString ->
  getRemoteTracks t (Some endpoint) (Some kind)
  = pushed (remoteTrackAt (remoteTracks t) endpoint kind).
Proof.
  intros Hwf He Hk. unfold getRemoteTracks, remoteTrackAt.
  rewrite (truthy_Some endpoint He), (truthy_Some kind Hk). cbn [negb orb flat_map].
  rewrite app_nil_r.
  destruct (JsMap.get String.eqb (remoteTracks t) endpoint) as [inner|] eqn:E;
    [|reflexivity].
  pose proof (wfRemoteTracks_get _ _ _ Hwf E) as Hi.
  rewrite <- (filter_key_get inner kind Hi).
  now rewrite <- (flat_map_keys_select inner (String.eqb kind) Hi).
Qed.

(** The tracks listed without a filter are the tracks of the table. *)
Lemma getRemoteTracks_all (t : TPC) :
  wfRemoteTracks (remoteTracks t) ->
  getRemoteTracks t None None
  = flat_map (fun inner => JsMap.values inner) (JsMap.values (remoteTracks t)).
Proof.
  intros [Hk Hin]. unfold getRemoteTracks. cbn [truthy negb orb].
  transitivity
    (flat_map (fun endpoint =>
                 flat_map (fun inner => JsMap.values inner)
                          (pushed (JsMap.get String.eqb (remoteTracks t) endpoint)))
              (JsMap.keys (remoteTracks t))).
  - apply flat_map_ext_In. intros endpoint He.
    destruct (JsMap.get String.eqb (remoteTracks t) endpoint) as [inner|] eqn:E;
      [|reflexivity].
    cbn [pushed flat_map]. rewrite app_nil_r.
    apply get_In in E. rewrite Forall_forall in Hin. specialize (Hin _ E).
    cbn in Hin. exact (get_keys_values inner Hin).
  - rewrite <- (get_keys_values (remoteTracks t) Hk).
    generalize (JsMap.keys (remoteTracks t)). intros l.
    induction l as [|e l IH]; simpl; [reflexivity|].
    now rewrite flat_map_app, IH.
Qed.

Lemma getRemoteTracks_all_iff (t : TPC) (track : JitsiRemoteTrack) :
  wfRemoteTracks (remoteTracks t) ->
  In track (getRemoteTracks t None None)
  <-> exists endpoint kind,
        remoteTrackAt (remoteTracks t) endpoint kind = Some track.
Proof.
  intros Hwf. rewrite (getRemoteTracks_all t Hwf), in_flat_map. split.
  - intros (inner & Hi & Ht).
    destruct (In_values_get _ _ Hi (proj1 Hwf)) as [endpoint He].
    pose proof (wfRemoteTracks_get _ _ _ Hwf He) as Hn.
    destruct (In_values_get _ _ Ht Hn) as [kind Hk].
    exists endpoint, kind. unfold remoteTrackAt. now rewrite He.
  - intros (endpoint & kind & H). unfold remoteTrackAt in H.
    destruct (JsMap.get String.eqb (remoteTracks t) endpoint) as [inner|] eqn:E;
      [|discriminate].
    exists inner. split; eapply get_In_values; eauto.
Qed.

(** X1. With one entry per endpoint and media kind, [getRemoteTracks] with
    both arguments gives the track of that slot, or nothing; without
    arguments it lists the tracks of all slots.  An empty endpoint id and an
    empty media type are no filter: they select what a missing argument
    selects. *)
Theorem getRemoteTracks_slots (t : TPC) :
  wfRemoteTracks (remoteTracks t) ->
  (forall endpoint kind,
      endpoint <> EmptyString -> kind <> EmptyString ->
      getRemoteTracks t (Some endpoint) (Some kind)
      = pushed (remoteTrackAt (remoteTracks t) endpoint kind))
  /\ (forall track,
         In track (getRemoteTracks t None None)
         <-> exists endpoint kind,
               remoteTrackAt (remoteTracks t) endpoint kind = Some track)
  /\ (forall mediaType,
         getRemoteTracks t (Some EmptyString) mediaType
         = getRemoteTracks t None mediaType)
  /\ (forall endpointId,
         getRemoteTracks t endpointId (Some EmptyString)
         = getRemoteTracks t endpointId None).
Proof.
  intros Hwf. split; [|split; [|split]].
  - intros endpoint kind. now apply getRemoteTracks_slot.
  - intros track. now apply getRemoteTracks_all_iff.
  - reflexivity.
  - reflexivity.
Qed.

Lemma getRemoteTracks_slots_witness :
  getRemoteTracks tpcWithAlice (Some "alice"%string) (Some "audio"%string)
  = [aliceAudio]
  /\ getRemoteTracks tpcWithAlice (Some "alice"%string) (Some "video"%string) = []
  /\ getRemoteTracks tpcWithAlice (Some EmptyString) (Some "audio"%string)
     = getRemoteTracks tpcWithAlice None (Some "audio"%string).
Proof.
  assert (wfRemoteTracks (remoteTracks tpcWithAlice)) as Hwf
    by (split; repeat constructor; simpl; tauto).
  destruct (getRemoteTracks_slots tpcWithAlice Hwf) as (Hslot & _ & Hall & _).
  split; [|split].
  - rewrite Hslot; [reflexivity|discriminate|discriminate].
  - rewrite Hslot; [reflexivity|discriminate|discriminate].
  - apply Hall.
Defined.

(* ===================================================================== *)
(** * Removing remote tracks                                              *)
(* ===================================================================== *)

Lemma wfRemoteTracks_delete m endpoint :
  wfRemoteTracks m -> wfRemoteTracks (mapDelete String.eqb m endpoint).
Proof.
  intros [Hk Hin]. split; [now apply NoDup_keys_delete|].
  unfold mapDelete. rewrite Forall_forall in *. intros x Hx.
  apply filter_In in Hx. now apply Hin.
Qed.

Lemma remoteTrackAt_delete_same m endpoint kind :
  remoteTrackAt (mapDelete String.eqb m endpoint) endpoint kind = None.
Proof. unfold remoteTrackAt. now rewrite get_delete_same. Qed.

Lemma remoteTrackAt_delete_other m owner endpoint kind :
  owner <> endpoint ->
  remoteTrackAt (mapDelete String.eqb m owner) endpoint kind
  = remoteTrackAt m endpoint kind.
Proof. intros H. unfold remoteTrackAt. now rewrite get_delete_other. Qed.

(** X2. After [removeRemoteTracks(owner)] no slot of [owner] holds a track
    and the slots of the other endpoints are as before.  The call returns
    the audio track and then the video track that [owner] had, emits no
    event, and keeps a table with one entry per endpoint and media kind in
    that form. *)
Theorem removeRemoteTracks_forgets (t : TPC) (owner : string) :
  let removed := fst (removeRemoteTracks t owner) in
  let t' := snd (removeRemoteTracks t owner) in
  (forall kind, remoteTrackAt (remoteTracks t') owner kind = None)
  /\ (forall endpoint kind,
         endpoint <> owner ->
         remoteTrackAt (remoteTracks t') endpoint kind
         = remoteTrackAt (remoteTracks t) endpoint kind)
  /\ removed = pushed (remoteTrackAt (remoteTracks t) owner AUDIO)
               ++ pushed (remoteTrackAt (remoteTracks t) owner VIDEO)
  /\ emitted t' = emitted t
  /\ (wfRemoteTracks (remoteTracks t) ->
      wfRemoteTracks (remoteTracks t')
      /\ (owner <> EmptyString ->
          forall kind,
            kind <> EmptyString ->
            getRemoteTracks t' (Some owner) (Some kind) = [])).
Proof.
  cbv zeta. unfold removeRemoteTracks.
  destruct (JsMap.get String.eqb (remoteTracks t) owner) as [inner|] eqn:E;
    cbn [fst snd].
  - change (remoteTracks (log LogDebug "removed remote tracks"
              (setRemoteTracks (mapDelete String.eqb (remoteTracks t) owner) t)))
      with (mapDelete String.eqb (remoteTracks t) owner).
    split; [|split; [|split; [|split]]].
    + intros kind. apply remoteTrackAt_delete_same.
    + intros endpoint kind Hne. apply remoteTrackAt_delete_other. congruence.
    + unfold remoteTrackAt. now rewrite E.
    + reflexivity.
    + intros Hwf. split; [now apply wfRemoteTracks_delete|].
      intros Ho kind Hk. rewrite getRemoteTracks_slot; try assumption.
      * cbn [log setRemoteTracks remoteTracks].
        now rewrite remoteTrackAt_delete_same.
      * cbn [log setRemoteTracks remoteTracks].
        now apply wfRemoteTracks_delete.
  - change (remoteTracks (log LogDebug "removed remote tracks" t))
      with (remoteTracks t).
    split; [|split; [|split; [|split]]].
    + intros kind. unfold remoteTrackAt. now rewrite E.
    + reflexivity.
    + unfold remoteTrackAt. now rewrite E.
    + reflexivity.
    + intros Hwf. split; [assumption|].
      intros Ho kind Hk. rewrite getRemoteTracks_slot; try assumption.
      cbn [log remoteTracks]. unfold remoteTrackAt. now rewrite E.
Qed.

(** X3. A track created for an endpoint that the table did not know, and
    then removed with [removeRemoteTracks], leaves the table as it was.  The
    call returns the track when its media type is audio or video; a track of
    another media type leaves the table too, but is not returned. *)
Theorem createRemoteTrack_removeRemoteTracks
        (t : TPC) (owner : string) (stream track : nat) (mediaType : string)
        (videoType : option string) (ssrc : Z) (muted : bool) :
  JsMap.get String.eqb (remoteTracks t) owner = None ->
  let t1 := _createRemoteTrack t owner stream track mediaType videoType ssrc
                               muted in
  let remoteTrack := mkRemoteTrack owner stream track mediaType videoType ssrc
                                   muted (isP2P t) in
  remoteTracks (snd (removeRemoteTracks t1 owner)) = remoteTracks t
  /\ fst (removeRemoteTracks t1 owner)
     = if String.eqb mediaType AUDIO || String.eqb mediaType VIDEO
       then [remoteTrack] else [].
Proof.
  intros Habsent. cbv zeta.
  assert (remoteTracks (_createRemoteTrack t owner stream track mediaType
                                           videoType ssrc muted)
          = JsMap.set String.eqb (remoteTracks t) owner
                      [(mediaType,
                        mkRemoteTrack owner stream track mediaType videoType
                                      ssrc muted (isP2P t))]) as Hm.
  { unfold _createRemoteTrack. rewrite Habsent. cbn. now rewrite set_set_same. }
  unfold removeRemoteTracks. rewrite Hm, get_set_same.
  cbn [fst snd log setRemoteTracks remoteTracks]. split.
  - now apply delete_set_absent.
  - cbn [JsMap.get]. unfold AUDIO, VIDEO.
    destruct (String.eqb mediaType "audio") eqn:Ea.
    + apply String.eqb_eq in Ea. subst mediaType. reflexivity.
    + destruct (String.eqb mediaType "video"); reflexivity.
Qed.

Lemma createRemoteTrack_removeRemoteTracks_witness :
  let t1 := _createRemoteTrack tpcWithAlice "bob" 2 20 "video" None 6001 false in
  remoteTracks (snd (removeRemoteTracks t1 "bob")) = remoteTracks tpcWithAlice
  /\ fst (removeRemoteTracks t1 "bob")
     = [mkRemoteTrack "bob" 2 20 "video" None 6001 false false].
Proof.
  apply (createRemoteTrack_removeRemoteTracks
           tpcWithAlice "bob" 2 20 "video" None 6001 false).
  reflexivity.
Defined.

Section RemoteTrackIdFacts.

Variable getStreamId : JitsiRemoteTrack -> option string.
Variable getTrackId : JitsiRemoteTrack -> option string.
Variable getParticipantId : JitsiRemoteTrack -> string.
Variable getType : JitsiRemoteTrack -> string.

Lemma remoteTrackAt_set_other m owner endpoint inner kind :
  owner <> endpoint ->
  remoteTrackAt (JsMap.set String.eqb m owner inner) endpoint kind
  = remoteTrackAt m endpoint kind.
Proof. intros H. unfold remoteTrackAt. now rewrite get_set_other. Qed.

(** The table after [_removeRemoteTrack], when the slot of the track holds
    something. *)
Lemma removeRemoteTrack_table (t : TPC) (toBeRemoved held : JitsiRemoteTrack) :
  remoteTrackAt (remoteTracks t) (getParticipantId toBeRemoved)
                (getType toBeRemoved) = Some held ->
  exists inner,
    JsMap.get String.eqb (remoteTracks t) (getParticipantId toBeRemoved)
    = Some inner
    /\ fst (_removeRemoteTrack getParticipantId getType t toBeRemoved)
       = setRemoteTracks
           (JsMap.set String.eqb (remoteTracks t)
                      (getParticipantId toBeRemoved)
                      (mapDelete String.eqb inner (getType toBeRemoved)))
           t.
Proof.
  intros H. unfold remoteTrackAt in H. unfold _removeRemoteTrack.
  destruct (JsMap.get String.eqb (remoteTracks t) (getParticipantId toBeRemoved))
    as [inner|]; [|discriminate].
  exists inner. split; [reflexivity|]. unfold JsMap.has. now rewrite H.
Qed.

(** X4. In a table with one entry per endpoint and media kind, where every
    track sits in the slot of its own participant and media kind,
    [_removeRemoteTrackById] removes the first track with the two ids: that
    track is listed before and not after, every other track stays listed,
    the track is disposed and [REMOTE_TRACK_REMOVED] is emitted for it, and
    its endpoint stays in the table.  Without such a track the call changes
    nothing and emits nothing. *)
Theorem removeRemoteTrackById_removes
        (t : TPC) (streamId trackId : option string) :
  wfRemoteTracks (remoteTracks t) ->
  ownSlots getParticipantId getType (remoteTracks t) ->
  match _removeRemoteTrackById getStreamId getTrackId getParticipantId getType
                               t streamId trackId with
  | (Some track, t', signals) =>
      looseEqId (getStreamId track) streamId = true
      /\ looseEqId (getTrackId track) trackId = true
      /\ In track (getRemoteTracks t None None)
      /\ ~ In track (getRemoteTracks t' None None)
      /\ (forall other,
             other <> track ->
             In other (getRemoteTracks t None None) ->
             In other (getRemoteTracks t' None None))
      /\ signals = [Disposed track; REMOTE_TRACK_REMOVED track]
      /\ JsMap.keys (remoteTracks t') = JsMap.keys (remoteTracks t)
      /\ wfRemoteTracks (remoteTracks t')
      /\ ownSlots getParticipantId getType (remoteTracks t')
  | (None, t', signals) =>
      t' = t /\ signals = []
      /\ forall track,
           In track (getRemoteTracks t None None) ->
           looseEqId (getStreamId track) streamId
           && looseEqId (getTrackId track) trackId = false
  end.
Proof.
  intros Hwf Hown. unfold _removeRemoteTrackById, _getRemoteTrackById.
  rewrite <- (getRemoteTracks_all t Hwf).
  destruct (find _ (getRemoteTracks t None None)) as [track|] eqn:F.
  - apply find_some in F. destruct F as [Hin Hids].
    apply andb_true_iff in Hids. destruct Hids as [Hs Ht].
    destruct (proj1 (getRemoteTracks_all_iff t track Hwf) Hin)
      as (endpoint & kind & Hat).
    destruct (Hown _ _ _ Hat) as [<- <-].
    destruct (removeRemoteTrack_table t track track Hat) as (inner & Hg & Ht').
    destruct (_removeRemoteTrack getParticipantId getType t track)
      as [t' signals] eqn:R.
    assert (signals = [Disposed track; REMOTE_TRACK_REMOVED track]) as ->
      by (unfold _removeRemoteTrack in R; now injection R as _ <-).
    cbn [fst] in Ht'. subst t'. cbn [setRemoteTracks remoteTracks].
    set (p := getParticipantId track) in *. set (k := getType track) in *.
    set (m' := JsMap.set String.eqb (remoteTracks t) p
                         (mapDelete String.eqb inner k)).
    assert (NoDup (JsMap.keys inner)) as Hi
      by (eapply wfRemoteTracks_get; eauto).
    assert (wfRemoteTracks m') as Hwf'
      by (apply wfRemoteTracks_set; [assumption|now apply NoDup_keys_delete]).
    assert (forall e k0,
               remoteTrackAt m' e k0
               = if String.eqb p e && String.eqb k k0 then None
                 else remoteTrackAt (remoteTracks t) e k0) as Hat'.
    { intros e k0. unfold m'. destruct (String.eqb p e) eqn:Ee.
      - apply String.eqb_eq in Ee. subst e. rewrite remoteTrackAt_set.
        unfold remoteTrackAt. rewrite Hg. cbn [andb].
        destruct (String.eqb k k0) eqn:Ek.
        + apply String.eqb_eq in Ek. subst k0. apply get_delete_same.
        + apply get_delete_other. now apply String.eqb_neq.
      - cbn [andb]. apply remoteTrackAt_set_other. now apply String.eqb_neq. }
    set (t' := setRemoteTracks m' t).
    assert (remoteTracks t' = m') as Hm' by reflexivity.
    assert (forall x,
               In x (getRemoteTracks t' None None)
               <-> exists e k0, remoteTrackAt m' e k0 = Some x) as Hall'.
    { intros x. rewrite <- Hm'. apply getRemoteTracks_all_iff.
      now rewrite Hm'. }
    split; [assumption|]. split; [assumption|]. split; [assumption|].
    split; [|split; [|split; [|split; [|split]]]].
    + intros Hin'. apply Hall' in Hin'. destruct Hin' as (e & k0 & H).
      rewrite Hat' in H.
      destruct (String.eqb p e && String.eqb k k0) eqn:Ec; [discriminate|].
      destruct (Hown _ _ _ H) as [He Hk]. fold p in He. fold k in Hk.
      subst e k0. now rewrite !String.eqb_refl in Ec.
    + intros other Hne Ho. apply Hall'.
      destruct (proj1 (getRemoteTracks_all_iff t other Hwf) Ho)
        as (e & k0 & H).
      exists e, k0. rewrite Hat'.
      destruct (String.eqb p e && String.eqb k k0) eqn:Ec; [|assumption].
      apply andb_true_iff in Ec. destruct Ec as [Ee Ek].
      apply String.eqb_eq in Ee, Ek. subst e k0. congruence.
    + reflexivity.
    + unfold m'. rewrite keys_set. now rewrite Hg.
    + exact Hwf'.
    + intros e k0 x H. rewrite Hat' in H.
      destruct (String.eqb p e && String.eqb k k0); [discriminate|].
      now apply Hown.
  - repeat split. intros track Hin. exact (find_none _ _ F track Hin).
Qed.

End RemoteTrackIdFacts.

Lemma ownSlots_entries
      (getParticipantId getType : JitsiRemoteTrack -> string)
      (m : JsMap.t string (JsMap.t string JitsiRemoteTrack)) :
  Forall (fun '(endpoint, inner) =>
            Forall (fun '(kind, track) =>
                      getParticipantId track = endpoint /\ getType track = kind)
                   inner)
         m ->
  ownSlots getParticipantId getType m.
Proof.
  intros H endpoint kind track Hat. unfold remoteTrackAt in Hat.
  destruct (JsMap.get String.eqb m endpoint) as [inner|] eqn:E; [|discriminate].
  apply get_In in E. apply get_In in Hat. rewrite Forall_forall in H.
  specialize (H _ E). cbn in H. rewrite Forall_forall in H.
  exact (H _ Hat).
Qed.

Lemma removeRemoteTrackById_removes_witness :
  let t := _createRemoteTrack tpcWithAlice "bob" 2 20 "video" None 6001 false in
  let streamOf track := Some (showZ (Z.of_nat (rt_stream track))) in
  let trackOf track := Some (showZ (Z.of_nat (rt_track track))) in
  match _removeRemoteTrackById streamOf trackOf rt_ownerEndpointId rt_mediaType
                               t (Some "1"%string) (Some "10"%string) with
  | (Some track, t', signals) =>
      track = aliceAudio
      /\ ~ In track (getRemoteTracks t' None None)
      /\ signals = [Disposed track; REMOTE_TRACK_REMOVED track]
      /\ JsMap.keys (remoteTracks t') = ["alice"; "bob"]%string
  | (None, _, _) => False
  end.
Proof.
  cbv zeta.
  pose proof (removeRemoteTrackById_removes
                (fun track => Some (showZ (Z.of_nat (rt_stream track))))
                (fun track => Some (showZ (Z.of_nat (rt_track track))))
                rt_ownerEndpointId rt_mediaType
                (_createRemoteTrack tpcWithAlice "bob" 2 20 "video" None 6001
                                    false)
                (Some "1"%string) (Some "10"%string)) as H.
  assert (wfRemoteTracks
            (remoteTracks (_createRemoteTrack tpcWithAlice "bob" 2 20 "video"
                                              None 6001 false))) as Hwf.
  { split; repeat constructor; simpl; try tauto.
    intros [H0|[]]. discriminate. }
  assert (ownSlots rt_ownerEndpointId rt_mediaType
            (remoteTracks (_createRemoteTrack tpcWithAlice "bob" 2 20 "video"
                                              None 6001 false))) as Hown.
  { apply ownSlots_entries. repeat constructor. }
  specialize (H Hwf Hown).
  destruct (_removeRemoteTrackById _ _ _ _ _ _ _) as [[[track|] t'] signals] eqn:R.
  - assert (track = aliceAudio) as Ht
      by (vm_compute in R; injection R as R1 R2 R3; now rewrite <- R1).
    destruct H as (_ & _ & _ & Hnot & _ & Hsig & Hkeys & _).
    repeat split; assumption.
  - vm_compute in R. discriminate.
Defined.

(* ===================================================================== *)
(** * Maps with keys of any kind                                          *)
(* ===================================================================== *)

Section MapFacts.

Context {K V : Type} (eqb : K -> K -> bool).
Hypothesis eqb_eq : forall a b, eqb a b = true <-> a = b.
Implicit Types (m : JsMap.t K V) (k : K) (v : V).

Lemma eqb_same k : eqb k k = true.
Proof. now apply eqb_eq. Qed.

Lemma eqb_differ k k' : k <> k' -> eqb k k' = false.
Proof.
  intros H. destruct (eqb k k') eqn:E; [|reflexivity].
  apply eqb_eq in E. contradiction.
Qed.

Lemma mget_set_same m k v : JsMap.get eqb (JsMap.set eqb m k v) k = Some v.
Proof.
  induction m as [|[k' v'] m IH]; simpl.
  - now rewrite eqb_same.
  - destruct (eqb k' k) eqn:E; simpl; now rewrite E.
Qed.

Lemma mget_set_other m k k' v :
  k <> k' -> JsMap.get eqb (JsMap.set eqb m k v) k' = JsMap.get eqb m k'.
Proof.
  intros Hne. induction m as [|[k0 v0] m IH]; simpl.
  - now rewrite eqb_differ.
  - destruct (eqb k0 k) eqn:E; simpl.
    + apply eqb_eq in E. subst k0. now rewrite eqb_differ.
    + now rewrite IH.
Qed.

Lemma mkeys_set m k v :
  JsMap.keys (JsMap.set eqb m k v)
  = match JsMap.get eqb m k with
    | Some _ => JsMap.keys m
    | None => JsMap.keys m ++ [k]
    end.
Proof.
  induction m as [|[k' v'] m IH]; simpl; [reflexivity|].
  destruct (eqb k' k) eqn:E; simpl; [reflexivity|].
  rewrite IH. now destruct (JsMap.get eqb m k).
Qed.

Lemma mget_In m k v : JsMap.get eqb m k = Some v -> In (k, v) m.
Proof.
  induction m as [|[k' v'] m IH]; simpl; intros H; [discriminate|].
  destruct (eqb k' k) eqn:E.
  - apply eqb_eq in E. injection H as ->. left. congruence.
  - right. auto.
Qed.

Lemma mget_None_keys m k : JsMap.get eqb m k = None -> ~ In k (JsMap.keys m).
Proof.
  induction m as [|[k' v'] m IH]; simpl; intros H; [tauto|].
  destruct (eqb k' k) eqn:E; [discriminate|].
  intros [Hk|Hk]; [subst k'; now rewrite eqb_same in E|]. now apply IH.
Qed.

Lemma mget_Some_keys m k v : JsMap.get eqb m k = Some v -> In k (JsMap.keys m).
Proof.
  intros H. apply mget_In in H. change k with (fst (k, v)). now apply in_map.
Qed.

Lemma mNoDup_keys_set m k v :
  NoDup (JsMap.keys m) -> NoDup (JsMap.keys (JsMap.set eqb m k v)).
Proof.
  intros H. rewrite mkeys_set.
  destruct (JsMap.get eqb m k) eqn:E; [assumption|].
  apply NoDup_app; [assumption|repeat constructor; tauto|].
  intros x Hx [Hk|[]]. subst x. now apply (mget_None_keys m k).
Qed.

Lemma mget_delete_same m k : JsMap.get eqb (mapDelete eqb m k) k = None.
Proof.
  induction m as [|[k' v'] m IH]; simpl; [reflexivity|].
  destruct (eqb k' k) eqn:E; simpl; [assumption|]. now rewrite E.
Qed.

Lemma mget_delete_other m k k' :
  k <> k' -> JsMap.get eqb (mapDelete eqb m k) k' = JsMap.get eqb m k'.
Proof.
  intros Hne. induction m as [|[k0 v0] m IH]; simpl; [reflexivity|].
  destruct (eqb k0 k) eqn:E; simpl.
  - apply eqb_eq in E. subst k0. now rewrite eqb_differ.
  - now rewrite IH.
Qed.

End MapFacts.

(* ===================================================================== *)
(** * A remote track is found by its SSRC                                 *)
(* ===================================================================== *)

(** The slots after [_createRemoteTrack], when the notification is not for
    the track that the slot holds. *)
Lemma createRemoteTrack_slots
      (t : TPC) (owner : string) (stream track : nat) (mediaType : string)
      (videoType : option string) (ssrc : Z) (muted : bool) :
  (forall existing,
      remoteTrackAt (remoteTracks t) owner mediaType = Some existing ->
      rt_track existing <> track) ->
  forall endpoint kind,
    remoteTrackAt
      (remoteTracks (_createRemoteTrack t owner stream track mediaType
                                        videoType ssrc muted))
      endpoint kind
    = if String.eqb owner endpoint && String.eqb mediaType kind
      then Some (mkRemoteTrack owner stream track mediaType videoType ssrc
                               muted (isP2P t))
      else remoteTrackAt (remoteTracks t) endpoint kind.
Proof.
  intros Hnew endpoint kind.
  set (new := mkRemoteTrack owner stream track mediaType videoType ssrc muted
                            (isP2P t)).
  assert (exists inner,
             remoteTracks (_createRemoteTrack t owner stream track mediaType
                                              videoType ssrc muted)
             = JsMap.set String.eqb (remoteTracks t) owner
                         (JsMap.set String.eqb inner mediaType new)
             /\ forall k, JsMap.get String.eqb inner k
                          = remoteTrackAt (remoteTracks t) owner k)
    as (inner & -> & Hinner).
  { unfold _createRemoteTrack, remoteTrackAt in *.
    destruct (JsMap.get String.eqb (remoteTracks t) owner) as [inner|] eqn:E.
    - exists inner. split; [|reflexivity].
      destruct (JsMap.get String.eqb inner mediaType) as [existing|] eqn:Ex.
      + specialize (Hnew existing eq_refl). apply Nat.eqb_neq in Hnew.
        rewrite Hnew. reflexivity.
      + reflexivity.
    - exists []. split; [|reflexivity]. cbn. now rewrite set_set_same. }
  destruct (String.eqb owner endpoint) eqn:Ee; cbn [andb].
  - apply String.eqb_eq in Ee. subst endpoint. rewrite remoteTrackAt_set.
    destruct (String.eqb mediaType kind) eqn:Ek.
    + apply String.eqb_eq in Ek. subst kind. apply get_set_same.
    + rewrite get_set_other by now apply String.eqb_neq. apply Hinner.
  - apply String.eqb_neq in Ee. unfold remoteTrackAt.
    now rewrite get_set_other.
Qed.

Lemma getLocalSSRC_remoteTracks (t t' : TPC) (localTrack : JitsiLocalTrack) :
  localSSRCs t' = localSSRCs t ->
  getLocalSSRC t' localTrack = getLocalSSRC t localTrack.
Proof. intros H. unfold getLocalSSRC, _getSSRC. now rewrite H. Qed.

Lemma createRemoteTrack_local
      (t : TPC) (owner : string) (stream track : nat) (mediaType : string)
      (videoType : option string) (ssrc : Z) (muted : bool) :
  let t' := _createRemoteTrack t owner stream track mediaType videoType ssrc
                               muted in
  localTracks t' = localTracks t /\ localSSRCs t' = localSSRCs t.
Proof.
  cbv zeta. unfold _createRemoteTrack.
  destruct (JsMap.get String.eqb (remoteTracks t) owner) as [inner|].
  - destruct (JsMap.get String.eqb inner mediaType) as [existing|].
    + destruct (rt_track existing =? track)%nat; now split.
    + now split.
  - now split.
Qed.

(** X5. A remote track that [_createRemoteTrack] has just put into the
    table is what [getTrackBySSRC] returns for its SSRC, when no local track
    has that primary SSRC and no other remote track has that SSRC. *)
Theorem createRemoteTrack_getTrackBySSRC
        (t : TPC) (owner : string) (stream track : nat) (mediaType : string)
        (videoType : option string) (ssrc : Z) (muted : bool) :
  wfRemoteTracks (remoteTracks t) ->
  (forall existing,
      remoteTrackAt (remoteTracks t) owner mediaType = Some existing ->
      rt_track existing <> track) ->
  (forall localTrack,
      In localTrack (JsMap.values (localTracks t)) ->
      getLocalSSRC t localTrack <> JNum ssrc) ->
  (forall remoteTrack,
      In remoteTrack (getRemoteTracks t None None) ->
      rt_ssrc remoteTrack <> ssrc) ->
  getTrackBySSRC
    (_createRemoteTrack t owner stream track mediaType videoType ssrc muted)
    (JNum ssrc)
  = Return (RemoteTrack (mkRemoteTrack owner stream track mediaType videoType
                                       ssrc muted (isP2P t))).
Proof.
  intros Hwf Hnew Hlocal Hremote.
  set (t' := _createRemoteTrack t owner stream track mediaType videoType ssrc
                                muted).
  set (new := mkRemoteTrack owner stream track mediaType videoType ssrc muted
                            (isP2P t)).
  destruct (createRemoteTrack_local t owner stream track mediaType videoType
                                    ssrc muted) as [Hlt Hls].
  fold t' in Hlt, Hls.
  assert (wfRemoteTracks (remoteTracks t')) as Hwf'
    by now apply createRemoteTrack_wf.
  pose proof (createRemoteTrack_slots t owner stream track mediaType videoType
                                      ssrc muted Hnew) as Hat.
  fold t' new in Hat.
  unfold getTrackBySSRC. cbn [isNumber negb].
  rewrite find_none_iff.
  2:{ intros localTrack Hin. rewrite Hlt in Hin.
      rewrite (getLocalSSRC_remoteTracks t t' localTrack Hls).
      specialize (Hlocal localTrack Hin).
      destruct (getLocalSSRC t localTrack) as [| |b|n| |s]; try reflexivity.
      cbn. apply Z.eqb_neq. congruence. }
  destruct (find _ (getRemoteTracks t' None None)) as [found|] eqn:F.
  - apply find_some in F. destruct F as [Hin Hs]. cbn in Hs.
    apply Z.eqb_eq in Hs.
    apply (getRemoteTracks_all_iff t' found Hwf') in Hin.
    destruct Hin as (endpoint & kind & H). rewrite Hat in H.
    destruct (String.eqb owner endpoint && String.eqb mediaType kind).
    + now injection H as <-.
    + exfalso. apply (Hremote found); [|assumption].
      apply (getRemoteTracks_all_iff t found Hwf). eauto.
  - exfalso. assert (In new (getRemoteTracks t' None None)) as Hin.
    { apply (getRemoteTracks_all_iff t' new Hwf'). exists owner, mediaType.
      rewrite Hat. now rewrite !String.eqb_refl. }
    pose proof (find_none _ _ F new Hin) as Hs. cbn in Hs.
    now rewrite Z.eqb_refl in Hs.
Qed.

Lemma createRemoteTrack_getTrackBySSRC_witness :
  getTrackBySSRC
    (_createRemoteTrack tpcWithAlice "bob" 2 20 "video" None 6001 false)
    (JNum 6001)
  = Return (RemoteTrack (mkRemoteTrack "bob" 2 20 "video" None 6001 false false)).
Proof.
  apply (createRemoteTrack_getTrackBySSRC
           tpcWithAlice "bob" 2 20 "video" None 6001 false).
  - split; repeat constructor; simpl; tauto.
  - intros existing H. discriminate H.
  - intros localTrack [<-|[]]. discriminate.
  - intros remoteTrack [<-|[]]. discriminate.
Defined.

(* ===================================================================== *)
(** * The direction of a media kind                                       *)
(* ===================================================================== *)

Lemma filter_length_existsb {A} (f : A -> bool) (l : list A) :
  negb (length (filter f l) =? 0)%nat = existsb f l.
Proof.
  induction l as [|x l IH]; simpl; [reflexivity|].
  destruct (f x); simpl; [reflexivity|assumption].
Qed.

(** The transfer flag that [_getDesiredMediaDirection] reads for a media
    kind. *)
Lemma getDesiredMediaDirection_flag (t : TPC) (kind : string) (active : bool) :
  kind <> EmptyString ->
  (if String.eqb kind AUDIO then audioTransferActive t
   else if String.eqb kind VIDEO then videoTransferActive t else true)
  = active ->
  _getDesiredMediaDirection t kind
  = Return (if active
            then if existsb (fun track => String.eqb (lt_type track) kind)
                            (JsMap.values (localTracks t))
                 then "sendrecv" else "recvonly"
            else "inactive")%string.
Proof.
  intros Hk Hflag. unfold _getDesiredMediaDirection. rewrite Hflag.
  destruct active; [|reflexivity].
  unfold hasAnyTracksOfType, getLocalTracks.
  destruct (String.eqb kind EmptyString) eqn:E.
  - apply String.eqb_eq in E. contradiction.
  - cbn [bindO]. now rewrite filter_length_existsb.
Qed.

Lemma existsb_type (t : TPC) (kind : string) :
  existsb (fun track => String.eqb (lt_type track) kind)
          (JsMap.values (localTracks t)) = true
  <-> exists track, In track (getLocalTracks t None) /\ lt_type track = kind.
Proof.
  unfold getLocalTracks. rewrite existsb_exists. split.
  - intros (x & Hx & E). apply String.eqb_eq in E. eauto.
  - intros (x & Hx & E). exists x. split; [assumption|]. now apply String.eqb_eq.
Qed.

(** X6. [setAudioTransferActive] returns whether the flag changed, so that a
    second call with the same value returns [false].  After it the desired
    direction of audio is [inactive] when the flag is off, whatever the local
    tracks; when it is on, [sendrecv] with a local audio track and
    [recvonly] without one.  The desired direction of video is as before.
    [setVideoTransferActive] does the same for video. *)
Theorem setTransferActive_direction (t : TPC) (active : bool) :
  let direction (set : TPC -> bool -> bool * TPC) (kind other : string) :=
    let changed := fst (set t active) in
    let t' := snd (set t active) in
    fst (set t' active) = false
    /\ (active = false ->
        _getDesiredMediaDirection t' kind = Return "inactive"%string)
    /\ (active = true ->
        (exists track, In track (getLocalTracks t None) /\ lt_type track = kind) ->
        _getDesiredMediaDirection t' kind = Return "sendrecv"%string)
    /\ (active = true ->
        (forall track, In track (getLocalTracks t None) -> lt_type track <> kind) ->
        _getDesiredMediaDirection t' kind = Return "recvonly"%string)
    /\ _getDesiredMediaDirection t' other = _getDesiredMediaDirection t other in
  (fst (setAudioTransferActive t active) = false
   <-> audioTransferActive t = active)
  /\ (fst (setVideoTransferActive t active) = false
      <-> videoTransferActive t = active)
  /\ direction setAudioTransferActive AUDIO VIDEO
  /\ direction setVideoTransferActive VIDEO AUDIO.
Proof.
  cbv zeta.
  assert (forall a b, negb (Bool.eqb a b) = false <-> a = b) as Hflag.
  { intros a b. rewrite negb_false_iff. apply Bool.eqb_true_iff. }
  assert (forall (t' : TPC) (kind : string) (flag : bool),
             kind <> EmptyString ->
             localTracks t' = localTracks t ->
             (if String.eqb kind AUDIO then audioTransferActive t'
              else if String.eqb kind VIDEO then videoTransferActive t'
                   else true) = flag ->
             (flag = false ->
              _getDesiredMediaDirection t' kind = Return "inactive"%string)
             /\ (flag = true ->
                 (exists track,
                     In track (getLocalTracks t None) /\ lt_type track = kind) ->
                 _getDesiredMediaDirection t' kind = Return "sendrecv"%string)
             /\ (flag = true ->
                 (forall track,
                     In track (getLocalTracks t None) -> lt_type track <> kind) ->
                 _getDesiredMediaDirection t' kind = Return "recvonly"%string))
    as Hdir.
  { intros t' kind flag Hk Hl Hf.
    rewrite (getDesiredMediaDirection_flag t' kind flag Hk Hf), Hl.
    split; [|split].
    - now intros ->.
    - intros -> Hex. apply existsb_type in Hex. now rewrite Hex.
    - intros -> Hall.
      destruct (existsb _ (JsMap.values (localTracks t))) eqn:E; [|reflexivity].
      apply existsb_type in E. destruct E as (x & Hx & E).
      now destruct (Hall x Hx). }
  split; [apply Hflag|]. split; [apply Hflag|]. split.
  - split; [cbn; now destruct active|].
    destruct (Hdir (snd (setAudioTransferActive t active)) AUDIO active)
      as (H1 & H2 & H3); [discriminate|reflexivity|reflexivity|].
    repeat split; assumption.
  - split; [cbn; now destruct active|].
    destruct (Hdir (snd (setVideoTransferActive t active)) VIDEO active)
      as (H1 & H2 & H3); [discriminate|reflexivity|reflexivity|].
    repeat split; assumption.
Qed.

(* ===================================================================== *)
(** * Adjusting the directions of a local description                     *)
(* ===================================================================== *)

Lemma directionIsNot_false (d : string) (m : MediaLine) :
  directionIsNot d m = false <-> m_direction m = Some d.
Proof.
  unfold directionIsNot. destruct (m_direction m) as [d'|].
  - rewrite negb_false_iff, String.eqb_eq. split; congruence.
  - split; discriminate.
Qed.

Lemma selectMedia_directed_same (kind d : string) (s : Session) (m' : MediaLine) :
  selectMedia kind (directed kind d s) = Some m' -> m_direction m' = Some d.
Proof.
  unfold directed. destruct (selectMedia kind s) as [m|] eqn:E.
  - destruct (directionIsNot d m) eqn:D.
    + unfold selectMedia, findMedia, updateMedia in *. cbn [s_media].
      rewrite find_updateFirst_same by apply keepsType_setDirection.
      rewrite E. cbn. now intros [= <-].
    + rewrite E. intros [= <-]. now apply directionIsNot_false.
  - rewrite E. discriminate.
Qed.

Lemma selectMedia_directed_other (kind kind' d : string) (s : Session) :
  String.eqb kind kind' = false ->
  selectMedia kind' (directed kind d s) = selectMedia kind' s.
Proof.
  intros Hk. unfold directed. destruct (selectMedia kind s) as [m|]; [|reflexivity].
  destruct (directionIsNot d m); [|reflexivity].
  unfold selectMedia, findMedia, updateMedia. cbn [s_media].
  now apply find_updateFirst_other; [apply keepsType_setDirection|].
Qed.

Lemma map_type_updateFirst (kind : string) f ms :
  keepsType f -> map m_type (updateFirst kind f ms) = map m_type ms.
Proof.
  intros Hf. induction ms as [|m ms IH]; simpl; [reflexivity|].
  destruct (String.eqb (m_type m) kind); simpl; [now rewrite Hf|now rewrite IH].
Qed.

Lemma directed_shape (kind d : string) (s : Session) :
  map m_type (s_media (directed kind d s)) = map m_type (s_media s)
  /\ s_session (directed kind d s) = s_session s.
Proof.
  unfold directed. destruct (selectMedia kind s) as [m|]; [|now split].
  destruct (directionIsNot d m); [|now split].
  split; [|reflexivity]. apply map_type_updateFirst, keepsType_setDirection.
Qed.

(** A description whose section has the desired direction stays. *)
Lemma directed_fixed (kind d : string) (s : Session) :
  (forall m, selectMedia kind s = Some m -> m_direction m = Some d) ->
  directed kind d s = s.
Proof.
  intros H. unfold directed. destruct (selectMedia kind s) as [m|]; [|reflexivity].
  specialize (H m eq_refl). apply directionIsNot_false in H. now rewrite H.
Qed.

(** What [_adjustLocalMediaDirection] returns, for the two desired
    directions. *)
Lemma adjustLocalMediaDirection_parsed_directed
      (t : TPC) (s : Session) (dA dV : string) :
  _getDesiredMediaDirection t AUDIO = Return dA ->
  _getDesiredMediaDirection t VIDEO = Return dV ->
  exists t' modified,
    _adjustLocalMediaDirection_parsed t s
    = Return (t', directed VIDEO dV (directed AUDIO dA s), modified)
    /\ audioTransferActive t' = audioTransferActive t
    /\ videoTransferActive t' = videoTransferActive t
    /\ localTracks t' = localTracks t
    /\ (modified = false -> directed VIDEO dV (directed AUDIO dA s) = s)
    /\ (modified = true ->
        (exists m, selectMedia AUDIO s = Some m /\ directionIsNot dA m = true)
        \/ (exists m, selectMedia VIDEO s = Some m /\ directionIsNot dV m = true)).
Proof.
  intros HA HV.
  assert (forall l msg, _getDesiredMediaDirection (log l msg t) VIDEO = Return dV)
    as HV' by (intros; exact HV).
  remember (directed VIDEO dV (directed AUDIO dA s)) as s' eqn:Hs'.
  assert (selectMedia VIDEO (directed AUDIO dA s) = selectMedia VIDEO s)
    as Hsel by now apply selectMedia_directed_other.
  unfold directed in Hs', Hsel. unfold _adjustLocalMediaDirection_parsed.
  unfold AUDIO, VIDEO in *.
  destruct (selectMedia "audio" s) as [a|] eqn:Ea.
  - rewrite HA. cbn [bindO]. destruct (directionIsNot dA a) eqn:Da; cbn [bindO].
    + rewrite Hsel in *.
      destruct (selectMedia "video" s) as [v|] eqn:Ev.
      * rewrite HV'. cbn [bindO]. destruct (directionIsNot dV v) eqn:Dv;
          subst s'; eexists; eexists; (split; [reflexivity|]);
            repeat split; try discriminate; intros _; left; eauto.
      * subst s'; eexists; eexists; (split; [reflexivity|]);
          repeat split; try discriminate; intros _; left; eauto.
    + destruct (selectMedia "video" s) as [v|] eqn:Ev.
      * rewrite HV. cbn [bindO]. destruct (directionIsNot dV v) eqn:Dv;
          subst s'; eexists; eexists; (split; [reflexivity|]);
            repeat split; try discriminate; intros _; right; eauto.
      * subst s'; eexists; eexists; (split; [reflexivity|]);
          repeat split; discriminate.
  - cbn [bindO].
    destruct (selectMedia "video" s) as [v|] eqn:Ev.
    + rewrite HV'. cbn [bindO]. destruct (directionIsNot dV v) eqn:Dv;
        subst s'; eexists; eexists; (split; [reflexivity|]);
          repeat split; try discriminate; intros _; right; eauto.
    + subst s'; eexists; eexists; (split; [reflexivity|]);
        repeat split; discriminate.
Qed.

Lemma getDesiredMediaDirection_returns (t : TPC) (kind : string) :
  kind <> EmptyString -> exists d, _getDesiredMediaDirection t kind = Return d.
Proof.
  intros Hk. eexists. now apply getDesiredMediaDirection_flag.
Qed.

Lemma getDesiredMediaDirection_same (t t' : TPC) (kind : string) :
  audioTransferActive t' = audioTransferActive t ->
  videoTransferActive t' = videoTransferActive t ->
  localTracks t' = localTracks t ->
  _getDesiredMediaDirection t' kind = _getDesiredMediaDirection t kind.
Proof.
  intros Ha Hv Hl.
  unfold _getDesiredMediaDirection, hasAnyTracksOfType, getLocalTracks.
  now rewrite Ha, Hv, Hl.
Qed.

(** X7. [_adjustLocalMediaDirection] does not throw.  In the description it
    leaves, the audio section and the video section, where there is one, have
    the direction that [_getDesiredMediaDirection] gives for their kind; the
    kinds of the sections and the session part are as before.  It reports a
    modification exactly when the description changed, and run again on its
    own result it changes nothing and reports none. *)
Theorem adjustLocalMediaDirection_parsed_desired (t : TPC) (s : Session) :
  exists t' s' modified,
    _adjustLocalMediaDirection_parsed t s = Return (t', s', modified)
    /\ (forall kind m',
           kind = AUDIO \/ kind = VIDEO ->
           selectMedia kind s' = Some m' ->
           exists d, _getDesiredMediaDirection t kind = Return d
                     /\ m_direction m' = Some d)
    /\ map m_type (s_media s') = map m_type (s_media s)
    /\ s_session s' = s_session s
    /\ (modified = false <-> s' = s)
    /\ exists t'', _adjustLocalMediaDirection_parsed t' s'
                   = Return (t'', s', false).
Proof.
  destruct (getDesiredMediaDirection_returns t AUDIO) as [dA HA]; [discriminate|].
  destruct (getDesiredMediaDirection_returns t VIDEO) as [dV HV]; [discriminate|].
  destruct (adjustLocalMediaDirection_parsed_directed t s dA dV HA HV)
    as (t' & modified & Hrun & Hfa & Hfv & Hlt & Hsame & Hmod).
  set (s' := directed VIDEO dV (directed AUDIO dA s)) in *.
  assert (forall m', selectMedia AUDIO s' = Some m' -> m_direction m' = Some dA)
    as HdA.
  { intros m'. unfold s'. rewrite selectMedia_directed_other by reflexivity.
    apply selectMedia_directed_same. }
  assert (forall m', selectMedia VIDEO s' = Some m' -> m_direction m' = Some dV)
    as HdV by (intros m'; apply selectMedia_directed_same).
  exists t', s', modified. split; [exact Hrun|]. split; [|split; [|split; [|split]]].
  - intros kind m' [->| ->] Hsel; eauto.
  - unfold s'. now rewrite (proj1 (directed_shape _ _ _)), (proj1 (directed_shape _ _ _)).
  - unfold s'. now rewrite (proj2 (directed_shape _ _ _)), (proj2 (directed_shape _ _ _)).
  - split; [exact Hsame|]. intros Hs.
    destruct modified; [|reflexivity]. exfalso.
    destruct (Hmod eq_refl) as [(m & Hm & D)|(m & Hm & D)].
    + rewrite <- Hs in Hm. apply HdA in Hm.
      apply directionIsNot_false in Hm. congruence.
    + rewrite <- Hs in Hm. apply HdV in Hm.
      apply directionIsNot_false in Hm. congruence.
  - assert (_getDesiredMediaDirection t' AUDIO = Return dA) as HA'
      by (rewrite <- HA; now apply getDesiredMediaDirection_same).
    assert (_getDesiredMediaDirection t' VIDEO = Return dV) as HV'
      by (rewrite <- HV; now apply getDesiredMediaDirection_same).
    destruct (adjustLocalMediaDirection_parsed_directed t' s' dA dV HA' HV')
      as (t'' & modified' & Hrun' & _ & _ & _ & _ & Hmod').
    assert (directed AUDIO dA s' = s') as Hfix1 by now apply directed_fixed.
    assert (directed VIDEO dV s' = s') as Hfix2 by now apply directed_fixed.
    rewrite Hfix1, Hfix2 in Hrun'. exists t''.
    destruct modified'; [|exact Hrun']. exfalso.
    destruct (Hmod' eq_refl) as [(m & Hm & D)|(m & Hm & D)].
    + apply HdA in Hm. apply directionIsNot_false in Hm. congruence.
    + apply HdV in Hm. apply directionIsNot_false in Hm. congruence.
Qed.

(* ===================================================================== *)
(** * The SSRCs generated for a stream                                    *)
(* ===================================================================== *)

Section GenerateSsrcFacts.

Variable generateSsrc : nat -> Z.

Lemma generateSsrcs_length (k n : nat) :
  length (generateSsrcs generateSsrc k n) = n.
Proof. revert k. induction n as [|n IH]; intros k; simpl; [reflexivity|]. now rewrite IH. Qed.

Lemma generateSsrcs_app (k a b : nat) :
  generateSsrcs generateSsrc k (a + b)
  = generateSsrcs generateSsrc k a ++ generateSsrcs generateSsrc (k + a) b.
Proof.
  revert k. induction a as [|a IH]; intros k; simpl.
  - now rewrite Nat.add_0_r.
  - rewrite IH. now rewrite <- Nat.add_succ_comm.
Qed.

Lemma In_generateSsrcs (s : Z) (k n : nat) :
  In s (generateSsrcs generateSsrc k n)
  <-> exists i, (k <= i < k + n)%nat /\ s = generateSsrc i.
Proof.
  revert k. induction n as [|n IH]; intros k; simpl.
  - split; [contradiction|]. intros (i & Hi & _). lia.
  - rewrite IH. split.
    + intros [<-|(i & Hi & ->)]; [exists k|exists i]; split; auto; lia.
    + intros (i & Hi & ->). destruct (Nat.eq_dec i k) as [->|Hne]; [now left|].
      right. exists i. split; [lia|reflexivity].
Qed.

Lemma NoDup_generateSsrcs (k n : nat) :
  (forall i j, generateSsrc i = generateSsrc j -> i = j) ->
  NoDup (generateSsrcs generateSsrc k n).
Proof.
  intros Hinj. revert k. induction n as [|n IH]; intros k; simpl; constructor.
  - rewrite In_generateSsrcs. intros (i & Hi & E). apply Hinj in E. lia.
  - apply IH.
Qed.

(** The RTX loop appends one fresh SSRC per primary, and a FID group that
    pairs the two. *)
Lemma addRtx_spec (primaries : list Z) (k : nat) (ssrcInfo : TPCSSRCInfo) :
  addRtx generateSsrc primaries k ssrcInfo
  = (mkSSRCInfo
       (si_ssrcs ssrcInfo ++ generateSsrcs generateSsrc k (length primaries))
       (si_groups ssrcInfo
        ++ map (fun '(primarySsrc, rtxSsrc) =>
                  mkGroupInfo [primarySsrc; rtxSsrc] "FID")
               (combine primaries
                        (generateSsrcs generateSsrc k (length primaries))))
       (si_msid ssrcInfo),
     (k + length primaries)%nat).
Proof.
  revert k ssrcInfo. induction primaries as [|p ps IH]; intros k info; simpl.
  - rewrite !app_nil_r, Nat.add_0_r. now destruct info.
  - rewrite IH. cbn [si_ssrcs si_groups si_msid].
    rewrite <- !app_assoc. cbn [app]. now rewrite Nat.add_succ_r.
Qed.

(** The number of primary SSRCs of a new stream, and whether each gets an
    RTX SSRC. *)
Lemma generateNewStreamSSRCInfo_layout
      (browser : Browser) (t : TPC) (track : JitsiLocalTrack) :
  let k := ssrcsGenerated t in
  let primaries :=
    if isSimulcastOn browser t
       && (negb (capScreenshareBitrate (options t))
           || (capScreenshareBitrate (options t) && hasCameraTrack t))
    then 3%nat else 1%nat in
  let rtx := negb (disableRtx (options t)) && supportsRtx browser in
  let n := (primaries + if rtx then primaries else 0)%nat in
  let info := fst (generateNewStreamSSRCInfo generateSsrc browser t track) in
  let t' := snd (generateNewStreamSSRCInfo generateSsrc browser t track) in
  si_ssrcs info = generateSsrcs generateSsrc k n
  /\ (forall g s, In g (si_groups info) -> In s (gi_ssrcs g) ->
                  In s (si_ssrcs info))
  /\ ssrcsGenerated t' = (k + n)%nat
  /\ localSSRCs t' = JsMap.set Z.eqb (localSSRCs t) (rtcId track) info
  /\ options t' = options t /\ localTracks t' = localTracks t.
Proof.
  cbv zeta. unfold generateNewStreamSSRCInfo.
  set (t0 := match _getSSRC t (rtcId track) with
             | Some _ => log LogError "Will overwrite local SSRCs for track" t
             | None => t
             end).
  assert (ssrcsGenerated t0 = ssrcsGenerated t /\ options t0 = options t
          /\ localSSRCs t0 = localSSRCs t /\ localTracks t0 = localTracks t
          /\ isSimulcastOn browser t0 = isSimulcastOn browser t
          /\ hasCameraTrack t0 = hasCameraTrack t)
    as (Hk & Ho & Hs & Hl & Hsim & Hcam)
    by (unfold t0; destruct (_getSSRC t (rtcId track)); repeat split).
  rewrite Hk, Ho, Hsim, Hcam, Hs.
  set (k := ssrcsGenerated t).
  destruct (isSimulcastOn browser t
            && (negb (capScreenshareBitrate (options t))
                || (capScreenshareBitrate (options t) && hasCameraTrack t)));
    destruct (negb (disableRtx (options t)) && supportsRtx browser);
    rewrite ?addRtx_spec;
    cbn [fst snd si_ssrcs si_groups si_msid setLocalSSRCs ssrcsGenerated
         localSSRCs options localTracks length SIMULCAST_LAYERS];
    (split; [|split; [|split; [|split; [|split]]]]);
    try reflexivity; try assumption;
    try (rewrite generateSsrcs_app; reflexivity);
    try (cbn; rewrite ?Nat.add_0_r; reflexivity).
  all: try (unfold SIMULCAST_LAYERS; cbn [length generateSsrcs]; lia).
  all: intros g s Hg Hs'; unfold SIMULCAST_LAYERS in *; cbn in Hg;
    repeat (destruct Hg as [<-|Hg]; [cbn in Hs' |- *; tauto|]); contradiction.
Qed.

End GenerateSsrcFacts.

(** X8. The SSRCs that [generateNewStreamSSRCInfo] stores for a track are
    the next values of [SDPUtil.generateSsrc], in the order generated, and
    every group refers to SSRCs of the track only.  The info is what
    [_getSSRC] then gives for the track, its first SSRC is what
    [getLocalSSRC] gives, and the infos of the other tracks are as before.
    When the generator never repeats a value, no SSRC occurs twice in the
    info, and none of them is among the SSRCs generated for the next
    stream. *)
Theorem generateNewStreamSSRCInfo_fresh
        (generateSsrc : nat -> Z) (browser : Browser) (t : TPC)
        (track : JitsiLocalTrack) :
  (forall i j, generateSsrc i = generateSsrc j -> i = j) ->
  let info := fst (generateNewStreamSSRCInfo generateSsrc browser t track) in
  let t' := snd (generateNewStreamSSRCInfo generateSsrc browser t track) in
  let n := length (si_ssrcs info) in
  si_ssrcs info = generateSsrcs generateSsrc (ssrcsGenerated t) n
  /\ (1 <= n)%nat
  /\ ssrcsGenerated t' = (ssrcsGenerated t + n)%nat
  /\ (forall g s, In g (si_groups info) -> In s (gi_ssrcs g) ->
                  In s (si_ssrcs info))
  /\ _getSSRC t' (rtcId track) = Some info
  /\ (forall id, id <> rtcId track -> _getSSRC t' id = _getSSRC t id)
  /\ getLocalSSRC t' track = JNum (generateSsrc (ssrcsGenerated t))
  /\ NoDup (si_ssrcs info)
  /\ forall track2 s,
       In s (si_ssrcs info) ->
       ~ In s (si_ssrcs
                 (fst (generateNewStreamSSRCInfo generateSsrc browser t' track2))).
Proof.
  intros Hinj. cbv zeta.
  destruct (generateNewStreamSSRCInfo_layout generateSsrc browser t track)
    as (Hs & Hg & Hk & Hm & _).
  set (info := fst (generateNewStreamSSRCInfo generateSsrc browser t track)) in *.
  set (t' := snd (generateNewStreamSSRCInfo generateSsrc browser t track)) in *.
  match type of Hs with
  | _ = generateSsrcs _ _ ?x => set (n := x) in *
  end.
  assert (length (si_ssrcs info) = n) as Hn
    by (rewrite Hs; apply generateSsrcs_length).
  assert (1 <= n)%nat as Hpos.
  { unfold n. destruct (isSimulcastOn browser t && _);
      destruct (negb (disableRtx (options t)) && supportsRtx browser); simpl; lia. }
  rewrite Hn. split; [exact Hs|]. split; [exact Hpos|]. split; [exact Hk|].
  split; [exact Hg|].
  assert (_getSSRC t' (rtcId track) = Some info) as Hget.
  { unfold _getSSRC. rewrite Hm. apply mget_set_same. exact Z.eqb_eq. }
  split; [exact Hget|]. split; [|split; [|split]].
  - intros id Hne. unfold _getSSRC. rewrite Hm.
    apply mget_set_other; [exact Z.eqb_eq|congruence].
  - unfold getLocalSSRC. rewrite Hget, Hs.
    destruct n as [|n']; [lia|reflexivity].
  - rewrite Hs. now apply NoDup_generateSsrcs.
  - intros track2 s Hin Hin2.
    destruct (generateNewStreamSSRCInfo_layout generateSsrc browser t' track2)
      as (Hs2 & _).
    rewrite Hs2, Hk in Hin2. rewrite Hs in Hin.
    apply In_generateSsrcs in Hin, Hin2.
    destruct Hin as (i & Hi & ->). destruct Hin2 as (j & Hj & E).
    apply Hinj in E. lia.
Qed.

Lemma generateNewStreamSSRCInfo_fresh_witness :
  let info := fst (generateNewStreamSSRCInfo sampleSsrc chrome
                                             (emptyTPC noOptions) cameraTrack) in
  let t' := snd (generateNewStreamSSRCInfo sampleSsrc chrome
                                           (emptyTPC noOptions) cameraTrack) in
  NoDup (si_ssrcs info)
  /\ getLocalSSRC t' cameraTrack = JNum (sampleSsrc 0%nat)
  /\ forall s,
       In s (si_ssrcs info) ->
       ~ In s (si_ssrcs (fst (generateNewStreamSSRCInfo sampleSsrc chrome t'
                                                        desktopTrack))).
Proof.
  destruct (generateNewStreamSSRCInfo_fresh
              sampleSsrc chrome (emptyTPC noOptions) cameraTrack)
    as (_ & _ & _ & _ & _ & _ & Hl & Hn & Hd).
  - intros i j H. unfold sampleSsrc in H. lia.
  - split; [exact Hn|]. split; [exact Hl|]. intros s. apply Hd.
Defined.

(* ===================================================================== *)
(** * The window of statistics                                            *)
(* ===================================================================== *)

Lemma tl_skipn {A} (k : nat) (l : list A) : tl (skipn k l) = skipn (S k) l.
Proof.
  revert l. induction k as [|k IH]; intros l; destruct l; simpl; auto.
Qed.

Lemma skipn_app_le {A} (k : nat) (l l' : list A) :
  (k <= length l)%nat -> skipn k (l ++ l') = skipn k l ++ l'.
Proof.
  intros H. rewrite skipn_app. now replace (k - length l)%nat with 0%nat by lia.
Qed.

Section StatFacts.

Context {V : Type}.
Variable maxstats : option Z.

(** Pushing a value and shifting when the limit is exceeded keeps the last
    elements. *)
Lemma kept_push {A} (l : list A) (x : A) :
  (if exceeds (length (kept maxstats l ++ [x])) maxstats
   then tl (kept maxstats l ++ [x]) else kept maxstats l ++ [x])
  = kept maxstats (l ++ [x]).
Proof.
  unfold kept, exceeds. destruct maxstats as [m|]; [|reflexivity].
  rewrite !length_app, length_skipn. cbn [length].
  destruct (Z.gtb_spec (Z.of_nat (length l - (length l - Z.to_nat m) + 1)) m)
    as [H|H].
  - assert (Z.to_nat m <= length l)%nat as Hle by lia.
    rewrite <- (skipn_app_le _ l [x]) by lia. rewrite tl_skipn. f_equal. lia.
  - assert (length l < Z.to_nat m)%nat as Hlt by lia.
    replace (length l - Z.to_nat m)%nat with 0%nat by lia.
    replace (length l + 1 - Z.to_nat m)%nat with 0%nat by lia.
    reflexivity.
Qed.

Lemma kept_length {A B} (l : list A) (l' : list B) :
  length l = length l' -> length (kept maxstats l) = length (kept maxstats l').
Proof.
  intros H. unfold kept. destruct maxstats; [|assumption].
  rewrite !length_skipn. lia.
Qed.

Lemma last_snoc {A} (l : list A) (x d : A) : last (l ++ [x]) d = x.
Proof. apply last_last. Qed.

(** One more arrival for an entry. *)
Lemma entryOf_step (stats : Stats V) (pre : list (Arrival V)) (a : Arrival V) :
  JsMap.get String.eqb stats (statId (arr_reportId a) (arr_name a))
  = entryOf maxstats pre ->
  JsMap.get String.eqb
            (_processStat maxstats stats (arr_now a) (arr_reportId a)
                          (arr_name a) (arr_value a))
            (statId (arr_reportId a) (arr_name a))
  = entryOf maxstats (pre ++ [a]).
Proof.
  intros H.
  assert (forall s : Stat V,
             stat_values s = kept maxstats (map arr_value pre) ->
             stat_times s = kept maxstats (map arr_now pre) ->
             (if exceeds (length (stat_values s ++ [arr_value a])) maxstats
              then (tl (stat_values s ++ [arr_value a]),
                    tl (stat_times s ++ [arr_now a]))
              else (stat_values s ++ [arr_value a], stat_times s ++ [arr_now a]))
             = (kept maxstats (map arr_value (pre ++ [a])),
                kept maxstats (map arr_now (pre ++ [a])))) as Hpush.
  { intros s Hv Ht. rewrite !map_app. cbn [map].
    rewrite <- !kept_push, Hv, Ht.
    assert (length (kept maxstats (map arr_value pre) ++ [arr_value a])
            = length (kept maxstats (map arr_now pre) ++ [arr_now a])) as <-.
    { rewrite !length_app. f_equal. apply kept_length. now rewrite !length_map. }
    now destruct (exceeds _ maxstats). }
  assert (kept maxstats (@nil V) = [] /\ kept maxstats (@nil Z) = [])
    as [Hnil1 Hnil2]
    by (unfold kept; destruct maxstats; now rewrite ?skipn_nil).
  unfold _processStat. rewrite H.
  destruct pre as [|first pre']; cbn [entryOf].
  - rewrite (Hpush (mkStat (arr_now a) (arr_now a) [] []))
      by (cbn; now rewrite ?Hnil1, ?Hnil2).
    now rewrite get_set_same.
  - rewrite (Hpush (mkStat _ _ _ _)) by reflexivity.
    rewrite get_set_same. cbn [stat_startTime app entryOf].
    change (first :: pre' ++ [a]) with ((first :: pre') ++ [a]).
    now rewrite last_snoc.
Qed.

Lemma processStat_other (stats : Stats V) (id : string) (a : Arrival V) :
  statId (arr_reportId a) (arr_name a) <> id ->
  JsMap.get String.eqb
            (_processStat maxstats stats (arr_now a) (arr_reportId a)
                          (arr_name a) (arr_value a)) id
  = JsMap.get String.eqb stats id.
Proof.
  intros H. unfold _processStat.
  destruct (if exceeds _ maxstats then _ else _) as [values times].
  now apply get_set_other.
Qed.

Lemma processStats_entry (id : string) (arrivals pre : list (Arrival V))
      (stats : Stats V) :
  JsMap.get String.eqb stats id = entryOf maxstats pre ->
  JsMap.get String.eqb (processStats maxstats stats arrivals) id
  = entryOf maxstats (pre ++ arrivalsFor id arrivals).
Proof.
  revert pre stats. induction arrivals as [|a arrivals IH]; intros pre stats H.
  - cbn. now rewrite app_nil_r.
  - cbn [processStats fold_left arrivalsFor filter].
    fold (processStats maxstats
            (_processStat maxstats stats (arr_now a) (arr_reportId a)
                          (arr_name a) (arr_value a)) arrivals).
    fold (arrivalsFor id arrivals).
    destruct (String.eqb (statId (arr_reportId a) (arr_name a)) id) eqn:E.
    + apply String.eqb_eq in E.
      change (pre ++ a :: arrivalsFor id arrivals)
        with (pre ++ [a] ++ arrivalsFor id arrivals).
      rewrite app_assoc. apply IH. subst id. now apply entryOf_step.
    + apply String.eqb_neq in E. apply IH.
      now rewrite processStat_other.
Qed.

End StatFacts.

(** X9. The entry of [this.stats] for a report and a name depends on the
    arrivals for that entry only.  Starting without the entry, it holds the
    time of the first arrival as [startTime], the time of the last one as
    [endTime], and the values and times of the last [maxstats] arrivals, in
    the order of arrival; all of them when [maxstats] is [undefined], none
    when it is [0] or less.  Without an arrival there is no entry. *)
Theorem processStats_window
        {V : Type} (maxstats : option Z) (stats : Stats V) (id : string)
        (arrivals : list (Arrival V)) :
  JsMap.get String.eqb stats id = None ->
  JsMap.get String.eqb (processStats maxstats stats arrivals) id
  = match arrivalsFor id arrivals with
    | [] => None
    | (first :: _) as mine =>
        Some (mkStat (arr_now first) (arr_now (last mine first))
                     (match maxstats with
                      | Some m =>
                          skipn (length mine - Z.to_nat m) (map arr_value mine)
                      | None => map arr_value mine
                      end)
                     (match maxstats with
                      | Some m =>
                          skipn (length mine - Z.to_nat m) (map arr_now mine)
                      | None => map arr_now mine
                      end))
    end.
Proof.
  intros H. rewrite (processStats_entry maxstats id arrivals [] stats H).
  cbn [app]. destruct (arrivalsFor id arrivals) as [|first mine]; [reflexivity|].
  unfold entryOf, kept. destruct maxstats; [|reflexivity].
  now rewrite !length_map.
Qed.

Lemma processStats_window_witness :
  JsMap.get String.eqb
    (processStats (Some 2) []
       [mkArrival 10 "ssrc_1" "bytesSent" 100;
        mkArrival 10 "ssrc_2" "bytesSent" 7;
        mkArrival 20 "ssrc_1" "bytesSent" 250;
        mkArrival 30 "ssrc_1" "bytesSent" 400])
    "ssrc_1-bytesSent"%string
  = Some (mkStat 10 30 [250; 400] [20; 30]).
Proof.
  rewrite (processStats_window (Some 2) [] "ssrc_1-bytesSent"%string);
    reflexivity.
Defined.

(* ===================================================================== *)
(** * Matching the local tracks with the SSRCs of a description           *)
(* ===================================================================== *)

Lemma extractPrimarySSRC_refl (o : option TPCSSRCInfo) :
  strictEq (extractPrimarySSRC o) (extractPrimarySSRC o) = true.
Proof.
  destruct o as [[ssrcs groups msid]|]; [|reflexivity]. cbn.
  destruct groups as [|g groups].
  - destruct ssrcs; cbn; [reflexivity|apply Z.eqb_refl].
  - destruct (gi_ssrcs g); cbn; [reflexivity|apply Z.eqb_refl].
Qed.

Lemma extractPrimarySSRC_neq (a b : option TPCSSRCInfo) :
  strictEq (extractPrimarySSRC a) (extractPrimarySSRC b) = false
  <-> extractPrimarySSRC a <> extractPrimarySSRC b.
Proof.
  split.
  - intros H E. rewrite E, extractPrimarySSRC_refl in H. discriminate.
  - intros H. destruct (strictEq _ _) eqn:E; [|reflexivity].
    apply strictEq_eq in E. contradiction.
Qed.

Section SsrcUpdateFacts.

Variable ssrcMap : JsMap.t string (option TPCSSRCInfo).

Local Abbreviation stored t track m :=
  (match ssrcUpdate ssrcMap t track with
   | Some newSSRC => JsMap.set Z.eqb m (rtcId track) newSSRC
   | None => m
   end).

Local Abbreviation signalled t track :=
  (match ssrcUpdate ssrcMap t track with
   | Some newSSRC =>
       [LOCAL_TRACK_SSRC_UPDATED track (extractPrimarySSRC (Some newSSRC))]
   | None => []
   end).

Lemma ssrcUpdate_same (t t' : TPC) (track : JitsiLocalTrack) :
  _getSSRC t' (rtcId track) = _getSSRC t (rtcId track) ->
  ssrcUpdate ssrcMap t' track = ssrcUpdate ssrcMap t track.
Proof. intros H. unfold ssrcUpdate. now rewrite H. Qed.

Lemma fold_stored_ext (t t' : TPC) (tracks : list JitsiLocalTrack)
      (m : JsMap.t Z TPCSSRCInfo) :
  (forall track, In track tracks ->
                 _getSSRC t' (rtcId track) = _getSSRC t (rtcId track)) ->
  fold_left (fun m track => stored t' track m) tracks m
  = fold_left (fun m track => stored t track m) tracks m.
Proof.
  revert m. induction tracks as [|x tracks IH]; intros m H; [reflexivity|].
  cbn [fold_left]. rewrite (ssrcUpdate_same t t' x) by (apply H; now left).
  apply IH. intros track Hin. apply H. now right.
Qed.

(** What the stored infos are after the loop. *)
Lemma fold_stored_get (t : TPC) (tracks : list JitsiLocalTrack)
      (m : JsMap.t Z TPCSSRCInfo) :
  NoDup (map rtcId tracks) ->
  (forall id, ~ In id (map rtcId tracks) ->
              JsMap.get Z.eqb
                        (fold_left (fun m track => stored t track m) tracks m) id
              = JsMap.get Z.eqb m id)
  /\ (forall track,
         In track tracks ->
         JsMap.get Z.eqb (fold_left (fun m track => stored t track m) tracks m)
                   (rtcId track)
         = match ssrcUpdate ssrcMap t track with
           | Some newSSRC => Some newSSRC
           | None => JsMap.get Z.eqb m (rtcId track)
           end).
Proof.
  revert m. induction tracks as [|x tracks IH]; intros m Hnd.
  - split; [reflexivity|contradiction].
  - cbn [map] in Hnd. inversion Hnd as [|? ? Hnot Hnd']; subst.
    cbn [fold_left map]. destruct (IH (stored t x m) Hnd') as [Hout Hin].
    assert (forall id, id <> rtcId x ->
                       JsMap.get Z.eqb (stored t x m) id = JsMap.get Z.eqb m id)
      as Hother.
    { intros id Hne. destruct (ssrcUpdate ssrcMap t x); [|reflexivity].
      apply mget_set_other; [exact Z.eqb_eq|congruence]. }
    split.
    + intros id Hid. rewrite Hout by (cbn in Hid; tauto).
      apply Hother. cbn in Hid. intros E. apply Hid. now left.
    + intros track [->|Ht].
      * rewrite Hout by exact Hnot.
        destruct (ssrcUpdate ssrcMap t track); [|reflexivity].
        apply mget_set_same. exact Z.eqb_eq.
      * rewrite (Hin track Ht). destruct (ssrcUpdate ssrcMap t track);
          [reflexivity|].
        apply Hother. intros E. apply Hnot. rewrite <- E. now apply in_map.
Qed.

Section ProcessLocalSSRCsMapFacts.

Variable isVideoTrack : JitsiLocalTrack -> bool.
Variable isMuted : JitsiLocalTrack -> bool.

Hypothesis objects : forall msid, JsMap.get String.eqb ssrcMap msid <> Some None.

(** The loop in closed form. *)
Lemma forEachLocalTrack_spec (tracks : list JitsiLocalTrack) (t : TPC)
      (signals : list TrackSignal) :
  NoDup (map rtcId tracks) ->
  let r := forEachLocalTrack isVideoTrack isMuted ssrcMap tracks t signals in
  localSSRCs (fst r)
  = fold_left (fun m track => stored t track m) tracks (localSSRCs t)
  /\ snd r = signals ++ flat_map (fun track => signalled t track) tracks
  /\ localTracks (fst r) = localTracks t.
Proof.
  revert t signals. induction tracks as [|track tracks IH];
    intros t signals Hnd; cbv zeta.
  - cbn. now rewrite app_nil_r.
  - cbn [map] in Hnd. inversion Hnd as [|? ? Hnot Hnd']; subst.
    assert (forall t1 : TPC,
               (forall id, id <> rtcId track ->
                           _getSSRC t1 id = _getSSRC t id) ->
               forall signals1,
                 let r := forEachLocalTrack isVideoTrack isMuted ssrcMap tracks
                                            t1 signals1 in
                 localSSRCs (fst r)
                 = fold_left (fun m x => stored t x m) tracks (localSSRCs t1)
                 /\ snd r = signals1 ++ flat_map (fun x => signalled t x) tracks
                 /\ localTracks (fst r) = localTracks t1) as Hrest.
    { intros t1 Hsame signals1. cbv zeta.
      destruct (IH t1 signals1 Hnd') as (H1 & H2 & H3).
      assert (forall x, In x tracks ->
                        _getSSRC t1 (rtcId x) = _getSSRC t (rtcId x)) as Hx.
      { intros x Hin. apply Hsame. intros E. apply Hnot. rewrite <- E.
        now apply in_map. }
      split; [|split; [|exact H3]].
      - rewrite H1. now apply fold_stored_ext.
      - rewrite H2. f_equal. apply flat_map_ext_In. intros x Hin.
        now rewrite (ssrcUpdate_same t t1 x (Hx x Hin)). }
    cbn [forEachLocalTrack fold_left flat_map].
    destruct (JsMap.get String.eqb ssrcMap (storedMSID track))
      as [[newSSRC|]|] eqn:E.
    + change (JsMap.get Z.eqb (localSSRCs t) (rtcId track))
        with (_getSSRC t (rtcId track)).
      destruct (strictEq (extractPrimarySSRC (Some newSSRC))
                         (extractPrimarySSRC (_getSSRC t (rtcId track))))
        eqn:Eq; cbn [negb].
      * assert (ssrcUpdate ssrcMap t track = None) as ->
          by (unfold ssrcUpdate; now rewrite E, Eq).
        destruct (Hrest (log LogDebug "The local SSRC is still up to date" t))
          with (signals1 := signals) as (H1 & H2 & H3); [reflexivity|].
        now repeat split.
      * assert (ssrcUpdate ssrcMap t track = Some newSSRC) as ->
          by (unfold ssrcUpdate; now rewrite E, Eq).
        match goal with
        | |- context [forEachLocalTrack _ _ _ _ ?t1 ?s1] =>
            destruct (Hrest t1) with (signals1 := s1) as (H1 & H2 & H3)
        end.
        { intros id Hne.
          destruct (strictEq (extractPrimarySSRC (_getSSRC t (rtcId track))) JNull);
            unfold _getSSRC; cbn [setLocalSSRCs localSSRCs log];
            (rewrite mget_set_other; [reflexivity|exact Z.eqb_eq|congruence]). }
        rewrite H1, H2, <- app_assoc. split; [|split].
        -- now destruct (strictEq (extractPrimarySSRC (_getSSRC t (rtcId track)))
                                  JNull).
        -- reflexivity.
        -- rewrite H3.
           now destruct (strictEq (extractPrimarySSRC (_getSSRC t (rtcId track)))
                                  JNull).
    + now destruct (objects (storedMSID track)).
    + assert (ssrcUpdate ssrcMap t track = None) as ->
        by (unfold ssrcUpdate; now rewrite E).
      match goal with
      | |- context [forEachLocalTrack _ _ _ _ ?t1 ?s1] =>
          destruct (Hrest t1) with (signals1 := s1) as (H1 & H2 & H3)
      end.
      { intros id Hne.
        now destruct (negb (isVideoTrack track) && negb (isMuted track)). }
      rewrite H1, H2, H3.
      now destruct (negb (isVideoTrack track) && negb (isMuted track)).
Qed.

End ProcessLocalSSRCsMapFacts.

End SsrcUpdateFacts.

(** X10. Let the local tracks have different [rtcId]s and let every entry of
    the map be an SSRC info.  After [_processLocalSSRCsMap], the info stored
    for a local track whose MSID the map knows has the primary SSRC of the
    info the map has for it: it is that info, or, when the primary SSRC was
    the same already, the info stored before.  The infos of the other
    tracks and ids are as before.  [LOCAL_TRACK_SSRC_UPDATED] is emitted
    for exactly the tracks whose primary SSRC changed, with the new one. *)
Theorem processLocalSSRCsMap_primary
        (isVideoTrack isMuted : JitsiLocalTrack -> bool)
        (ssrcMap : JsMap.t string (option TPCSSRCInfo)) (t : TPC) :
  NoDup (map rtcId (JsMap.values (localTracks t))) ->
  (forall msid, JsMap.get String.eqb ssrcMap msid <> Some None) ->
  let t' := fst (_processLocalSSRCsMap isVideoTrack isMuted ssrcMap t) in
  let signals := snd (_processLocalSSRCsMap isVideoTrack isMuted ssrcMap t) in
  (forall track newSSRC,
      In track (JsMap.values (localTracks t)) ->
      JsMap.get String.eqb ssrcMap (storedMSID track) = Some (Some newSSRC) ->
      extractPrimarySSRC (_getSSRC t' (rtcId track))
      = extractPrimarySSRC (Some newSSRC)
      /\ (_getSSRC t' (rtcId track) = Some newSSRC
          \/ _getSSRC t' (rtcId track) = _getSSRC t (rtcId track)))
  /\ (forall track,
         In track (JsMap.values (localTracks t)) ->
         JsMap.get String.eqb ssrcMap (storedMSID track) = None ->
         _getSSRC t' (rtcId track) = _getSSRC t (rtcId track))
  /\ (forall id,
         ~ In id (map rtcId (JsMap.values (localTracks t))) ->
         _getSSRC t' id = _getSSRC t id)
  /\ (forall signal,
         In signal signals
         <-> exists track newSSRC,
               In track (JsMap.values (localTracks t))
               /\ JsMap.get String.eqb ssrcMap (storedMSID track)
                  = Some (Some newSSRC)
               /\ extractPrimarySSRC (Some newSSRC)
                  <> extractPrimarySSRC (_getSSRC t (rtcId track))
               /\ signal = LOCAL_TRACK_SSRC_UPDATED
                             track (extractPrimarySSRC (Some newSSRC)))
  /\ localTracks t' = localTracks t.
Proof.
  intros Hnd Hobj. cbv zeta. unfold _processLocalSSRCsMap.
  destruct (forEachLocalTrack_spec ssrcMap isVideoTrack isMuted Hobj
                                   (JsMap.values (localTracks t)) t [] Hnd)
    as (Hm & Hs & Hl).
  destruct (fold_stored_get ssrcMap t (JsMap.values (localTracks t))
                            (localSSRCs t) Hnd) as [Hout Hin].
  set (r := forEachLocalTrack isVideoTrack isMuted ssrcMap
                              (JsMap.values (localTracks t)) t []) in *.
  unfold _getSSRC. rewrite Hm, Hs. cbn [app].
  split; [|split; [|split; [|split]]].
  - intros track newSSRC Ht E. rewrite (Hin track Ht). unfold ssrcUpdate.
    rewrite E. fold (_getSSRC t (rtcId track)).
    destruct (strictEq _ _) eqn:Eq.
    + apply strictEq_eq in Eq. split; [now symmetry|now right].
    + split; [reflexivity|now left].
  - intros track Ht E. rewrite (Hin track Ht). unfold ssrcUpdate. now rewrite E.
  - exact Hout.
  - intros signal. rewrite in_flat_map. split.
    + intros (track & Ht & Hsig). unfold ssrcUpdate in Hsig.
      destruct (JsMap.get String.eqb ssrcMap (storedMSID track))
        as [[newSSRC|]|] eqn:E; try contradiction.
      destruct (strictEq _ _) eqn:Eq; [contradiction|].
      destruct Hsig as [<-|[]]. exists track, newSSRC.
      repeat split; try assumption. now apply extractPrimarySSRC_neq.
    + intros (track & newSSRC & Ht & E & Hne & ->). exists track.
      split; [assumption|]. unfold ssrcUpdate, _getSSRC. rewrite E.
      apply extractPrimarySSRC_neq in Hne. rewrite Hne. now left.
  - exact Hl.
Qed.

(** A camera track whose SSRCs a new description has changed. *)
Lemma processLocalSSRCsMap_primary_witness :
  let newSSRC := mkSSRCInfo [2000; 2001] [mkGroupInfo [2000; 2001] "FID"]
                            (Some "stream1 track1"%string) in
  let ssrcMap := [("stream1 track1"%string, Some newSSRC)] in
  let video track := String.eqb (lt_type track) "video" in
  let r := _processLocalSSRCsMap video (fun _ => false) ssrcMap tpcWithAlice in
  _getSSRC (fst r) 1 = Some newSSRC
  /\ In (LOCAL_TRACK_SSRC_UPDATED cameraTrack (JNum 2000)) (snd r).
Proof.
  cbv zeta.
  destruct (processLocalSSRCsMap_primary
              (fun track => String.eqb (lt_type track) "video") (fun _ => false)
              [("stream1 track1"%string,
                Some (mkSSRCInfo [2000; 2001] [mkGroupInfo [2000; 2001] "FID"]
                                 (Some "stream1 track1"%string)))]
              tpcWithAlice)
    as (Hprimary & _ & _ & Hsignal & _).
  - repeat constructor. simpl. tauto.
  - intros msid. cbn [JsMap.get]. destruct (String.eqb _ msid); discriminate.
  - split.
    + destruct (Hprimary cameraTrack _ (or_introl eq_refl) eq_refl)
        as [_ [H|H]]; [exact H|].
      exfalso. revert H. vm_compute. discriminate.
    + apply Hsignal. exists cameraTrack. eexists.
      split; [now left|]. split; [reflexivity|]. split; [discriminate|].
      reflexivity.
Defined.

(** X11. Under the same conditions, a second run of
    [_processLocalSSRCsMap] with the same map emits no event and leaves the
    stored SSRC infos as the first run left them. *)
Theorem processLocalSSRCsMap_again
        (isVideoTrack isMuted : JitsiLocalTrack -> bool)
        (ssrcMap : JsMap.t string (option TPCSSRCInfo)) (t : TPC) :
  NoDup (map rtcId (JsMap.values (localTracks t))) ->
  (forall msid, JsMap.get String.eqb ssrcMap msid <> Some None) ->
  let t' := fst (_processLocalSSRCsMap isVideoTrack isMuted ssrcMap t) in
  snd (_processLocalSSRCsMap isVideoTrack isMuted ssrcMap t') = []
  /\ localSSRCs (fst (_processLocalSSRCsMap isVideoTrack isMuted ssrcMap t'))
     = localSSRCs t'.
Proof.
  intros Hnd Hobj. cbv zeta.
  set (t' := fst (_processLocalSSRCsMap isVideoTrack isMuted ssrcMap t)).
  assert (localTracks t' = localTracks t) as Hl.
  { unfold t', _processLocalSSRCsMap.
    now destruct (forEachLocalTrack_spec ssrcMap isVideoTrack isMuted Hobj
                    (JsMap.values (localTracks t)) t [] Hnd) as (_ & _ & H). }
  assert (forall track,
             In track (JsMap.values (localTracks t)) ->
             ssrcUpdate ssrcMap t' track = None) as Hnone.
  { intros track Ht. unfold ssrcUpdate.
    destruct (JsMap.get String.eqb ssrcMap (storedMSID track))
      as [[newSSRC|]|] eqn:E; try reflexivity.
    assert (extractPrimarySSRC (_getSSRC t' (rtcId track))
            = extractPrimarySSRC (Some newSSRC)) as ->; [|now rewrite extractPrimarySSRC_refl].
    unfold t', _processLocalSSRCsMap.
    destruct (forEachLocalTrack_spec ssrcMap isVideoTrack isMuted Hobj
                (JsMap.values (localTracks t)) t [] Hnd) as (Hm & _).
    destruct (fold_stored_get ssrcMap t (JsMap.values (localTracks t))
                              (localSSRCs t) Hnd) as [_ Hin].
    unfold _getSSRC. rewrite Hm, (Hin track Ht). unfold ssrcUpdate.
    rewrite E. fold (_getSSRC t (rtcId track)).
    destruct (strictEq _ _) eqn:Eq; [|reflexivity].
    apply strictEq_eq in Eq. now symmetry. }
  unfold _processLocalSSRCsMap at 1 2. rewrite Hl.
  destruct (forEachLocalTrack_spec ssrcMap isVideoTrack isMuted Hobj
              (JsMap.values (localTracks t)) t' [] Hnd) as (Hm & Hs & _).
  rewrite Hm, Hs. clear Hm Hs. cbn [app].
  revert Hnone. generalize (localSSRCs t').
  generalize (JsMap.values (localTracks t)).
  intros tracks. induction tracks as [|x tracks IH]; intros m Hnone.
  - now split.
  - cbn [fold_left flat_map]. rewrite (Hnone x) by now left. cbn [app].
    apply IH. intros track Ht. apply Hnone. now right.
Qed.

Lemma processLocalSSRCsMap_again_witness :
  let newSSRC := mkSSRCInfo [2000; 2001] [mkGroupInfo [2000; 2001] "FID"]
                            (Some "stream1 track1"%string) in
  let ssrcMap := [("stream1 track1"%string, Some newSSRC)] in
  let video track := String.eqb (lt_type track) "video" in
  let t' := fst (_processLocalSSRCsMap video (fun _ => false) ssrcMap
                                       tpcWithAlice) in
  snd (_processLocalSSRCsMap video (fun _ => false) ssrcMap t') = [].
Proof.
  cbv zeta.
  apply (processLocalSSRCsMap_again
           (fun track => String.eqb (lt_type track) "video") (fun _ => false)
           [("stream1 track1"%string,
             Some (mkSSRCInfo [2000; 2001] [mkGroupInfo [2000; 2001] "FID"]
                              (Some "stream1 track1"%string)))]
           tpcWithAlice).
  - repeat constructor. simpl. tauto.
  - intros msid. cbn [JsMap.get]. destruct (String.eqb _ msid); discriminate.
Defined.

(* ===================================================================== *)
(** * The SSRCs of a description, stream by stream                        *)
(* ===================================================================== *)

Lemma sameValueZero_eq (a b : JsVal) : sameValueZero a b = true <-> a = b.
Proof.
  split.
  - destruct a, b; cbn; try discriminate; try reflexivity; intros H.
    + now apply Bool.eqb_prop in H; subst.
    + apply Z.eqb_eq in H. now subst.
    + apply String.eqb_eq in H. now subst.
  - intros <-. destruct a; cbn; try reflexivity.
    + apply Bool.eqb_reflx.
    + apply Z.eqb_refl.
    + apply String.eqb_refl.
Qed.

(** What an ssrc line does to the entry of a stream. *)
Lemma addSsrc_get groupsMap ssrcMap (line : SsrcLine) (msid : string) :
  JsMap.get String.eqb (addSsrc groupsMap ssrcMap line) msid
  = if isMsid line && String.eqb (ssrc_value line) msid
    then
      let ssrcInfo :=
        match JsMap.get String.eqb ssrcMap msid with
        | Some ssrcInfo => ssrcInfo
        | None => mkTrackSSRCInfo [] [] msid
        end in
      Some (mkTrackSSRCInfo
              (ti_ssrcs ssrcInfo ++ [ssrc_id line])
              (ti_groups ssrcInfo
               ++ match JsMap.get sameValueZero groupsMap (JNum (ssrc_id line)) with
                  | Some ssrcGroups => ssrcGroups
                  | None => []
                  end)
              (ti_msid ssrcInfo))
    else JsMap.get String.eqb ssrcMap msid.
Proof.
  unfold addSsrc, isMsid. destruct (String.eqb (ssrc_attribute line) "msid");
    cbn [negb andb]; [|reflexivity].
  destruct (String.eqb (ssrc_value line) msid) eqn:E.
  - apply String.eqb_eq in E. subst msid. now rewrite get_set_same.
  - apply String.eqb_neq in E. now rewrite get_set_other.
Qed.


Lemma linesOf_app msid l1 l2 : linesOf msid (l1 ++ l2) = linesOf msid l1 ++ linesOf msid l2.
Proof. apply filter_app. Qed.

Lemma ssrcsInv_addSsrc groupsMap ssrcMap lines (line : SsrcLine) :
  ssrcsInv ssrcMap lines ->
  ssrcsInv (addSsrc groupsMap ssrcMap line)
           (lines ++ if isMsid line then [line] else []).
Proof.
  intros H msid. specialize (H msid). rewrite addSsrc_get, linesOf_app.
  destruct (isMsid line); cbn [andb].
  - change (linesOf msid [line])
      with (if String.eqb (ssrc_value line) msid then [line] else []).
    destruct (String.eqb (ssrc_value line) msid) eqn:E.
    + cbv zeta. destruct (JsMap.get String.eqb ssrcMap msid) as [info|].
      * destruct H as (Hm & Hs & Hn). cbn [ti_msid ti_ssrcs].
        rewrite Hs, map_app.
        repeat split; auto. now destruct (map ssrc_id (linesOf msid lines)).
      * cbn [ti_msid ti_ssrcs]. rewrite H. repeat split. discriminate.
    + now rewrite app_nil_r.
  - change (linesOf msid []) with (@nil SsrcLine). now rewrite app_nil_r.
Qed.

Lemma ssrcsInv_lines groupsMap (ssrcs : list SsrcLine) ssrcMap lines :
  ssrcsInv ssrcMap lines ->
  ssrcsInv (fold_left (addSsrc groupsMap) ssrcs ssrcMap)
           (lines ++ filter isMsid ssrcs).
Proof.
  revert ssrcMap lines. induction ssrcs as [|line ssrcs IH]; intros sm lines H.
  - cbn. now rewrite app_nil_r.
  - cbn [fold_left filter].
    replace (lines ++ (if isMsid line then line :: filter isMsid ssrcs
                       else filter isMsid ssrcs))
      with ((lines ++ if isMsid line then [line] else []) ++ filter isMsid ssrcs)
      by (rewrite <- app_assoc; now destruct (isMsid line)).
    apply IH. now apply ssrcsInv_addSsrc.
Qed.

Section ExtractSSRCMapFacts.

Variable parseInt : string -> JsVal.

Lemma ssrcsInv_media (media : list MediaLine) maps lines :
  ssrcsInv (fst maps) lines ->
  ssrcsInv (fst (fold_left (extractMLine parseInt) media maps))
           (lines ++ msidLines (mkSession [] media)).
Proof.
  revert maps lines. induction media as [|mLine media IH]; intros [sm gm] lines H.
  - cbn. now rewrite app_nil_r.
  - cbn [fold_left]. unfold msidLines. cbn [s_media flat_map].
    rewrite app_assoc. apply IH. unfold extractMLine.
    destruct (m_ssrcs mLine) as [ssrcs|].
    + cbn [fst]. now apply ssrcsInv_lines.
    + cbn [fst]. now rewrite app_nil_r.
Qed.

Lemma NoDup_keys_addSsrc groupsMap ssrcMap (line : SsrcLine) :
  NoDup (JsMap.keys ssrcMap) -> NoDup (JsMap.keys (addSsrc groupsMap ssrcMap line)).
Proof.
  intros H. unfold addSsrc. destruct (negb _); [assumption|].
  now apply NoDup_keys_set.
Qed.

Lemma NoDup_keys_media (media : list MediaLine) maps :
  NoDup (JsMap.keys (fst maps)) ->
  NoDup (JsMap.keys (fst (fold_left (extractMLine parseInt) media maps))).
Proof.
  revert maps. induction media as [|mLine media IH]; intros [sm gm] H;
    [assumption|].
  cbn [fold_left]. apply IH. unfold extractMLine.
  destruct (m_ssrcs mLine) as [ssrcs|]; [|assumption]. cbn [fst].
  generalize (match m_ssrcGroups mLine with
              | Some ssrcGroups => fold_left (addGroup parseInt) ssrcGroups gm
              | None => gm
              end). intros gm'.
  cbn [fst] in H. revert sm H. induction ssrcs as [|line ssrcs IHs]; intros sm H;
    [assumption|].
  cbn [fold_left]. apply IHs. now apply NoDup_keys_addSsrc.
Qed.

(** X12. [extractSSRCMap] gives one entry for every stream that an [msid]
    line of the description names, and no other.  The entry of a stream
    holds the name of the stream and the SSRCs of its [msid] lines, in the
    order of the description, once for every line; lines with another
    attribute and media sections without ssrc lines add nothing.  For a
    missing description the map is empty and a warning is logged. *)
Theorem extractSSRCMap_ssrcs (parse : text -> Session) :
  extractSSRCMap parseInt parse None
  = ([], [mkLog LogWarn "An empty description was passed as an argument."])
  /\ forall desc,
       let session := parse (desc_sdp desc) in
       let ssrcMap := fst (extractSSRCMap parseInt parse (Some desc)) in
       NoDup (JsMap.keys ssrcMap)
       /\ forall msid,
            match JsMap.get String.eqb ssrcMap msid with
            | Some info =>
                ti_msid info = msid
                /\ ti_ssrcs info
                   = map ssrc_id (linesOf msid (msidLines session))
                /\ ti_ssrcs info <> []
            | None => linesOf msid (msidLines session) = []
            end.
Proof.
  split; [reflexivity|]. intros desc. cbv zeta. cbn [extractSSRCMap fst].
  unfold extractSSRCMap_parsed. split.
  - apply NoDup_keys_media. constructor.
  - pose proof (ssrcsInv_media (s_media (parse (desc_sdp desc))) ([], []) []) as H.
    cbn [app] in H. unfold msidLines in *. cbn [s_media] in H. apply H.
    intros msid. reflexivity.
Qed.

(** What an ssrc group does to the list of a key. *)
Lemma addGroup_get groupsMap (group : SsrcGroup) (key : JsVal) :
  JsMap.get sameValueZero (addGroup parseInt groupsMap group) key
  = if sameValueZero (primaryOf (parseGroup parseInt group)) key
    then Some (match JsMap.get sameValueZero groupsMap key with
               | Some groups => groups
               | None => []
               end ++ [parseGroup parseInt group])
    else JsMap.get sameValueZero groupsMap key.
Proof.
  unfold addGroup. set (g := parseGroup parseInt group). set (p := primaryOf g).
  unfold JsMap.has.
  destruct (JsMap.get sameValueZero groupsMap p) as [groups|] eqn:E.
  - rewrite E. destruct (sameValueZero p key) eqn:Ek.
    + apply sameValueZero_eq in Ek. subst key. rewrite E.
      apply mget_set_same. exact sameValueZero_eq.
    + apply mget_set_other; [exact sameValueZero_eq|].
      intros ->. rewrite (proj2 (sameValueZero_eq key key) eq_refl) in Ek.
      discriminate.
  - rewrite (mget_set_same sameValueZero sameValueZero_eq).
    destruct (sameValueZero p key) eqn:Ek.
    + apply sameValueZero_eq in Ek. subst key. rewrite E.
      rewrite (mget_set_same sameValueZero sameValueZero_eq). reflexivity.
    + assert (p <> key) as Hne.
      { intros ->. rewrite (proj2 (sameValueZero_eq key key) eq_refl) in Ek.
        discriminate. }
      rewrite !(mget_set_other sameValueZero sameValueZero_eq) by assumption.
      reflexivity.
Qed.

Lemma listsGroup_addGroup groupsMap (group : SsrcGroup) key g :
  listsGroup (addGroup parseInt groupsMap group) key g
  <-> listsGroup groupsMap key g
      \/ (primaryOf (parseGroup parseInt group) = key /\ g = parseGroup parseInt group).
Proof.
  unfold listsGroup. rewrite addGroup_get.
  destruct (sameValueZero (primaryOf (parseGroup parseInt group)) key) eqn:E.
  - apply sameValueZero_eq in E. split.
    + intros (groups & [= <-] & Hin). apply in_app_or in Hin.
      destruct Hin as [Hin|[<-|[]]]; [left|now right].
      destruct (JsMap.get sameValueZero groupsMap key) as [gs|];
        [eauto|contradiction].
    + intros [(groups & Hg & Hin)|[_ ->]].
      * rewrite Hg. eexists. split; [reflexivity|]. apply in_or_app. now left.
      * eexists. split; [reflexivity|]. apply in_or_app. right. now left.
  - split; [now left|]. intros [H|[Hk _]]; [assumption|].
    apply sameValueZero_eq in Hk. congruence.
Qed.

Lemma listsGroup_addGroups (ssrcGroups : list SsrcGroup) groupsMap key g :
  listsGroup (fold_left (addGroup parseInt) ssrcGroups groupsMap) key g
  <-> listsGroup groupsMap key g
      \/ exists group, In group ssrcGroups
                       /\ primaryOf (parseGroup parseInt group) = key
                       /\ g = parseGroup parseInt group.
Proof.
  revert groupsMap. induction ssrcGroups as [|group groups IH]; intros gm.
  - cbn. split; [now left|]. intros [H|(group & [] & _)]. assumption.
  - cbn [fold_left]. rewrite IH, listsGroup_addGroup. split.
    + intros [[H|(Hk & ->)]|(group' & Hin & Hk & ->)].
      * now left.
      * right. exists group. repeat split; auto. now left.
      * right. exists group'. repeat split; auto. now right.
    + intros [H|(group' & [<-|Hin] & Hk & ->)].
      * left. now left.
      * left. now right.
      * right. eauto.
Qed.

Lemma holdsGroup_addSsrc groupsMap ssrcMap (line : SsrcLine) msid g :
  holdsGroup (addSsrc groupsMap ssrcMap line) msid g
  <-> holdsGroup ssrcMap msid g
      \/ (isMsid line = true /\ ssrc_value line = msid
          /\ listsGroup groupsMap (JNum (ssrc_id line)) g).
Proof.
  unfold holdsGroup, listsGroup. rewrite addSsrc_get.
  destruct (isMsid line); cbn [andb].
  - destruct (String.eqb (ssrc_value line) msid) eqn:E.
    + apply String.eqb_eq in E. cbv zeta. split.
      * intros (info & [= <-] & Hin). cbn [ti_groups] in Hin.
        apply in_app_or in Hin. destruct Hin as [Hin|Hin].
        -- left. destruct (JsMap.get String.eqb ssrcMap msid) as [old|];
             [eauto|contradiction].
        -- right. repeat split; auto.
           destruct (JsMap.get sameValueZero groupsMap (JNum (ssrc_id line)))
             as [gs|]; [eauto|contradiction].
      * intros [(info & Hi & Hin)|(_ & _ & gs & Hg & Hin)].
        -- rewrite Hi. eexists. split; [reflexivity|]. cbn [ti_groups].
           apply in_or_app. now left.
        -- rewrite Hg. eexists. split; [reflexivity|]. cbn [ti_groups].
           apply in_or_app. now right.
    + split; [now left|]. intros [H|(_ & Hv & _)]; [assumption|].
      apply String.eqb_neq in E. contradiction.
  - split; [now left|]. intros [H|(Hm & _)]; [assumption|discriminate].
Qed.

Lemma holdsGroup_addSsrcs groupsMap (ssrcs : list SsrcLine) ssrcMap msid g :
  holdsGroup (fold_left (addSsrc groupsMap) ssrcs ssrcMap) msid g
  <-> holdsGroup ssrcMap msid g
      \/ exists line, In line ssrcs /\ isMsid line = true
                      /\ ssrc_value line = msid
                      /\ listsGroup groupsMap (JNum (ssrc_id line)) g.
Proof.
  revert ssrcMap. induction ssrcs as [|line ssrcs IH]; intros sm.
  - cbn. split; [now left|]. intros [H|(line & [] & _)]. assumption.
  - cbn [fold_left]. rewrite IH, holdsGroup_addSsrc. split.
    + intros [[H|(Hm & Hv & Hl)]|(line' & Hin & Hm & Hv & Hl)].
      * now left.
      * right. exists line. repeat split; auto. now left.
      * right. exists line'. repeat split; auto. now right.
    + intros [H|(line' & [<-|Hin] & Hm & Hv & Hl)].
      * left. now left.
      * left. now right.
      * right. eauto.
Qed.

Lemma groupFrom_app (a b : list MediaLine) (g : SSRCGroupInfo) :
  groupFrom parseInt (a ++ b) g <-> groupFrom parseInt a g \/ groupFrom parseInt b g.
Proof.
  unfold groupFrom. split.
  - intros (mLine & ssrcs & groups & group & Hin & H).
    apply in_app_or in Hin. destruct Hin as [Hin|Hin]; [left|right];
      exists mLine, ssrcs, groups, group; tauto.
  - intros [(mLine & ssrcs & groups & group & Hin & H)
           |(mLine & ssrcs & groups & group & Hin & H)];
      exists mLine, ssrcs, groups, group; (split; [|exact H]);
        apply in_or_app; tauto.
Qed.

Lemma groupFrom_one (mLine : MediaLine) (g : SSRCGroupInfo) :
  groupFrom parseInt [mLine] g
  <-> exists ssrcs ssrcGroups group,
        m_ssrcs mLine = Some ssrcs /\ m_ssrcGroups mLine = Some ssrcGroups
        /\ In group ssrcGroups /\ g = parseGroup parseInt group.
Proof.
  unfold groupFrom. split.
  - intros (m & ssrcs & groups & group & [<-|[]] & H). eauto.
  - intros (ssrcs & groups & group & H). exists mLine, ssrcs, groups, group.
    split; [now left|exact H].
Qed.

(** The groups listed under a key after a media section. *)
Lemma listsGroup_mLine ssrcMap groupsMap (mLine : MediaLine) key g :
  listsGroup (snd (extractMLine parseInt (ssrcMap, groupsMap) mLine)) key g
  <-> listsGroup groupsMap key g
      \/ (primaryOf g = key /\ groupFrom parseInt [mLine] g).
Proof.
  unfold extractMLine. rewrite groupFrom_one.
  destruct (m_ssrcs mLine) as [ssrcs|]; cbn [snd].
  - destruct (m_ssrcGroups mLine) as [groups|].
    + rewrite listsGroup_addGroups. split.
      * intros [H|(group & Hin & Hk & ->)]; [now left|].
        right. split; [assumption|]. exists ssrcs, groups, group. auto.
      * intros [H|(Hk & s & gs & group & [= <-] & [= <-] & Hin & ->)];
          [now left|]. right. eauto.
    + split; [now left|].
      intros [H|(_ & s & gs & group & _ & Hg & _)]; [assumption|discriminate].
  - split; [now left|].
    intros [H|(_ & s & gs & group & Hs & _)]; [assumption|discriminate].
Qed.

(** The groups held for a stream after a media section. *)
Lemma holdsGroup_mLine ssrcMap groupsMap (mLine : MediaLine) msid g :
  holdsGroup (fst (extractMLine parseInt (ssrcMap, groupsMap) mLine)) msid g
  <-> holdsGroup ssrcMap msid g
      \/ exists ssrcs line,
           m_ssrcs mLine = Some ssrcs /\ In line ssrcs /\ isMsid line = true
           /\ ssrc_value line = msid
           /\ listsGroup (snd (extractMLine parseInt (ssrcMap, groupsMap) mLine))
                         (JNum (ssrc_id line)) g.
Proof.
  unfold extractMLine. destruct (m_ssrcs mLine) as [ssrcs|]; cbn [fst snd].
  - rewrite holdsGroup_addSsrcs. split.
    + intros [H|(line & H)]; [now left|]. right. exists ssrcs, line. tauto.
    + intros [H|(s & line & [= <-] & H)]; [now left|]. right. eauto.
  - split; [now left|]. intros [H|(s & line & Hs & _)]; [assumption|discriminate].
Qed.

Lemma extractMLines_groups (media done : list MediaLine) ssrcMap groupsMap
      (msid : string) (g : SSRCGroupInfo) :
  (forall key g', listsGroup groupsMap key g'
                  <-> primaryOf g' = key /\ groupFrom parseInt done g') ->
  holdsGroup (fst (fold_left (extractMLine parseInt) media (ssrcMap, groupsMap))) msid g
  <-> holdsGroup ssrcMap msid g
      \/ exists pre mLine post ssrcs line,
           media = pre ++ mLine :: post
           /\ m_ssrcs mLine = Some ssrcs /\ In line ssrcs
           /\ isMsid line = true /\ ssrc_value line = msid
           /\ primaryOf g = JNum (ssrc_id line)
           /\ groupFrom parseInt (done ++ pre ++ [mLine]) g.
Proof.
  revert done ssrcMap groupsMap.
  induction media as [|mLine media IH]; intros done sm gm Hgm.
  - cbn. split; [now left|].
    intros [H|(pre & m & post & _ & _ & E & _)]; [assumption|].
    now destruct pre.
  - cbn [fold_left].
    destruct (extractMLine parseInt (sm, gm) mLine) as [sm1 gm1] eqn:E.
    assert (forall key g', listsGroup gm1 key g'
                           <-> primaryOf g' = key
                               /\ groupFrom parseInt (done ++ [mLine]) g') as Hgm1.
    { intros key g'. change gm1 with (snd (sm1, gm1)). rewrite <- E.
      rewrite listsGroup_mLine, Hgm, groupFrom_app. tauto. }
    rewrite (IH (done ++ [mLine]) sm1 gm1 Hgm1).
    change sm1 with (fst (sm1, gm1)). rewrite <- E, holdsGroup_mLine.
    rewrite E. cbn [snd]. split.
    + intros [[H|(ssrcs & line & Hs & Hin & Hm & Hv & Hl)]
             |(pre & m & post & ssrcs & line & -> & Hs & Hin & Hm & Hv & Hp & Hg)].
      * now left.
      * right. exists [], mLine, media, ssrcs, line.
        apply Hgm1 in Hl. destruct Hl as [Hp Hg]. cbn [app]. tauto.
      * right. exists (mLine :: pre), m, post, ssrcs, line.
        rewrite <- app_assoc in Hg. cbn [app] in *. tauto.
    + intros [H|(pre & m & post & ssrcs & line & E' & Hs & Hin & Hm & Hv & Hp & Hg)].
      * left. now left.
      * destruct pre as [|m0 pre]; cbn [app] in E'; injection E' as E1 E2;
          subst.
        -- left. right. exists ssrcs, line. repeat split; auto.
           apply Hgm1. cbn [app] in Hg. tauto.
        -- right. exists pre, m, post, ssrcs, line.
           rewrite <- app_assoc. cbn [app] in *. tauto.
Qed.

(** X13. [extractSSRCMap] lists an ssrc group for a stream exactly when the
    first SSRC that [parseInt] reads in the group is the SSRC of an [msid]
    line of the stream, and the group stands in the media section of that
    line or in an earlier one; only media sections with ssrc lines count.
    A listed group carries the numbers that [parseInt] read as its SSRCs. *)
Theorem extractSSRCMap_groups
        (parse : text -> Session) (desc : RTCSessionDescription)
        (msid : string) (g : SSRCGroupInfo) :
  let session := parse (desc_sdp desc) in
  let ssrcMap := fst (extractSSRCMap parseInt parse (Some desc)) in
  (exists info, JsMap.get String.eqb ssrcMap msid = Some info
                /\ In g (ti_groups info))
  <-> exists pre mLine post ssrcs line,
        s_media session = pre ++ mLine :: post
        /\ m_ssrcs mLine = Some ssrcs /\ In line ssrcs
        /\ isMsid line = true /\ ssrc_value line = msid
        /\ primaryOf g = JNum (ssrc_id line)
        /\ groupFrom parseInt (pre ++ [mLine]) g.
Proof.
  cbv zeta. cbn [extractSSRCMap fst]. unfold extractSSRCMap_parsed.
  fold (holdsGroup (fst (fold_left (extractMLine parseInt)
                                   (s_media (parse (desc_sdp desc))) ([], [])))
                   msid g).
  rewrite (extractMLines_groups (s_media (parse (desc_sdp desc))) [] [] []).
  - cbn [app]. split; [|now right].
    intros [(info & H & _)|H]; [discriminate|assumption].
  - intros key g'. split.
    + intros (groups & H & _). discriminate.
    + intros (_ & m & s & gs & group & [] & _).
Qed.

End ExtractSSRCMapFacts.

(* ===================================================================== *)
(** * The order of the ssrc lines of a remote description                 *)
(* ===================================================================== *)

Section NormalizePlanBFacts.

Variable Number : string -> JsVal.

Lemma takeFirstSsrcs_spec firstSsrcs (ssrcs : list SsrcLine)
      (newSsrcLines : list SsrcLine) :
  takeFirstSsrcs firstSsrcs (map Some ssrcs) newSsrcLines
  = (map (fun line => if isFirstSsrc firstSsrcs line then None else Some line)
         ssrcs,
     newSsrcLines ++ filter (isFirstSsrc firstSsrcs) ssrcs).
Proof.
  revert newSsrcLines. induction ssrcs as [|line ssrcs IH]; intros new; cbn.
  - now rewrite app_nil_r.
  - destruct (isFirstSsrc firstSsrcs line); rewrite IH; [|reflexivity].
    now rewrite <- app_assoc.
Qed.

Lemma takeOthers_spec firstSsrcs (ssrcs : list SsrcLine)
      (newSsrcLines : list SsrcLine) :
  takeOthers
    (map (fun line => if isFirstSsrc firstSsrcs line then None else Some line)
         ssrcs)
    newSsrcLines
  = newSsrcLines
    ++ filter (fun line => negb (isFirstSsrc firstSsrcs line)) ssrcs.
Proof.
  revert newSsrcLines. induction ssrcs as [|line ssrcs IH]; intros new; cbn.
  - now rewrite app_nil_r.
  - destruct (isFirstSsrc firstSsrcs line); cbn; rewrite IH; [reflexivity|].
    now rewrite <- app_assoc.
Qed.


Variable browser : Browser.
Hypothesis other : isChrome browser && isVersionGreaterThan70 browser = false.

Lemma normalizeMLine_other (mLine : MediaLine) :
  normalizeMLine Number browser mLine
  = Return (match m_ssrcs mLine with
            | Some ssrcs => setSsrcs (firstSsrcsFirst Number mLine ssrcs) mLine
            | None => mLine
            end).
Proof.
  unfold normalizeMLine. destruct (m_ssrcs mLine) as [ssrcs|]; [|reflexivity].
  rewrite takeFirstSsrcs_spec, takeOthers_spec. cbn [app].
  unfold replaceDefaultUnifiedPlanMsid.
  assert (negb (isChrome browser) || negb (isVersionGreaterThan70 browser) = true)
    as -> by (destruct (isChrome browser), (isVersionGreaterThan70 browser);
              cbn in *; congruence).
  reflexivity.
Qed.

Lemma normalizeMLines_other (media : list MediaLine) :
  normalizeMLines Number browser media
  = Return (map (fun mLine =>
                   match m_ssrcs mLine with
                   | Some ssrcs =>
                       setSsrcs (firstSsrcsFirst Number mLine ssrcs) mLine
                   | None => mLine
                   end)
                media).
Proof.
  induction media as [|mLine media IH]; [reflexivity|].
  cbn [normalizeMLines map]. rewrite normalizeMLine_other, IH. reflexivity.
Qed.

Lemma filter_first_first firstSsrcs (ssrcs : list SsrcLine) :
  let first := isFirstSsrc firstSsrcs in
  let sorted := filter first ssrcs ++ filter (fun l => negb (first l)) ssrcs in
  filter first sorted ++ filter (fun l => negb (first l)) sorted = sorted.
Proof.
  cbv zeta. rewrite !filter_app, !filter_filter.
  rewrite (filter_ext (fun x => isFirstSsrc firstSsrcs x && isFirstSsrc firstSsrcs x)
                      (isFirstSsrc firstSsrcs))
    by (intros x; apply andb_diag).
  rewrite (filter_none
             (fun x => isFirstSsrc firstSsrcs x && negb (isFirstSsrc firstSsrcs x)))
    by (intros x _; apply andb_negb_r).
  rewrite (filter_none
             (fun x => negb (isFirstSsrc firstSsrcs x) && isFirstSsrc firstSsrcs x))
    by (intros x _; apply andb_negb_l).
  rewrite (filter_ext
             (fun x => negb (isFirstSsrc firstSsrcs x)
                       && negb (isFirstSsrc firstSsrcs x))
             (fun x => negb (isFirstSsrc firstSsrcs x)))
    by (intros x; apply andb_diag).
  now rewrite app_nil_r.
Qed.

End NormalizePlanBFacts.

Lemma partition_length {A} (f : A -> bool) (l : list A) :
  length (filter f l ++ filter (fun x => negb (f x)) l) = length l.
Proof.
  rewrite length_app. induction l as [|x l IH]; [reflexivity|]. cbn.
  destruct (f x); cbn; lia.
Qed.

Lemma partition_In {A} (f : A -> bool) (l : list A) (x : A) :
  In x (filter f l ++ filter (fun x => negb (f x)) l) <-> In x l.
Proof.
  rewrite in_app_iff, !filter_In. destruct (f x); cbn; intuition congruence.
Qed.

(** X14. On a browser other than Chrome above version 70, [normalizePlanB]
    does not throw and changes nothing but the order of the ssrc lines
    inside the media sections: in every media section the lines whose SSRC
    is the first SSRC of an FID group come first, and both these lines and
    the others keep the order they had among themselves.  No line is lost
    or added, and the media sections and the session part are otherwise as
    parsed.  A missing description is returned as it is, with a warning. *)
Theorem normalizePlanB_order
        (Number : string -> JsVal) (browser : Browser)
        (parse : text -> Session) (write : Session -> text)
        (desc : RTCSessionDescription) :
  isChrome browser && isVersionGreaterThan70 browser = false ->
  let session := parse (desc_sdp desc) in
  exists media',
    normalizePlanB Number browser parse write (Some desc)
    = Return (Some (mkDesc (desc_type desc)
                           (write (mkSession (s_session session) media'))),
              [])
    /\ Forall2
         (fun mLine mLine' =>
            let first := isFirstSsrc (firstSsrcsOf Number mLine) in
            match m_ssrcs mLine with
            | Some ssrcs =>
                let ssrcs' := filter first ssrcs
                              ++ filter (fun l => negb (first l)) ssrcs in
                mLine' = setSsrcs ssrcs' mLine
                /\ length ssrcs' = length ssrcs
                /\ forall line, In line ssrcs' <-> In line ssrcs
            | None => mLine' = mLine
            end)
         (s_media session) media'
    /\ normalizePlanB Number browser parse write None
       = Return (None,
                 [mkLog LogWarn
                        "An empty description was passed as an argument."]).
Proof.
  intros Hother. cbv zeta.
  eexists. split; [|split; [|reflexivity]].
  - cbn [normalizePlanB]. unfold normalizePlanB_parsed.
    rewrite (normalizeMLines_other Number browser Hother). reflexivity.
  - induction (s_media (parse (desc_sdp desc))) as [|mLine media IH];
      cbn [map]; constructor; [|exact IH].
    destruct (m_ssrcs mLine) as [ssrcs|]; [|reflexivity].
    split; [reflexivity|]. split; [apply partition_length|].
    intros line. apply partition_In.
Qed.

(** The ids of the ssrc lines of the first media section, as a stand-in for
    the text of a description. *)
Lemma normalizePlanB_order_witness :
  let mLine :=
    mkMedia "video" (JNum 100) [] [] None
            (Some [mkSsrcLine 2 "cname" "c"; mkSsrcLine 1 "cname" "c";
                   mkSsrcLine 2 "msid" "s t"; mkSsrcLine 1 "msid" "s t"])
            (Some [mkSsrcGroup "FID" "1 2"]) false in
  let write session :=
    match s_media session with
    | {| m_ssrcs := Some ssrcs |} :: _ => T (joinSpace (map showZ (map ssrc_id ssrcs)))
    | _ => []
    end in
  normalizePlanB (fun s => if String.eqb s "1" then JNum 1 else JNaN)
                 firefox (fun _ => mkSession [] [mLine]) write
                 (Some (mkDesc "offer" []))
  = Return (Some (mkDesc "offer" (T "1 1 2 2")), []).
Proof.
  cbv zeta.
  pose proof (normalizePlanB_order
                (fun s => if String.eqb s "1" then JNum 1 else JNaN) firefox
                (fun _ => mkSession []
                   [mkMedia "video" (JNum 100) [] [] None
                      (Some [mkSsrcLine 2 "cname" "c"; mkSsrcLine 1 "cname" "c";
                             mkSsrcLine 2 "msid" "s t";
                             mkSsrcLine 1 "msid" "s t"])
                      (Some [mkSsrcGroup "FID" "1 2"]) false])
                (fun session =>
                   match s_media session with
                   | {| m_ssrcs := Some ssrcs |} :: _ =>
                       T (joinSpace (map showZ (map ssrc_id ssrcs)))
                   | _ => []
                   end)
                (mkDesc "offer" []) eq_refl) as P.
  cbv zeta in P. destruct P as (media' & H & F & _).
  rewrite H. cbn [s_media m_ssrcs] in F.
  inversion F as [|? ? ? ? Hm Hrest]; subst.
  cbn [m_ssrcs] in Hm. cbv zeta in Hm. destruct Hm as [Hm _].
  inversion Hrest; subst. reflexivity.
Defined.

(** X15. On such a browser [normalizePlanB] changes nothing in a parsed
    description that it has normalized already. *)
Theorem normalizePlanB_parsed_idempotent
        (Number : string -> JsVal) (browser : Browser) (session : Session) :
  isChrome browser && isVersionGreaterThan70 browser = false ->
  exists session',
    normalizePlanB_parsed Number browser session = Return session'
    /\ normalizePlanB_parsed Number browser session' = Return session'.
Proof.
  intros Hother. unfold normalizePlanB_parsed.
  rewrite (normalizeMLines_other Number browser Hother). cbn [bindO].
  eexists. split; [reflexivity|]. cbn [s_media s_session].
  rewrite (normalizeMLines_other Number browser Hother). cbn [bindO].
  f_equal. f_equal. rewrite map_map. apply map_ext. intros mLine.
  destruct (m_ssrcs mLine) as [ssrcs|] eqn:E; [|now rewrite E].
  cbn [setSsrcs m_ssrcs]. unfold firstSsrcsFirst, firstSsrcsOf.
  cbn [setSsrcs m_ssrcGroups].
  pose proof (filter_first_first
                (match m_ssrcGroups mLine with
                 | Some ssrcGroups =>
                     flat_map
                       (fun group =>
                          if String.eqb (group_semantics group) "FID"
                          then [Number (hd EmptyString
                                           (splitSpace (group_ssrcs group)))]
                          else [])
                       ssrcGroups
                 | None => []
                 end) ssrcs) as H.
  cbv zeta in H. rewrite H. reflexivity.
Qed.

Lemma normalizePlanB_parsed_idempotent_witness :
  exists session',
    normalizePlanB_parsed (fun _ => JNaN) firefox recvonlySession = Return session'
    /\ normalizePlanB_parsed (fun _ => JNaN) firefox session' = Return session'.
Proof.
  apply (normalizePlanB_parsed_idempotent (fun _ => JNaN) firefox recvonlySession).
  reflexivity.
Defined.

(* ===================================================================== *)
(** * The cache of announced SSRCs                                        *)
(* ===================================================================== *)

Section CacheFacts.

Variable replaceByRegExp : text -> text -> text -> Outcome text.
Variable sdp : text.

(** After an error the loop does nothing more. *)
Lemma forEachNewTrackId_thrown (todo : list (text * list text))
      (trackIdsToSSRCs : TrackIdsToSSRCs) (e : string) :
  fold_left (forEachNewTrackId replaceByRegExp sdp) todo (trackIdsToSSRCs, Throw e) = (trackIdsToSSRCs, Throw e).
Proof.
  induction todo as [|[id ssrcs] todo IH]; [reflexivity|]. exact IH.
Qed.

(** The loop never changes what the cache holds for a track id. *)
Lemma forEachNewTrackId_keeps (todo : list (text * list text))
      (trackIdsToSSRCs : TrackIdsToSSRCs)
      (progress : Outcome (JsMap.t (option text) text * text))
      (trackId : text) (ssrcs : list text) :
  JsMap.get text_eqb trackIdsToSSRCs trackId = Some ssrcs ->
  JsMap.get text_eqb (fst (fold_left (forEachNewTrackId replaceByRegExp sdp) todo (trackIdsToSSRCs, progress)))
            trackId
  = Some ssrcs.
Proof.
  revert trackIdsToSSRCs progress.
  induction todo as [|[id new] todo IH]; intros cache progress H; [exact H|].
  cbn [fold_left]. unfold forEachNewTrackId at 2.
  destruct progress as [e|[m s]]; [now apply IH|].
  destruct (JsMap.get text_eqb cache id) as [old|] eqn:E; [now apply IH|].
  apply IH. rewrite (mget_set_other text_eqb text_eqb_eq); [exact H|].
  intros ->. congruence.
Qed.

(** A track id that the cache did not hold has the SSRCs announced for it,
    or none yet when the loop was left before it got there. *)
Lemma forEachNewTrackId_adds (todo : list (text * list text))
      (trackIdsToSSRCs : TrackIdsToSSRCs)
      (progress : Outcome (JsMap.t (option text) text * text))
      (trackId : text) :
  JsMap.get text_eqb trackIdsToSSRCs trackId = None ->
  let after := fold_left (forEachNewTrackId replaceByRegExp sdp) todo (trackIdsToSSRCs, progress) in
  match progress, snd after with
  | Return _, Return _ =>
      JsMap.get text_eqb (fst after) trackId = JsMap.get text_eqb todo trackId
  | _, _ =>
      JsMap.get text_eqb (fst after) trackId = None
      \/ JsMap.get text_eqb (fst after) trackId
         = JsMap.get text_eqb todo trackId
  end.
Proof.
  cbv zeta. revert trackIdsToSSRCs progress.
  induction todo as [|[id new] todo IH]; intros cache progress H.
  - cbn. destruct progress as [e|r]; [now left|exact H].
  - destruct progress as [e|[m s]].
    + rewrite forEachNewTrackId_thrown. now left.
    + cbn [fold_left]. unfold forEachNewTrackId at 2 4 6 8.
      cbn [JsMap.get]. destruct (text_eqb id trackId) eqn:Eid.
      * apply text_eqb_eq in Eid. subst id. rewrite H.
        rewrite (forEachNewTrackId_keeps todo _ _ trackId new)
          by apply (mget_set_same text_eqb text_eqb_eq).
        now destruct (snd _); [right|].
      * assert (id <> trackId) as Hne
          by (intros ->; rewrite (eqb_same text_eqb text_eqb_eq) in Eid;
              discriminate).
        destruct (JsMap.get text_eqb cache id) as [old|] eqn:E.
        -- specialize (IH cache (forEachOldSSRC replaceByRegExp sdp old new 0 m s)
                           H).
           destruct (forEachOldSSRC replaceByRegExp sdp old new 0 m s)
             as [e|r]; [|exact IH].
           rewrite forEachNewTrackId_thrown in *. cbn [snd fst] in *. exact IH.
        -- apply (IH (JsMap.set text_eqb cache id new) (Return (m, s))).
           now rewrite (mget_set_other text_eqb text_eqb_eq).
Qed.

End CacheFacts.

(** X16. [updateTrackIdsToSSRCs] never changes the SSRCs that the cache
    holds for a track id, whether it returns or throws.  When it returns,
    the value returned is the description that was passed in, as it was,
    and a track id that the cache did not hold has the SSRCs that the
    description announces for it, if any.  When the lookup of the announced
    SSRCs throws, the cache is as it was; when a pattern built from an SSRC
    throws, a track id that the cache did not hold has the SSRCs announced
    for it or none yet. *)
Theorem updateTrackIdsToSSRCs_cache
        (replaceByRegExp : text -> text -> text -> Outcome text)
        (replaceByString : text -> text -> text -> text)
        (getTrackIdsToSSRCsFk : text -> Outcome TrackIdsToSSRCs)
        (trackIdsToSSRCs : TrackIdsToSSRCs) (sdp : text) :
  let after :=
    updateTrackIdsToSSRCs replaceByRegExp replaceByString getTrackIdsToSSRCsFk
                          trackIdsToSSRCs sdp in
  (forall trackId ssrcs,
      JsMap.get text_eqb trackIdsToSSRCs trackId = Some ssrcs ->
      JsMap.get text_eqb (fst after) trackId = Some ssrcs)
  /\ match getTrackIdsToSSRCsFk sdp, snd after with
     | Return newTrackIdsToSSRCs, Return updated =>
         upd_returned updated = sdp
         /\ forall trackId,
              JsMap.get text_eqb (fst after) trackId
              = match JsMap.get text_eqb trackIdsToSSRCs trackId with
                | Some ssrcs => Some ssrcs
                | None => JsMap.get text_eqb newTrackIdsToSSRCs trackId
                end
     | Return newTrackIdsToSSRCs, Throw _ =>
         forall trackId,
           JsMap.get text_eqb trackIdsToSSRCs trackId = None ->
           JsMap.get text_eqb (fst after) trackId = None
           \/ JsMap.get text_eqb (fst after) trackId
              = JsMap.get text_eqb newTrackIdsToSSRCs trackId
     | Throw e, outcome => fst after = trackIdsToSSRCs /\ outcome = Throw e
     end.
Proof.
  cbv zeta. unfold updateTrackIdsToSSRCs.
  destruct (getTrackIdsToSSRCsFk sdp) as [e|new]; [cbn; auto|].
  pose proof (forEachNewTrackId_keeps replaceByRegExp sdp new trackIdsToSSRCs
                                      (Return ([], sdp))) as Hkeeps.
  pose proof (forEachNewTrackId_adds replaceByRegExp sdp new trackIdsToSSRCs
                                     (Return ([], sdp))) as Hadds.
  cbv zeta in Hadds.
  match goal with
  | |- context [fold_left ?f new ?a] => set (folded := fold_left f new a)
  end.
  change (fold_left (forEachNewTrackId replaceByRegExp sdp) new
                    (trackIdsToSSRCs, Return ([], sdp)))
    with folded in Hkeeps, Hadds.
  clearbody folded. destruct folded as [cache [e|[m s]]];
    cbn [fst snd bindO] in *.
  - split; [exact Hkeeps|]. exact Hadds.
  - split; [exact Hkeeps|]. split; [reflexivity|]. intros trackId.
    destruct (JsMap.get text_eqb trackIdsToSSRCs trackId) as [ssrcs|] eqn:E.
    + now apply Hkeeps.
    + now apply Hadds.
Qed.

(* ===================================================================== *)
(** * From the id of a track to its SSRC and back                         *)
(* ===================================================================== *)

(** X17. An SSRC that [getSsrcByTrackId] gives for the id of a track is one
    that [getTrackBySSRC] resolves: the lookup does not throw and gives a
    local track with this SSRC as its first one or, when there is no such
    local track, a remote track with this SSRC.  It never gives [null]. *)
Theorem getSsrcByTrackId_getTrackBySSRC
        (localTrackId : JitsiLocalTrack -> string)
        (remoteTrackId : JitsiRemoteTrack -> string)
        (t : TPC) (id : string) (ssrc : Z) :
  getSsrcByTrackId localTrackId remoteTrackId t id = JNum ssrc ->
  match getTrackBySSRC t (JNum ssrc) with
  | Return (LocalTrack localTrack) =>
      In localTrack (getLocalTracks t None)
      /\ getLocalSSRC t localTrack = JNum ssrc
  | Return (RemoteTrack remoteTrack) =>
      In remoteTrack (getRemoteTracks t None None)
      /\ rt_ssrc remoteTrack = ssrc
      /\ forall localTrack,
           In localTrack (getLocalTracks t None) ->
           getLocalSSRC t localTrack <> JNum ssrc
  | _ => False
  end.
Proof.
  unfold getSsrcByTrackId, getTrackBySSRC. cbn [isNumber negb getLocalTracks].
  intros H.
  destruct (find (fun localTrack => strictEq (getLocalSSRC t localTrack) (JNum ssrc))
                 (JsMap.values (localTracks t))) as [found|] eqn:F.
  - apply find_some in F. destruct F as [Hin Heq]. split; [exact Hin|].
    destruct (getLocalSSRC t found); cbn in Heq; try discriminate.
    apply Z.eqb_eq in Heq. now subst.
  - assert (forall localTrack,
               In localTrack (JsMap.values (localTracks t)) ->
               getLocalSSRC t localTrack <> JNum ssrc) as Hnone.
    { intros l Hl Hs. pose proof (find_none _ _ F l Hl) as Hf. cbn in Hf.
      rewrite Hs in Hf. cbn in Hf. now rewrite Z.eqb_refl in Hf. }
    destruct (find (fun track => String.eqb (localTrackId track) id)
                   (JsMap.values (localTracks t))) as [l|] eqn:L.
    + apply find_some in L. destruct L as [Hl _]. now apply Hnone in Hl.
    + destruct (find (fun track => String.eqb (remoteTrackId track) id)
                     (getRemoteTracks t None None)) as [r|] eqn:R;
        [|discriminate].
      apply find_some in R. destruct R as [Hr _]. injection H as Hs.
      destruct (find (fun remoteTrack => strictEq (JNum (rt_ssrc remoteTrack))
                                                  (JNum ssrc))
                     (getRemoteTracks t None None)) as [r'|] eqn:R'.
      * apply find_some in R'. destruct R' as [Hr' Heq]. cbn in Heq.
        apply Z.eqb_eq in Heq. auto.
      * pose proof (find_none _ _ R' r Hr) as Hf. cbn in Hf.
        rewrite Hs, Z.eqb_refl in Hf. discriminate.
Qed.

Lemma getSsrcByTrackId_getTrackBySSRC_witness :
  getSsrcByTrackId (fun track => showZ (rtcId track))
                   (fun track => showZ (Z.of_nat (rt_track track)))
                   tpcWithAlice "10" = JNum 5001
  /\ match getTrackBySSRC tpcWithAlice (JNum 5001) with
     | Return (LocalTrack localTrack) =>
         In localTrack (getLocalTracks tpcWithAlice None)
         /\ getLocalSSRC tpcWithAlice localTrack = JNum 5001
     | Return (RemoteTrack remoteTrack) =>
         In remoteTrack (getRemoteTracks tpcWithAlice None None)
         /\ rt_ssrc remoteTrack = 5001
         /\ forall localTrack,
              In localTrack (getLocalTracks tpcWithAlice None) ->
              getLocalSSRC tpcWithAlice localTrack <> JNum 5001
     | _ => False
     end.
Proof.
  split; [reflexivity|].
  apply (getSsrcByTrackId_getTrackBySSRC
           (fun track => showZ (rtcId track))
           (fun track => showZ (Z.of_nat (rt_track track)))
           tpcWithAlice "10" 5001).
  reflexivity.
Defined.
